(** * QHalRemoteComponent: the HAL remote component client

    A shallow embedding of [src/halremote/qhalremotecomponent.cpp]: the
    connection state machine of the remote component, its two pin indexes,
    the two heartbeat timers and the envelopes it puts on the command
    socket.  Every slot of the class is a function on the object's state;
    a null-pointer dereference is the failure of the [option] monad. *)

From Stdlib Require Import ZArith Ascii String List Floats.PrimFloat.
From stdpp Require Import gmap strings list fin_maps option pretty sorting.

Open Scope Z_scope.

(** ** Qt values *)

(** [QVariant], restricted to the payloads the component builds or reads. *)
Inductive QVariant :=
| QVInvalid
| QVDouble (d : float)
| QVBool (b : bool)
| QVInt (i : Z)
| QVUInt (u : Z).

(** Qt's conversions [QVariant::toDouble], [toBool], [toInt] and [toUInt]
    belong to the Qt library; the component only calls them. *)
Class QVariantConversions := {
  toDouble : QVariant -> float;
  toBool : QVariant -> bool;
  toInt : QVariant -> Z;
  toUInt : QVariant -> Z;
}.

(** [QString::indexOf(c)]: position of the first occurrence, [-1] if none. *)
Fixpoint indexOf (s : string) (c : ascii) : Z :=
  match s with
  | EmptyString => -1
  | String a s' =>
      if Ascii.eqb a c then 0
      else let i := indexOf s' c in if i =? -1 then -1 else 1 + i
  end.

(** [QString::mid(position)]: the text from [position] to the end. *)
Fixpoint mid (s : string) (position : nat) : string :=
  match position, s with
  | O, _ => s
  | S n, String _ s' => mid s' n
  | S _, EmptyString => EmptyString
  end.

(** [QChar::digitValue], on the decimal digits [0] to [9]. *)
Definition digitValue (a : ascii) : option nat :=
  let n := nat_of_ascii a in
  if ((48 <=? n) && (n <=? 57))%nat then Some (n - 48)%nat else None.

(** What [QString::arg] sees in a string: plain characters and place
    markers.  A place marker is [%], an optional [L] and one or two digits;
    [text] is the marker as it is written. *)
Inductive ArgPiece :=
| Plain (a : ascii)
| PlaceMarker (number : nat) (text : string).

(** The scan of [QString::arg] for place markers, from left to right.  A
    [%] that no digit follows is a plain character, and the scan goes on
    behind it. *)
Fixpoint argPieces (s : string) : list ArgPiece :=
  match s with
  | EmptyString => []
  | String a s1 =>
      if negb (Ascii.eqb a "%") then Plain a :: argPieces s1
      else
        match s1 with
        | EmptyString => [Plain a]
        | String b s2 =>
            if Ascii.eqb b "L" then
              match s2 with
              | EmptyString => [Plain a; Plain b]
              | String d s3 =>
                  match digitValue d with
                  | None => Plain a :: Plain b :: argPieces s2
                  | Some n =>
                      match s3 with
                      | EmptyString => [PlaceMarker n (String a (String b (String d "")))]
                      | String d' s4 =>
                          match digitValue d' with
                          | Some n' =>
                              PlaceMarker (10 * n + n')
                                (String a (String b (String d (String d' ""))))
                              :: argPieces s4
                          | None =>
                              PlaceMarker n (String a (String b (String d "")))
                              :: argPieces s3
                          end
                      end
                  end
              end
            else
              match digitValue b with
              | None => Plain a :: argPieces s1
              | Some n =>
                  match s2 with
                  | EmptyString => [PlaceMarker n (String a (String b ""))]
                  | String d' s3 =>
                      match digitValue d' with
                      | Some n' =>
                          PlaceMarker (10 * n + n') (String a (String b (String d' "")))
                          :: argPieces s3
                      | None => PlaceMarker n (String a (String b "")) :: argPieces s2
                      end
                  end
              end
        end
  end.

(** The lowest number among the place markers, if there is one. *)
Definition lowestMarker (pieces : list ArgPiece) : option nat :=
  foldr (fun piece lowest =>
           match piece, lowest with
           | Plain _, _ => lowest
           | PlaceMarker n _, None => Some n
           | PlaceMarker n _, Some m => Some (Nat.min n m)
           end) None pieces.

(** [QString::arg(a)] with a string argument: every place marker with the
    lowest number is replaced by [a], the other place markers stay; a string
    without place markers is returned as it is. *)
Definition QString_arg (s a : string) : string :=
  match lowestMarker (argPieces s) with
  | None => s
  | Some lowest =>
      foldr (fun piece rest =>
               match piece with
               | Plain c => String c rest
               | PlaceMarker n text => (if (n =? lowest)%nat then a else text) +:+ rest
               end) "" (argPieces s)
  end.

(** [QString("%1.%2").arg(comp).arg(pin)]: the name of a pin on the wire.
    The second [arg] scans the result of the first, the component name
    included. *)
Definition pinName (comp pin : string) : string :=
  QString_arg (QString_arg "%1.%2" comp) pin.

(** ** HAL pins *)

Module QHalPin.

Inductive HalPinType := Bit | Float | S32 | U32.
Inductive HalPinDirection := In | Out | IO.

(** Modelled from the spec: the class QHalPin (qhalpin.h and qhalpin.cpp are
    not among the sources).  Section 3 gives a pin a short name, a type tag,
    a direction tag, a current value, an enabled flag, a synced flag and a
    numeric handle assigned by the server. *)
Record t := {
  name : string;
  type : HalPinType;
  direction : HalPinDirection;
  value : QVariant;
  handle : Z;
  enabled : bool;
  synced : bool;
}.

(** Modelled from the spec: QHalPin::setHandle, "assign handle" (4.1). *)
Definition setHandle (h : Z) (p : t) : t :=
  {| name := name p; type := type p; direction := direction p; value := value p;
     handle := h; enabled := enabled p; synced := synced p |}.

(** Modelled from the spec: QHalPin::setSynced, "set/clear synced" (4.1). *)
Definition setSynced (b : bool) (p : t) : t :=
  {| name := name p; type := type p; direction := direction p; value := value p;
     handle := handle p; enabled := enabled p; synced := b |}.

(** Modelled from the spec: QHalPin::setValue(value, synced).  "Writing a
    value with the from-remote flag suppresses the outbound SET and sets
    synced=true" (4.1); a local write passes the flag as false. *)
Definition setValue (v : QVariant) (fromRemote : bool) (p : t) : t :=
  {| name := name p; type := type p; direction := direction p; value := v;
     handle := handle p; enabled := enabled p; synced := fromRemote |}.

End QHalPin.

#[global] Instance HalPinType_eq_dec : EqDecision QHalPin.HalPinType.
Proof. solve_decision. Defined.
#[global] Instance HalPinDirection_eq_dec : EqDecision QHalPin.HalPinDirection.
Proof. solve_decision. Defined.

(** ** Wire messages *)

Module pb.

Inductive ContainerType :=
| MT_HALRCOMP_BIND
| MT_HALRCOMP_BIND_CONFIRM
| MT_HALRCOMP_BIND_REJECT
| MT_HALRCOMP_SET
| MT_HALRCOMP_SET_REJECT
| MT_HALRCOMP_FULL_UPDATE
| MT_HALRCOMP_INCREMENTAL_UPDATE
| MT_HALRCOMMAND_ERROR
| MT_PING
| MT_PING_ACKNOWLEDGE
| MT_OTHER (tag : Z).

(** A protobuf message: every field is optional, the accessor of an unset
    field answers the default of its type. *)
Record Pin := {
  Pin_type : option QHalPin.HalPinType;
  Pin_name : option string;
  Pin_handle : option Z;
  Pin_dir : option QHalPin.HalPinDirection;
  Pin_halbit : option bool;
  Pin_halfloat : option float;
  Pin_hals32 : option Z;
  Pin_halu32 : option Z;
}.

Definition name (p : Pin) : string := default "" (Pin_name p).
Definition handle (p : Pin) : Z := default 0 (Pin_handle p).

Record Component := {
  Component_name : option string;
  Component_pin : list Pin;
}.

Record ProtocolParameters := {
  ProtocolParameters_keepalive_timer : option Z;
}.

Definition keepalive_timer (p : ProtocolParameters) : Z :=
  default 0 (ProtocolParameters_keepalive_timer p).

Record Container := {
  type : ContainerType;
  comp : list Component;
  pin : list Pin;
  note : list string;
  pparams : option ProtocolParameters;
}.

(** The message after [Clear()] and [set_type(t)]. *)
Definition cleared (t : ContainerType) : Container :=
  {| type := t; comp := []; pin := []; note := []; pparams := None |}.

End pb.

#[global] Instance ContainerType_eq_dec : EqDecision pb.ContainerType.
Proof. solve_decision. Defined.

(** ** The object *)

Inductive SocketState := Down | Trying | Up.
Inductive State := Disconnected | Connecting | Connected | Error.
Inductive ConnectionError :=
| NoError | BindError | PinChangeError | CommandError | TimeoutError | SocketError.

#[global] Instance SocketState_eq_dec : EqDecision SocketState.
Proof. solve_decision. Defined.
#[global] Instance State_eq_dec : EqDecision State.
Proof. solve_decision. Defined.
#[global] Instance ConnectionError_eq_dec : EqDecision ConnectionError.
Proof. solve_decision. Defined.

(** A [QHalPin *]: the address of a pin object; [option PinRef] is a pointer
    that may be [NULL]. *)
Definition PinRef := nat.

(** A [QObject] of the container tree; [inherits("QHalPin")] holds when the
    object is a pin. *)
#[warnings="-register-all"] Inductive QObject := mkQObject (qhalpin : option PinRef) (children : list QObject).

(** [QTimer]: whether it runs, and its interval in ms. *)
Record QTimer := { isActive : bool; interval : Z }.

Definition QTimer_start (t : QTimer) : QTimer := {| isActive := true; interval := interval t |}.
Definition QTimer_stop (t : QTimer) : QTimer := {| isActive := false; interval := interval t |}.
Definition QTimer_setInterval (msec : Z) (t : QTimer) : QTimer :=
  {| isActive := isActive t; interval := msec |}.

(** A 0MQ socket of the component: whether its [messageReceived] signal is
    connected to the component's slot. *)
Record ZMQSocket := { messageReceivedConnected : bool }.
Record PollingZMQContext := { pollErrorConnected : bool }.

(** [zmq::error_t]: [num()] and [what()]. *)
Record zmq_error := { num : Z; what : string }.

(** What the component does to the transport, in program order. *)
Inductive Output :=
| HalrcmdSend (data : pb.Container)
| HalrcompSubscribe (topic : string)
| HalrcompUnsubscribe (topic : string).

Record QHalRemoteComponent := {
  m_halrcmdUri : string;
  m_halrcompUri : string;
  m_name : string;
  m_heartbeatPeriod : Z;
  m_sState : SocketState;
  m_cState : SocketState;
  m_connectionState : State;
  m_error : ConnectionError;
  m_errorString : string;
  m_ready : bool;
  m_containerItem : option (list QObject);
  m_componentCompleted : bool;
  m_context : option PollingZMQContext;
  m_halrcompSocket : option ZMQSocket;
  m_halrcmdSocket : option ZMQSocket;
  m_halrcmdHeartbeatTimer : QTimer;
  m_halrcompHeartbeatTimer : QTimer;
  m_halrcmdPingOutstanding : bool;
  m_halrcompPingOutstanding : bool;
  m_pinsByName : gmap string PinRef;
  m_pinsByHandle : gmap Z PinRef;
  heap : PinRef -> QHalPin.t;
  valueChangedConnections : list PinRef;
  trace : list Output;
}.

Definition set_m_sState (v : SocketState) (c : QHalRemoteComponent) : QHalRemoteComponent :=
  {| m_halrcmdUri := m_halrcmdUri c; m_halrcompUri := m_halrcompUri c; m_name := m_name c;
     m_heartbeatPeriod := m_heartbeatPeriod c; m_sState := v; m_cState := m_cState c;
     m_connectionState := m_connectionState c; m_error := m_error c; m_errorString := m_errorString
     c; m_ready := m_ready c; m_containerItem := m_containerItem c; m_componentCompleted :=
     m_componentCompleted c; m_context := m_context c; m_halrcompSocket := m_halrcompSocket c;
     m_halrcmdSocket := m_halrcmdSocket c; m_halrcmdHeartbeatTimer := m_halrcmdHeartbeatTimer c;
     m_halrcompHeartbeatTimer := m_halrcompHeartbeatTimer c; m_halrcmdPingOutstanding :=
     m_halrcmdPingOutstanding c; m_halrcompPingOutstanding := m_halrcompPingOutstanding c;
     m_pinsByName := m_pinsByName c; m_pinsByHandle := m_pinsByHandle c; heap := heap c;
     valueChangedConnections := valueChangedConnections c; trace := trace c |}.
Definition set_m_cState (v : SocketState) (c : QHalRemoteComponent) : QHalRemoteComponent :=
  {| m_halrcmdUri := m_halrcmdUri c; m_halrcompUri := m_halrcompUri c; m_name := m_name c;
     m_heartbeatPeriod := m_heartbeatPeriod c; m_sState := m_sState c; m_cState := v;
     m_connectionState := m_connectionState c; m_error := m_error c; m_errorString := m_errorString
     c; m_ready := m_ready c; m_containerItem := m_containerItem c; m_componentCompleted :=
     m_componentCompleted c; m_context := m_context c; m_halrcompSocket := m_halrcompSocket c;
     m_halrcmdSocket := m_halrcmdSocket c; m_halrcmdHeartbeatTimer := m_halrcmdHeartbeatTimer c;
     m_halrcompHeartbeatTimer := m_halrcompHeartbeatTimer c; m_halrcmdPingOutstanding :=
     m_halrcmdPingOutstanding c; m_halrcompPingOutstanding := m_halrcompPingOutstanding c;
     m_pinsByName := m_pinsByName c; m_pinsByHandle := m_pinsByHandle c; heap := heap c;
     valueChangedConnections := valueChangedConnections c; trace := trace c |}.
Definition set_m_connectionState (v : State) (c : QHalRemoteComponent) : QHalRemoteComponent :=
  {| m_halrcmdUri := m_halrcmdUri c; m_halrcompUri := m_halrcompUri c; m_name := m_name c;
     m_heartbeatPeriod := m_heartbeatPeriod c; m_sState := m_sState c; m_cState := m_cState c;
     m_connectionState := v; m_error := m_error c; m_errorString := m_errorString c; m_ready :=
     m_ready c; m_containerItem := m_containerItem c; m_componentCompleted := m_componentCompleted c;
     m_context := m_context c; m_halrcompSocket := m_halrcompSocket c; m_halrcmdSocket :=
     m_halrcmdSocket c; m_halrcmdHeartbeatTimer := m_halrcmdHeartbeatTimer c;
     m_halrcompHeartbeatTimer := m_halrcompHeartbeatTimer c; m_halrcmdPingOutstanding :=
     m_halrcmdPingOutstanding c; m_halrcompPingOutstanding := m_halrcompPingOutstanding c;
     m_pinsByName := m_pinsByName c; m_pinsByHandle := m_pinsByHandle c; heap := heap c;
     valueChangedConnections := valueChangedConnections c; trace := trace c |}.
Definition set_m_error (v : ConnectionError) (c : QHalRemoteComponent) : QHalRemoteComponent :=
  {| m_halrcmdUri := m_halrcmdUri c; m_halrcompUri := m_halrcompUri c; m_name := m_name c;
     m_heartbeatPeriod := m_heartbeatPeriod c; m_sState := m_sState c; m_cState := m_cState c;
     m_connectionState := m_connectionState c; m_error := v; m_errorString := m_errorString c;
     m_ready := m_ready c; m_containerItem := m_containerItem c; m_componentCompleted :=
     m_componentCompleted c; m_context := m_context c; m_halrcompSocket := m_halrcompSocket c;
     m_halrcmdSocket := m_halrcmdSocket c; m_halrcmdHeartbeatTimer := m_halrcmdHeartbeatTimer c;
     m_halrcompHeartbeatTimer := m_halrcompHeartbeatTimer c; m_halrcmdPingOutstanding :=
     m_halrcmdPingOutstanding c; m_halrcompPingOutstanding := m_halrcompPingOutstanding c;
     m_pinsByName := m_pinsByName c; m_pinsByHandle := m_pinsByHandle c; heap := heap c;
     valueChangedConnections := valueChangedConnections c; trace := trace c |}.
Definition set_m_errorString (v : string) (c : QHalRemoteComponent) : QHalRemoteComponent :=
  {| m_halrcmdUri := m_halrcmdUri c; m_halrcompUri := m_halrcompUri c; m_name := m_name c;
     m_heartbeatPeriod := m_heartbeatPeriod c; m_sState := m_sState c; m_cState := m_cState c;
     m_connectionState := m_connectionState c; m_error := m_error c; m_errorString := v; m_ready :=
     m_ready c; m_containerItem := m_containerItem c; m_componentCompleted := m_componentCompleted c;
     m_context := m_context c; m_halrcompSocket := m_halrcompSocket c; m_halrcmdSocket :=
     m_halrcmdSocket c; m_halrcmdHeartbeatTimer := m_halrcmdHeartbeatTimer c;
     m_halrcompHeartbeatTimer := m_halrcompHeartbeatTimer c; m_halrcmdPingOutstanding :=
     m_halrcmdPingOutstanding c; m_halrcompPingOutstanding := m_halrcompPingOutstanding c;
     m_pinsByName := m_pinsByName c; m_pinsByHandle := m_pinsByHandle c; heap := heap c;
     valueChangedConnections := valueChangedConnections c; trace := trace c |}.
Definition set_m_ready (v : bool) (c : QHalRemoteComponent) : QHalRemoteComponent :=
  {| m_halrcmdUri := m_halrcmdUri c; m_halrcompUri := m_halrcompUri c; m_name := m_name c;
     m_heartbeatPeriod := m_heartbeatPeriod c; m_sState := m_sState c; m_cState := m_cState c;
     m_connectionState := m_connectionState c; m_error := m_error c; m_errorString := m_errorString
     c; m_ready := v; m_containerItem := m_containerItem c; m_componentCompleted :=
     m_componentCompleted c; m_context := m_context c; m_halrcompSocket := m_halrcompSocket c;
     m_halrcmdSocket := m_halrcmdSocket c; m_halrcmdHeartbeatTimer := m_halrcmdHeartbeatTimer c;
     m_halrcompHeartbeatTimer := m_halrcompHeartbeatTimer c; m_halrcmdPingOutstanding :=
     m_halrcmdPingOutstanding c; m_halrcompPingOutstanding := m_halrcompPingOutstanding c;
     m_pinsByName := m_pinsByName c; m_pinsByHandle := m_pinsByHandle c; heap := heap c;
     valueChangedConnections := valueChangedConnections c; trace := trace c |}.
Definition set_m_componentCompleted (v : bool) (c : QHalRemoteComponent) : QHalRemoteComponent :=
  {| m_halrcmdUri := m_halrcmdUri c; m_halrcompUri := m_halrcompUri c; m_name := m_name c;
     m_heartbeatPeriod := m_heartbeatPeriod c; m_sState := m_sState c; m_cState := m_cState c;
     m_connectionState := m_connectionState c; m_error := m_error c; m_errorString := m_errorString
     c; m_ready := m_ready c; m_containerItem := m_containerItem c; m_componentCompleted := v;
     m_context := m_context c; m_halrcompSocket := m_halrcompSocket c; m_halrcmdSocket :=
     m_halrcmdSocket c; m_halrcmdHeartbeatTimer := m_halrcmdHeartbeatTimer c;
     m_halrcompHeartbeatTimer := m_halrcompHeartbeatTimer c; m_halrcmdPingOutstanding :=
     m_halrcmdPingOutstanding c; m_halrcompPingOutstanding := m_halrcompPingOutstanding c;
     m_pinsByName := m_pinsByName c; m_pinsByHandle := m_pinsByHandle c; heap := heap c;
     valueChangedConnections := valueChangedConnections c; trace := trace c |}.
Definition set_m_context (v : option PollingZMQContext) (c : QHalRemoteComponent) : QHalRemoteComponent :=
  {| m_halrcmdUri := m_halrcmdUri c; m_halrcompUri := m_halrcompUri c; m_name := m_name c;
     m_heartbeatPeriod := m_heartbeatPeriod c; m_sState := m_sState c; m_cState := m_cState c;
     m_connectionState := m_connectionState c; m_error := m_error c; m_errorString := m_errorString
     c; m_ready := m_ready c; m_containerItem := m_containerItem c; m_componentCompleted :=
     m_componentCompleted c; m_context := v; m_halrcompSocket := m_halrcompSocket c; m_halrcmdSocket
     := m_halrcmdSocket c; m_halrcmdHeartbeatTimer := m_halrcmdHeartbeatTimer c;
     m_halrcompHeartbeatTimer := m_halrcompHeartbeatTimer c; m_halrcmdPingOutstanding :=
     m_halrcmdPingOutstanding c; m_halrcompPingOutstanding := m_halrcompPingOutstanding c;
     m_pinsByName := m_pinsByName c; m_pinsByHandle := m_pinsByHandle c; heap := heap c;
     valueChangedConnections := valueChangedConnections c; trace := trace c |}.
Definition set_m_halrcompSocket (v : option ZMQSocket) (c : QHalRemoteComponent) : QHalRemoteComponent :=
  {| m_halrcmdUri := m_halrcmdUri c; m_halrcompUri := m_halrcompUri c; m_name := m_name c;
     m_heartbeatPeriod := m_heartbeatPeriod c; m_sState := m_sState c; m_cState := m_cState c;
     m_connectionState := m_connectionState c; m_error := m_error c; m_errorString := m_errorString
     c; m_ready := m_ready c; m_containerItem := m_containerItem c; m_componentCompleted :=
     m_componentCompleted c; m_context := m_context c; m_halrcompSocket := v; m_halrcmdSocket :=
     m_halrcmdSocket c; m_halrcmdHeartbeatTimer := m_halrcmdHeartbeatTimer c;
     m_halrcompHeartbeatTimer := m_halrcompHeartbeatTimer c; m_halrcmdPingOutstanding :=
     m_halrcmdPingOutstanding c; m_halrcompPingOutstanding := m_halrcompPingOutstanding c;
     m_pinsByName := m_pinsByName c; m_pinsByHandle := m_pinsByHandle c; heap := heap c;
     valueChangedConnections := valueChangedConnections c; trace := trace c |}.
Definition set_m_halrcmdSocket (v : option ZMQSocket) (c : QHalRemoteComponent) : QHalRemoteComponent :=
  {| m_halrcmdUri := m_halrcmdUri c; m_halrcompUri := m_halrcompUri c; m_name := m_name c;
     m_heartbeatPeriod := m_heartbeatPeriod c; m_sState := m_sState c; m_cState := m_cState c;
     m_connectionState := m_connectionState c; m_error := m_error c; m_errorString := m_errorString
     c; m_ready := m_ready c; m_containerItem := m_containerItem c; m_componentCompleted :=
     m_componentCompleted c; m_context := m_context c; m_halrcompSocket := m_halrcompSocket c;
     m_halrcmdSocket := v; m_halrcmdHeartbeatTimer := m_halrcmdHeartbeatTimer c;
     m_halrcompHeartbeatTimer := m_halrcompHeartbeatTimer c; m_halrcmdPingOutstanding :=
     m_halrcmdPingOutstanding c; m_halrcompPingOutstanding := m_halrcompPingOutstanding c;
     m_pinsByName := m_pinsByName c; m_pinsByHandle := m_pinsByHandle c; heap := heap c;
     valueChangedConnections := valueChangedConnections c; trace := trace c |}.
Definition set_m_halrcmdHeartbeatTimer (v : QTimer) (c : QHalRemoteComponent) : QHalRemoteComponent :=
  {| m_halrcmdUri := m_halrcmdUri c; m_halrcompUri := m_halrcompUri c; m_name := m_name c;
     m_heartbeatPeriod := m_heartbeatPeriod c; m_sState := m_sState c; m_cState := m_cState c;
     m_connectionState := m_connectionState c; m_error := m_error c; m_errorString := m_errorString
     c; m_ready := m_ready c; m_containerItem := m_containerItem c; m_componentCompleted :=
     m_componentCompleted c; m_context := m_context c; m_halrcompSocket := m_halrcompSocket c;
     m_halrcmdSocket := m_halrcmdSocket c; m_halrcmdHeartbeatTimer := v; m_halrcompHeartbeatTimer :=
     m_halrcompHeartbeatTimer c; m_halrcmdPingOutstanding := m_halrcmdPingOutstanding c;
     m_halrcompPingOutstanding := m_halrcompPingOutstanding c; m_pinsByName := m_pinsByName c;
     m_pinsByHandle := m_pinsByHandle c; heap := heap c; valueChangedConnections :=
     valueChangedConnections c; trace := trace c |}.
Definition set_m_halrcompHeartbeatTimer (v : QTimer) (c : QHalRemoteComponent) : QHalRemoteComponent :=
  {| m_halrcmdUri := m_halrcmdUri c; m_halrcompUri := m_halrcompUri c; m_name := m_name c;
     m_heartbeatPeriod := m_heartbeatPeriod c; m_sState := m_sState c; m_cState := m_cState c;
     m_connectionState := m_connectionState c; m_error := m_error c; m_errorString := m_errorString
     c; m_ready := m_ready c; m_containerItem := m_containerItem c; m_componentCompleted :=
     m_componentCompleted c; m_context := m_context c; m_halrcompSocket := m_halrcompSocket c;
     m_halrcmdSocket := m_halrcmdSocket c; m_halrcmdHeartbeatTimer := m_halrcmdHeartbeatTimer c;
     m_halrcompHeartbeatTimer := v; m_halrcmdPingOutstanding := m_halrcmdPingOutstanding c;
     m_halrcompPingOutstanding := m_halrcompPingOutstanding c; m_pinsByName := m_pinsByName c;
     m_pinsByHandle := m_pinsByHandle c; heap := heap c; valueChangedConnections :=
     valueChangedConnections c; trace := trace c |}.
Definition set_m_halrcmdPingOutstanding (v : bool) (c : QHalRemoteComponent) : QHalRemoteComponent :=
  {| m_halrcmdUri := m_halrcmdUri c; m_halrcompUri := m_halrcompUri c; m_name := m_name c;
     m_heartbeatPeriod := m_heartbeatPeriod c; m_sState := m_sState c; m_cState := m_cState c;
     m_connectionState := m_connectionState c; m_error := m_error c; m_errorString := m_errorString
     c; m_ready := m_ready c; m_containerItem := m_containerItem c; m_componentCompleted :=
     m_componentCompleted c; m_context := m_context c; m_halrcompSocket := m_halrcompSocket c;
     m_halrcmdSocket := m_halrcmdSocket c; m_halrcmdHeartbeatTimer := m_halrcmdHeartbeatTimer c;
     m_halrcompHeartbeatTimer := m_halrcompHeartbeatTimer c; m_halrcmdPingOutstanding := v;
     m_halrcompPingOutstanding := m_halrcompPingOutstanding c; m_pinsByName := m_pinsByName c;
     m_pinsByHandle := m_pinsByHandle c; heap := heap c; valueChangedConnections :=
     valueChangedConnections c; trace := trace c |}.
Definition set_m_halrcompPingOutstanding (v : bool) (c : QHalRemoteComponent) : QHalRemoteComponent :=
  {| m_halrcmdUri := m_halrcmdUri c; m_halrcompUri := m_halrcompUri c; m_name := m_name c;
     m_heartbeatPeriod := m_heartbeatPeriod c; m_sState := m_sState c; m_cState := m_cState c;
     m_connectionState := m_connectionState c; m_error := m_error c; m_errorString := m_errorString
     c; m_ready := m_ready c; m_containerItem := m_containerItem c; m_componentCompleted :=
     m_componentCompleted c; m_context := m_context c; m_halrcompSocket := m_halrcompSocket c;
     m_halrcmdSocket := m_halrcmdSocket c; m_halrcmdHeartbeatTimer := m_halrcmdHeartbeatTimer c;
     m_halrcompHeartbeatTimer := m_halrcompHeartbeatTimer c; m_halrcmdPingOutstanding :=
     m_halrcmdPingOutstanding c; m_halrcompPingOutstanding := v; m_pinsByName := m_pinsByName c;
     m_pinsByHandle := m_pinsByHandle c; heap := heap c; valueChangedConnections :=
     valueChangedConnections c; trace := trace c |}.
Definition set_m_pinsByName (v : gmap string PinRef) (c : QHalRemoteComponent) : QHalRemoteComponent :=
  {| m_halrcmdUri := m_halrcmdUri c; m_halrcompUri := m_halrcompUri c; m_name := m_name c;
     m_heartbeatPeriod := m_heartbeatPeriod c; m_sState := m_sState c; m_cState := m_cState c;
     m_connectionState := m_connectionState c; m_error := m_error c; m_errorString := m_errorString
     c; m_ready := m_ready c; m_containerItem := m_containerItem c; m_componentCompleted :=
     m_componentCompleted c; m_context := m_context c; m_halrcompSocket := m_halrcompSocket c;
     m_halrcmdSocket := m_halrcmdSocket c; m_halrcmdHeartbeatTimer := m_halrcmdHeartbeatTimer c;
     m_halrcompHeartbeatTimer := m_halrcompHeartbeatTimer c; m_halrcmdPingOutstanding :=
     m_halrcmdPingOutstanding c; m_halrcompPingOutstanding := m_halrcompPingOutstanding c;
     m_pinsByName := v; m_pinsByHandle := m_pinsByHandle c; heap := heap c; valueChangedConnections
     := valueChangedConnections c; trace := trace c |}.
Definition set_m_pinsByHandle (v : gmap Z PinRef) (c : QHalRemoteComponent) : QHalRemoteComponent :=
  {| m_halrcmdUri := m_halrcmdUri c; m_halrcompUri := m_halrcompUri c; m_name := m_name c;
     m_heartbeatPeriod := m_heartbeatPeriod c; m_sState := m_sState c; m_cState := m_cState c;
     m_connectionState := m_connectionState c; m_error := m_error c; m_errorString := m_errorString
     c; m_ready := m_ready c; m_containerItem := m_containerItem c; m_componentCompleted :=
     m_componentCompleted c; m_context := m_context c; m_halrcompSocket := m_halrcompSocket c;
     m_halrcmdSocket := m_halrcmdSocket c; m_halrcmdHeartbeatTimer := m_halrcmdHeartbeatTimer c;
     m_halrcompHeartbeatTimer := m_halrcompHeartbeatTimer c; m_halrcmdPingOutstanding :=
     m_halrcmdPingOutstanding c; m_halrcompPingOutstanding := m_halrcompPingOutstanding c;
     m_pinsByName := m_pinsByName c; m_pinsByHandle := v; heap := heap c; valueChangedConnections :=
     valueChangedConnections c; trace := trace c |}.
Definition set_heap (v : PinRef -> QHalPin.t) (c : QHalRemoteComponent) : QHalRemoteComponent :=
  {| m_halrcmdUri := m_halrcmdUri c; m_halrcompUri := m_halrcompUri c; m_name := m_name c;
     m_heartbeatPeriod := m_heartbeatPeriod c; m_sState := m_sState c; m_cState := m_cState c;
     m_connectionState := m_connectionState c; m_error := m_error c; m_errorString := m_errorString
     c; m_ready := m_ready c; m_containerItem := m_containerItem c; m_componentCompleted :=
     m_componentCompleted c; m_context := m_context c; m_halrcompSocket := m_halrcompSocket c;
     m_halrcmdSocket := m_halrcmdSocket c; m_halrcmdHeartbeatTimer := m_halrcmdHeartbeatTimer c;
     m_halrcompHeartbeatTimer := m_halrcompHeartbeatTimer c; m_halrcmdPingOutstanding :=
     m_halrcmdPingOutstanding c; m_halrcompPingOutstanding := m_halrcompPingOutstanding c;
     m_pinsByName := m_pinsByName c; m_pinsByHandle := m_pinsByHandle c; heap := v;
     valueChangedConnections := valueChangedConnections c; trace := trace c |}.
Definition set_valueChangedConnections (v : list PinRef) (c : QHalRemoteComponent) : QHalRemoteComponent :=
  {| m_halrcmdUri := m_halrcmdUri c; m_halrcompUri := m_halrcompUri c; m_name := m_name c;
     m_heartbeatPeriod := m_heartbeatPeriod c; m_sState := m_sState c; m_cState := m_cState c;
     m_connectionState := m_connectionState c; m_error := m_error c; m_errorString := m_errorString
     c; m_ready := m_ready c; m_containerItem := m_containerItem c; m_componentCompleted :=
     m_componentCompleted c; m_context := m_context c; m_halrcompSocket := m_halrcompSocket c;
     m_halrcmdSocket := m_halrcmdSocket c; m_halrcmdHeartbeatTimer := m_halrcmdHeartbeatTimer c;
     m_halrcompHeartbeatTimer := m_halrcompHeartbeatTimer c; m_halrcmdPingOutstanding :=
     m_halrcmdPingOutstanding c; m_halrcompPingOutstanding := m_halrcompPingOutstanding c;
     m_pinsByName := m_pinsByName c; m_pinsByHandle := m_pinsByHandle c; heap := heap c;
     valueChangedConnections := v; trace := trace c |}.
Definition set_trace (v : list Output) (c : QHalRemoteComponent) : QHalRemoteComponent :=
  {| m_halrcmdUri := m_halrcmdUri c; m_halrcompUri := m_halrcompUri c; m_name := m_name c;
     m_heartbeatPeriod := m_heartbeatPeriod c; m_sState := m_sState c; m_cState := m_cState c;
     m_connectionState := m_connectionState c; m_error := m_error c; m_errorString := m_errorString
     c; m_ready := m_ready c; m_containerItem := m_containerItem c; m_componentCompleted :=
     m_componentCompleted c; m_context := m_context c; m_halrcompSocket := m_halrcompSocket c;
     m_halrcmdSocket := m_halrcmdSocket c; m_halrcmdHeartbeatTimer := m_halrcmdHeartbeatTimer c;
     m_halrcompHeartbeatTimer := m_halrcompHeartbeatTimer c; m_halrcmdPingOutstanding :=
     m_halrcmdPingOutstanding c; m_halrcompPingOutstanding := m_halrcompPingOutstanding c;
     m_pinsByName := m_pinsByName c; m_pinsByHandle := m_pinsByHandle c; heap := heap c;
     valueChangedConnections := valueChangedConnections c; trace := v |}.


Abbreviation T := QHalRemoteComponent.

(** The constructor's member initialisers, on an object whose properties
    ([halrcmdUri], [halrcompUri], [name], [heartbeatPeriod], [containerItem])
    have been assigned and whose pins live at the addresses of [pins]. *)
Definition constructed (halrcmdUri halrcompUri name : string) (heartbeatPeriod : Z)
    (containerItem : option (list QObject)) (pins : PinRef -> QHalPin.t) : T :=
  {| m_halrcmdUri := halrcmdUri; m_halrcompUri := halrcompUri; m_name := name;
     m_heartbeatPeriod := heartbeatPeriod; m_sState := Down; m_cState := Down;
     m_connectionState := Disconnected; m_error := NoError; m_errorString := "";
     m_ready := false; m_containerItem := containerItem; m_componentCompleted := false;
     m_context := None; m_halrcompSocket := None; m_halrcmdSocket := None;
     m_halrcmdHeartbeatTimer := {| isActive := false; interval := 0 |};
     m_halrcompHeartbeatTimer := {| isActive := false; interval := 0 |};
     m_halrcmdPingOutstanding := false; m_halrcompPingOutstanding := false;
     m_pinsByName := ∅; m_pinsByHandle := ∅; heap := pins;
     valueChangedConnections := []; trace := [] |}.

(** ** Helpers of the embedding *)

Definition emit (o : Output) (c : T) : T := set_trace (trace c ++ [o]) c.

(** [pin->f(...)] for a setter [f] of the pin at address [pin]. *)
Definition heap_update (pin : PinRef) (f : QHalPin.t -> QHalPin.t)
    (h : PinRef -> QHalPin.t) : PinRef -> QHalPin.t :=
  fun r => if decide (r = pin) then f (h r) else h r.

Definition modifyPin (pin : PinRef) (f : QHalPin.t -> QHalPin.t) (c : T) : T :=
  set_heap (heap_update pin f (heap c)) c.

(** A [for] loop whose body may dereference a null pointer. *)
Fixpoint forEach {A : Type} (body : T -> A -> option T) (l : list A) (c : T) : option T :=
  match l with
  | [] => Some c
  | x :: l' => c' ← body c x; forEach body l' c'
  end.

(** [QString("Error %1: ").arg(n) + msg] *)
Definition errorText (n : Z) (msg : string) : string := "Error " +:+ pretty n +:+ ": " +:+ msg.

(** ** Pins of the container *)

(** [recurseObjects]: the pins below a list of objects, parents first. *)
Fixpoint recurseObject (object : QObject) : list PinRef :=
  match object with
  | mkQObject qhalpin children =>
      (match qhalpin with Some pin => [pin] | None => [] end)
      ++ (if decide (0 < length children)%nat then flat_map recurseObject children else [])
  end.

Definition recurseObjects (objects : list QObject) : list PinRef :=
  flat_map recurseObject objects.

(** The body of the loop of [addPins]. *)
Definition addPin (c : T) (pin : PinRef) : T :=
  if String.eqb (QHalPin.name (heap c pin)) "" || negb (QHalPin.enabled (heap c pin)) then c
  else set_valueChangedConnections (valueChangedConnections c ++ [pin])
         (set_m_pinsByName (<[QHalPin.name (heap c pin) := pin]> (m_pinsByName c)) c).

Definition addPins (c : T) : T :=
  match m_containerItem c with
  | None => c
  | Some children => foldl addPin c (recurseObjects children)
  end.

(** [QMap<QString, _>] keeps its entries in the order of their keys, which
    [QString::operator<] compares character by character. *)
Definition keyOrder (e1 e2 : string * PinRef) : Prop := String.leb e1.1 e2.1 = true.

#[global] Instance keyOrder_dec e1 e2 : Decision (keyOrder e1 e2).
Proof. unfold keyOrder. apply _. Defined.

Definition entries (m : gmap string PinRef) : list (string * PinRef) :=
  merge_sort keyOrder (map_to_list m).

(** The pins the name index refers to, as [foreach] visits them: in the
    order of their names in the index. *)
Definition registeredPins (c : T) : list PinRef := (entries (m_pinsByName c)).*2.

Definition removePins (c : T) : T :=
  set_m_pinsByName ∅
    (set_m_pinsByHandle ∅
       (set_valueChangedConnections
          (filter (fun pin => pin ∉ registeredPins c) (valueChangedConnections c)) c)).

Definition unsyncPins (c : T) : T :=
  set_heap (foldl (fun h pin => heap_update pin (QHalPin.setSynced false) h)
              (heap c) (registeredPins c)) c.

(** ** Timers, state and error *)

Definition startHalrcmdHeartbeat (c : T) : T :=
  let c := set_m_halrcmdPingOutstanding false c in
  if decide (0 < m_heartbeatPeriod c) then
    set_m_halrcmdHeartbeatTimer
      (QTimer_start (QTimer_setInterval (m_heartbeatPeriod c) (m_halrcmdHeartbeatTimer c))) c
  else c.

Definition stopHalrcmdHeartbeat (c : T) : T :=
  set_m_halrcmdHeartbeatTimer (QTimer_stop (m_halrcmdHeartbeatTimer c)) c.

Definition startHalrcompHeartbeat (interval : Z) (c : T) : T :=
  let c := set_m_halrcompHeartbeatTimer (QTimer_stop (m_halrcompHeartbeatTimer c)) c in
  let c := set_m_halrcompPingOutstanding false c in
  if decide (0 < interval) then
    set_m_halrcompHeartbeatTimer
      (QTimer_start (QTimer_setInterval interval (m_halrcompHeartbeatTimer c))) c
  else c.

Definition stopHalrcompHeartbeat (c : T) : T :=
  set_m_halrcompHeartbeatTimer (QTimer_stop (m_halrcompHeartbeatTimer c)) c.

Definition refreshHalrcompHeartbeat (c : T) : T :=
  if isActive (m_halrcompHeartbeatTimer c) then
    set_m_halrcompHeartbeatTimer (QTimer_start (QTimer_stop (m_halrcompHeartbeatTimer c))) c
  else c.

Definition updateState (state : State) (c : T) : T :=
  if decide (state ≠ m_connectionState c) then
    let c := if decide (m_connectionState c = Connected) then unsyncPins c else c in
    let c := set_m_connectionState state c in
    if decide (m_connectionState c = Connected) then startHalrcmdHeartbeat c
    else stopHalrcompHeartbeat (stopHalrcmdHeartbeat c)
  else c.

Arguments updateState : simpl never.

Definition updateError (error : ConnectionError) (errorString : string) (c : T) : T :=
  set_m_errorString errorString (set_m_error error c).

Definition pollError (errorNum : Z) (errorMsg : string) (c : T) : T :=
  updateState Error (updateError SocketError (errorText errorNum errorMsg) c).

(** ** Sockets *)

(** [exc] is the [zmq::error_t] the two [connectTo] calls raise, if any.  The
    linger and identity options of the sockets are not part of the state. *)
Definition connectSockets (exc : option zmq_error) (c : T) : bool * T :=
  let c := set_m_context (Some {| pollErrorConnected := true |}) c in
  let c := set_m_halrcmdSocket (Some {| messageReceivedConnected := false |}) c in
  let c := set_m_halrcompSocket (Some {| messageReceivedConnected := false |}) c in
  match exc with
  | Some e => (false, updateState Error (updateError SocketError (errorText (num e) (what e)) c))
  | None =>
      (true, set_m_halrcmdSocket (Some {| messageReceivedConnected := true |})
               (set_m_halrcompSocket (Some {| messageReceivedConnected := true |}) c))
  end.

Definition disconnectSockets (c : T) : T :=
  let c := if m_halrcmdSocket c is Some _ then set_m_halrcmdSocket None c else c in
  let c := if m_halrcompSocket c is Some _ then set_m_halrcompSocket None c else c in
  if m_context c is Some _ then set_m_context None c else c.

(** [exc] is the [zmq::error_t] that [sendMessage] raises, if any; the call
    itself is recorded either way. *)
Definition sendHalrcmdMessage (data : pb.Container) (exc : option zmq_error) (c : T) : option T :=
  _ ← m_halrcmdSocket c;
  let c := emit (HalrcmdSend data) c in
  match exc with
  | Some e => Some (updateState Error (updateError SocketError (errorText (num e) (what e)) c))
  | None => Some c
  end.

Definition subscribe (c : T) : option T :=
  let c := set_m_sState Trying c in
  _ ← m_halrcompSocket c;
  Some (emit (HalrcompSubscribe (m_name c)) c).

Definition unsubscribe (c : T) : option T :=
  let c := set_m_sState Down c in
  _ ← m_halrcompSocket c;
  Some (emit (HalrcompUnsubscribe (m_name c)) c).

(** ** Envelopes and slots *)

Section Slots.

Context `{QVariantConversions}.

(** The pin sub-message [bind] adds for a registered pin. *)
Definition bindPin (comp : string) (pin : QHalPin.t) : pb.Pin :=
  {| pb.Pin_type := Some (QHalPin.type pin);
     pb.Pin_name := Some (pinName comp (QHalPin.name pin));
     pb.Pin_handle := None;
     pb.Pin_dir := Some (QHalPin.direction pin);
     pb.Pin_halbit :=
       if decide (QHalPin.type pin = QHalPin.Bit) then Some (toBool (QHalPin.value pin))
       else None;
     pb.Pin_halfloat :=
       if decide (QHalPin.type pin = QHalPin.Float) then Some (toDouble (QHalPin.value pin))
       else None;
     pb.Pin_hals32 :=
       if decide (QHalPin.type pin = QHalPin.S32) then Some (toInt (QHalPin.value pin))
       else None;
     pb.Pin_halu32 :=
       if decide (QHalPin.type pin = QHalPin.U32) then Some (toUInt (QHalPin.value pin))
       else None |}.

Definition bindMessage (c : T) : pb.Container :=
  {| pb.type := pb.MT_HALRCOMP_BIND;
     pb.comp :=
       [ {| pb.Component_name := Some (m_name c);
            pb.Component_pin :=
              map (fun pin => bindPin (m_name c) (heap c pin)) (registeredPins c) |} ];
     pb.pin := []; pb.note := []; pb.pparams := None |}.

Definition bind (exc : option zmq_error) (c : T) : option T :=
  sendHalrcmdMessage (bindMessage c) exc c.

(** ** Pin updates, both ways *)

Definition pinUpdate (remotePin : pb.Pin) (localPin : option PinRef) (c : T) : option T :=
  match pb.Pin_halfloat remotePin with
  | Some d => pin ← localPin; Some (modifyPin pin (QHalPin.setValue (QVDouble d) true) c)
  | None =>
  match pb.Pin_halbit remotePin with
  | Some b => pin ← localPin; Some (modifyPin pin (QHalPin.setValue (QVBool b) true) c)
  | None =>
  match pb.Pin_hals32 remotePin with
  | Some i => pin ← localPin; Some (modifyPin pin (QHalPin.setValue (QVInt i) true) c)
  | None =>
  match pb.Pin_halu32 remotePin with
  | Some u => pin ← localPin; Some (modifyPin pin (QHalPin.setValue (QVUInt u) true) c)
  | None => Some c
  end end end end.

(** The pin sub-message of a SET envelope. *)
Definition setPin (comp : string) (pin : QHalPin.t) : pb.Pin :=
  {| pb.Pin_type := Some (QHalPin.type pin);
     pb.Pin_name := Some (pinName comp (QHalPin.name pin));
     pb.Pin_handle := Some (QHalPin.handle pin);
     pb.Pin_dir := None;
     pb.Pin_halbit :=
       if decide (QHalPin.type pin = QHalPin.Bit) then Some (toBool (QHalPin.value pin))
       else None;
     pb.Pin_halfloat :=
       if decide (QHalPin.type pin = QHalPin.Float) then Some (toDouble (QHalPin.value pin))
       else None;
     pb.Pin_hals32 :=
       if decide (QHalPin.type pin = QHalPin.S32) then Some (toInt (QHalPin.value pin))
       else None;
     pb.Pin_halu32 :=
       if decide (QHalPin.type pin = QHalPin.U32) then Some (toUInt (QHalPin.value pin))
       else None |}.

Definition setMessage (c : T) (pin : PinRef) : pb.Container :=
  {| pb.type := pb.MT_HALRCOMP_SET; pb.comp := [];
     pb.pin := [setPin (m_name c) (heap c pin)]; pb.note := []; pb.pparams := None |}.

(** The slot [pinChange]; [sender] is [QObject::sender()]. *)
Definition pinChange (sender : PinRef) (exc : option zmq_error) (c : T) : option T :=
  if decide (m_connectionState c ≠ Connected) then Some c
  else if decide (QHalPin.direction (heap c sender) = QHalPin.In) then Some c
  else sendHalrcmdMessage (setMessage c sender) exc c.

(** ** Session start and end *)

Definition start (connectExc sendExc : option zmq_error) (c : T) : option T :=
  let c := set_m_cState Trying c in
  let c := updateState Connecting c in
  let '(ok, c) := connectSockets connectExc c in
  if ok then bind sendExc (addPins c) else Some c.

Definition stop (c : T) : T :=
  let c := stopHalrcmdHeartbeat c in
  let c := stopHalrcompHeartbeat c in
  let c := disconnectSockets c in
  let c := removePins c in
  let c := updateState Disconnected c in
  updateError NoError "" c.

Definition componentComplete (connectExc sendExc : option zmq_error) (c : T) : option T :=
  let c := set_m_componentCompleted true c in
  if m_ready c then start connectExc sendExc c else Some c.

Definition setReady (arg : bool) (connectExc sendExc : option zmq_error) (c : T) : option T :=
  if decide (m_ready c ≠ arg) then
    let c := set_m_ready arg c in
    if negb (m_componentCompleted c) then Some c
    else if m_ready c then start connectExc sendExc c
    else Some (stop c)
  else Some c.

(** ** Messages of the update socket *)

(** The local pin name of a remote pin: the text after the first dot. *)
Definition localName (remotePin : pb.Pin) : string :=
  let name := pb.name remotePin in
  let dotIndex := indexOf name "." in
  if decide (dotIndex ≠ -1) then mid name (Z.to_nat (dotIndex + 1)) else name.

Definition incrementalUpdatePin (c : T) (remotePin : pb.Pin) : option T :=
  let localPin := m_pinsByHandle c !! pb.handle remotePin in
  pinUpdate remotePin localPin c.

Definition fullUpdatePin (c : T) (remotePin : pb.Pin) : option T :=
  let localPin := m_pinsByName c !! localName remotePin in
  pin ← localPin;
  let c := modifyPin pin (QHalPin.setHandle (pb.handle remotePin)) c in
  let c := set_m_pinsByHandle (<[pb.handle remotePin := pin]> (m_pinsByHandle c)) c in
  pinUpdate remotePin localPin c.

(** The block both updates run when the subscription is not yet up. *)
Definition subscriptionUp (c : T) : T :=
  if decide (m_sState c ≠ Up) then
    updateState Connected (updateError NoError "" (set_m_sState Up c))
  else c.

Definition fullUpdateComponent (c : T) (component : pb.Component) : option T :=
  c ← forEach fullUpdatePin (pb.Component_pin component) c;
  Some (subscriptionUp c).

Definition notes (rx : pb.Container) : string :=
  foldl (fun errorString n => errorString +:+ n +:+ String "010" "") "" (pb.note rx).

Definition halrcompMessageReceived (topic : string) (rx : pb.Container) (c : T) : option T :=
  match pb.type rx with
  | pb.MT_HALRCOMP_INCREMENTAL_UPDATE =>
      c ← forEach incrementalUpdatePin (pb.pin rx) c;
      Some (refreshHalrcompHeartbeat (subscriptionUp c))
  | pb.MT_HALRCOMP_FULL_UPDATE =>
      c ← forEach fullUpdateComponent (pb.comp rx) c;
      Some (match pb.pparams rx with
            | Some pparams => startHalrcompHeartbeat (pb.keepalive_timer pparams) c
            | None => c
            end)
  | pb.MT_PING => Some (refreshHalrcompHeartbeat c)
  | pb.MT_HALRCOMMAND_ERROR =>
      Some (updateState Error (updateError CommandError (notes rx) (set_m_sState Down c)))
  | _ => Some c
  end.

(** ** Messages of the command socket *)

Definition halrcmdMessageReceived (rx : pb.Container) (c : T) : option T :=
  match pb.type rx with
  | pb.MT_PING_ACKNOWLEDGE =>
      let c := set_m_cState Up c in
      let c := set_m_halrcmdPingOutstanding false c in
      if decide (m_connectionState c = Error ∧ m_error c = TimeoutError) then
        subscribe (updateState Connected (updateError NoError "" c))
      else Some c
  | pb.MT_HALRCOMP_BIND_CONFIRM => subscribe (set_m_cState Up c)
  | pb.MT_HALRCOMP_BIND_REJECT =>
      Some (updateState Error (updateError BindError (notes rx) (set_m_cState Down c)))
  | pb.MT_HALRCOMP_SET_REJECT =>
      Some (updateState Error (updateError PinChangeError (notes rx) (set_m_cState Down c)))
  | _ => Some c
  end.

(** ** Heartbeats *)

Definition halrcmdHeartbeatTimerTick (exc : option zmq_error) (c : T) : option T :=
  c ← (if m_halrcmdPingOutstanding c then
         c ← unsubscribe (set_m_cState Trying c);
         Some (updateState Error (updateError TimeoutError "Halrcmd service timed out" c))
       else Some c);
  c ← sendHalrcmdMessage (pb.cleared pb.MT_PING) exc c;
  Some (set_m_halrcmdPingOutstanding true c).

Definition halrcompHeartbeatTimerTick (exc : option zmq_error) (c : T) : option T :=
  c ← unsubscribe (set_m_cState Trying c);
  let c := updateState Error (updateError TimeoutError "Halrcomp service timed out" c) in
  c ← sendHalrcmdMessage (pb.cleared pb.MT_PING) exc c;
  Some (set_m_halrcompPingOutstanding true c).

End Slots.

(** ** The event loop *)

(** What the Qt event loop delivers to the object.  The [option zmq_error]
    arguments say which transport calls of the handler raise. *)
Inductive Event :=
| EvComponentComplete (connectExc sendExc : option zmq_error)
| EvSetReady (arg : bool) (connectExc sendExc : option zmq_error)
| EvPinWrite (pin : PinRef) (v : QVariant) (sendExc : option zmq_error)
| EvHalrcompMessage (topic : string) (rx : pb.Container)
| EvHalrcmdMessage (rx : pb.Container)
| EvHalrcmdHeartbeatTick (sendExc : option zmq_error)
| EvHalrcompHeartbeatTick (sendExc : option zmq_error)
| EvPollError (errorNum : Z) (errorMsg : string).

(** A signal reaches its slot only through a live connection: a socket
    delivers messages once [connectSockets] has connected its signal, a timer
    ticks only while it is active, [componentComplete] is called once. *)
Definition enabled (ev : Event) (c : T) : bool :=
  match ev with
  | EvComponentComplete _ _ => negb (m_componentCompleted c)
  | EvSetReady _ _ _ => true
  | EvPinWrite _ _ _ => true
  | EvHalrcompMessage _ _ =>
      if m_halrcompSocket c is Some s then messageReceivedConnected s else false
  | EvHalrcmdMessage _ =>
      if m_halrcmdSocket c is Some s then messageReceivedConnected s else false
  | EvHalrcmdHeartbeatTick _ => isActive (m_halrcmdHeartbeatTimer c)
  | EvHalrcompHeartbeatTick _ => isActive (m_halrcompHeartbeatTimer c)
  | EvPollError _ _ => if m_context c is Some x then pollErrorConnected x else false
  end.

Section EventLoop.

Context `{QVariantConversions}.

(** Modelled from the spec: a local write of a pin, QHalPin::setValue(v)
    without the from-remote flag, followed by the [valueChanged] signal,
    which runs [pinChange] once per connection made by [addPins]. *)
Definition pinWrite (pin : PinRef) (v : QVariant) (exc : option zmq_error) (c : T) : option T :=
  let c := modifyPin pin (QHalPin.setValue v false) c in
  forEach (fun c sender => pinChange sender exc c)
    (filter (fun sender => sender = pin) (valueChangedConnections c)) c.

Definition handle (ev : Event) (c : T) : option T :=
  match ev with
  | EvComponentComplete connectExc sendExc => componentComplete connectExc sendExc c
  | EvSetReady arg connectExc sendExc => setReady arg connectExc sendExc c
  | EvPinWrite pin v sendExc => pinWrite pin v sendExc c
  | EvHalrcompMessage topic rx => halrcompMessageReceived topic rx c
  | EvHalrcmdMessage rx => halrcmdMessageReceived rx c
  | EvHalrcmdHeartbeatTick sendExc => halrcmdHeartbeatTimerTick sendExc c
  | EvHalrcompHeartbeatTick sendExc => halrcompHeartbeatTimerTick sendExc c
  | EvPollError errorNum errorMsg => Some (pollError errorNum errorMsg c)
  end.

(** One turn of the loop: [None] when the event cannot occur in [c] or
    when its handler dereferences a null pointer. *)
Definition step (ev : Event) (c : T) : option T :=
  if enabled ev c then handle ev c else None.

Fixpoint run (evs : list Event) (c : T) : option T :=
  match evs with
  | [] => Some c
  | ev :: evs' => c' ← step ev c; run evs' c'
  end.

End EventLoop.

(** ** Sample data *)

Module Sample.

(** A stand-in for Qt's conversions, for running the model on examples. *)
Definition conversions : QVariantConversions :=
  {| toDouble := fun v => match v with QVDouble d => d | _ => 0%float end;
     toBool := fun v => match v with QVBool b => b | _ => false end;
     toInt := fun v => match v with QVInt i => i | _ => 0 end;
     toUInt := fun v => match v with QVUInt u => u | _ => 0 end |}.

(** The pins of scenario S1: [x:Float:Out=1.5] at address 0 and
    [y:Bit:In=false] everywhere else. *)
Definition x : QHalPin.t :=
  {| QHalPin.name := "x"; QHalPin.type := QHalPin.Float; QHalPin.direction := QHalPin.Out;
     QHalPin.value := QVDouble 1.5; QHalPin.handle := 0; QHalPin.enabled := true;
     QHalPin.synced := false |}.
Definition y : QHalPin.t :=
  {| QHalPin.name := "y"; QHalPin.type := QHalPin.Bit; QHalPin.direction := QHalPin.In;
     QHalPin.value := QVBool false; QHalPin.handle := 0; QHalPin.enabled := true;
     QHalPin.synced := false |}.
Definition pins : PinRef -> QHalPin.t := fun r => match r with O => x | _ => y end.

Definition container : list QObject :=
  [mkQObject None [mkQObject (Some 0%nat) []; mkQObject (Some 1%nat) []]].

Definition comp0 : T :=
  constructed "tcp://h:5001" "tcp://h:5002" "comp" 3000 (Some container) pins.

Definition remotePin (name : string) (handle : Z) (halfloat : option float)
    (halbit : option bool) : pb.Pin :=
  {| pb.Pin_type := None; pb.Pin_name := Some name; pb.Pin_handle := Some handle;
     pb.Pin_dir := None; pb.Pin_halbit := halbit; pb.Pin_halfloat := halfloat;
     pb.Pin_hals32 := None; pb.Pin_halu32 := None |}.

Definition fullUpdate (pins : list pb.Pin) (keepalive : option Z) : pb.Container :=
  {| pb.type := pb.MT_HALRCOMP_FULL_UPDATE;
     pb.comp := [ {| pb.Component_name := Some "comp"; pb.Component_pin := pins |} ];
     pb.pin := []; pb.note := [];
     pb.pparams := (fun k => {| pb.ProtocolParameters_keepalive_timer := Some k |}) <$> keepalive |}.

Definition incrementalUpdate (pins : list pb.Pin) : pb.Container :=
  {| pb.type := pb.MT_HALRCOMP_INCREMENTAL_UPDATE; pb.comp := []; pb.pin := pins;
     pb.note := []; pb.pparams := None |}.

(** Scenario S1: ready, bind confirmed, first full update. *)
Definition s1 : list Event :=
  [ EvComponentComplete None None;
    EvSetReady true None None;
    EvHalrcmdMessage (pb.cleared pb.MT_HALRCOMP_BIND_CONFIRM);
    EvHalrcompMessage "comp"
      (fullUpdate [remotePin "comp.x" 10 (Some 1.5%float) None;
                   remotePin "comp.y" 11 None (Some false)] (Some 2000)) ].

(** The component after the first three events of S1: bound and subscribed,
    waiting for the first full update. *)
Definition subscribed : T := default comp0 (@run conversions (take 3 s1) comp0).

(** The component at the end of S1. *)
Definition connected : T := default comp0 (@run conversions s1 comp0).


(** A second full update, in which the server has renumbered both pins. *)
Definition renumbered : pb.Container :=
  fullUpdate [remotePin "comp.x" 20 (Some 1.5%float) None;
              remotePin "comp.y" 21 None (Some false)] None.

(** An incremental update whose second pin carries a handle that no full
    update has assigned. *)
Definition unknownHandle : pb.Container :=
  incrementalUpdate [remotePin "comp.x" 10 (Some 2.5%float) None;
                     remotePin "comp.z" 99 None (Some true)].

(** S1, then two ticks of the command heartbeat with no PING_ACK in
    between: the second one finds the first ping outstanding. *)
Definition commandTimeout : list Event :=
  s1 ++ [EvHalrcmdHeartbeatTick None; EvHalrcmdHeartbeatTick None].

(** S1, then the application takes [ready] back and sets it again. *)
Definition secondSession : list Event :=
  s1 ++ [EvSetReady false None None; EvSetReady true None None].

(** The connected component after one tick of the command heartbeat: a ping
    is outstanding. *)
Definition pinged : T :=
  default comp0 (@run conversions (s1 ++ [EvHalrcmdHeartbeatTick None]) comp0).

(** The connected component after the subscription heartbeat has expired. *)
Definition subscriptionExpired : T :=
  default comp0 (@run conversions (s1 ++ [EvHalrcompHeartbeatTick None]) comp0).

(** The completed component before it is made ready. *)
Definition completed : T := default comp0 (@run conversions (take 1 s1) comp0).

(** The full update of S1. *)
Definition firstFullUpdate : pb.Container :=
  fullUpdate [remotePin "comp.x" 10 (Some 1.5%float) None;
              remotePin "comp.y" 11 None (Some false)] (Some 2000).

(** S1, then the server rejects a SET, and an incremental update for [x]
    arrives on the subscription, which is still up. *)
Definition updateAfterReject : list Event :=
  s1 ++ [EvHalrcmdMessage (pb.cleared pb.MT_HALRCOMP_SET_REJECT);
         EvHalrcompMessage "comp"
           (incrementalUpdate [remotePin "comp.x" 10 (Some 2.5%float) None])].

End Sample.


(** ** Vocabulary of the statements *)

(** An output that is a SET envelope on the command socket. *)
Definition isSET (o : Output) : Prop :=
  exists data, o = HalrcmdSend data /\ pb.type data = pb.MT_HALRCOMP_SET.

(** The value a pin sub-message carries: the first field present, in the
    order [pinUpdate] tests them. *)
Definition remoteValue (remotePin : pb.Pin) : option QVariant :=
  match pb.Pin_halfloat remotePin, pb.Pin_halbit remotePin,
        pb.Pin_hals32 remotePin, pb.Pin_halu32 remotePin with
  | Some d, _, _, _ => Some (QVDouble d)
  | None, Some b, _, _ => Some (QVBool b)
  | None, None, Some i, _ => Some (QVInt i)
  | None, None, None, Some u => Some (QVUInt u)
  | None, None, None, None => None
  end.

(** What one pin sub-message of a full update does, once its name has
    resolved to the registered pin [pin]. *)
Definition seedPin (remotePin : pb.Pin) (pin : PinRef) (c : T) : T :=
  let c := modifyPin pin (QHalPin.setHandle (pb.handle remotePin)) c in
  let c := set_m_pinsByHandle (<[pb.handle remotePin := pin]> (m_pinsByHandle c)) c in
  match remoteValue remotePin with
  | Some v => modifyPin pin (QHalPin.setValue v true) c
  | None => c
  end.

(** The pin sub-messages of an envelope, in the order the two nested loops
    of the handler visit them. *)
Definition allPins (rx : pb.Container) : list pb.Pin :=
  flat_map pb.Component_pin (pb.comp rx).

(** The handle-to-pin entries an envelope carries, given the name index. *)
Definition carried (names : gmap string PinRef) (pins : list pb.Pin) : list (Z * PinRef) :=
  omap (fun remotePin => pin ← names !! localName remotePin; Some (pb.handle remotePin, pin))
    pins.

Definition installed (entries : list (Z * PinRef)) (handles : gmap Z PinRef) : gmap Z PinRef :=
  foldl (fun m e => <[e.1 := e.2]> m) handles entries.

(** A session in which the component completes, is made
    ready, has its bind confirmed, and then receives an incremental update
    without pins; no full update is part of it. *)
Definition sessionWithoutFullUpdate : list Event :=
  [ EvComponentComplete None None;
    EvSetReady true None None;
    EvHalrcmdMessage (pb.cleared pb.MT_HALRCOMP_BIND_CONFIRM);
    EvHalrcompMessage "" (Sample.incrementalUpdate []) ].

Definition isFullUpdate (ev : Event) : bool :=
  match ev with
  | EvHalrcompMessage _ rx => bool_decide (pb.type rx = pb.MT_HALRCOMP_FULL_UPDATE)
  | _ => false
  end.




(** The pins [recurseObjects] finds below the container item. *)
Definition enumerated (c : T) : list PinRef :=
  match m_containerItem c with
  | Some children => recurseObjects children
  | None => []
  end.

(** A pin [addPins] does not skip: its name is not empty and it is enabled. *)
Definition eligible (c : T) (pin : PinRef) : bool :=
  negb (String.eqb (QHalPin.name (heap c pin)) "" || negb (QHalPin.enabled (heap c pin))).

Definition eligiblePins (c : T) : list PinRef := List.filter (eligible c) (enumerated c).

Section BindVocabulary.

Context `{QVariantConversions}.

(** The pin sub-message [q] carries exactly the value field of the pin's
    type, converted from the pin's current value. *)
Definition carriesValueOf (pin : QHalPin.t) (q : pb.Pin) : Prop :=
  match QHalPin.type pin with
  | QHalPin.Float =>
      pb.Pin_halfloat q = Some (toDouble (QHalPin.value pin))
      /\ pb.Pin_halbit q = None /\ pb.Pin_hals32 q = None /\ pb.Pin_halu32 q = None
  | QHalPin.Bit =>
      pb.Pin_halbit q = Some (toBool (QHalPin.value pin))
      /\ pb.Pin_halfloat q = None /\ pb.Pin_hals32 q = None /\ pb.Pin_halu32 q = None
  | QHalPin.S32 =>
      pb.Pin_hals32 q = Some (toInt (QHalPin.value pin))
      /\ pb.Pin_halfloat q = None /\ pb.Pin_halbit q = None /\ pb.Pin_halu32 q = None
  | QHalPin.U32 =>
      pb.Pin_halu32 q = Some (toUInt (QHalPin.value pin))
      /\ pb.Pin_halfloat q = None /\ pb.Pin_halbit q = None /\ pb.Pin_hals32 q = None
  end.

(** The pin sub-message [q] of a BIND describes the pin: qualified name,
    type tag, direction tag, value, and no handle. *)
Definition describes (comp : string) (pin : QHalPin.t) (q : pb.Pin) : Prop :=
  pb.Pin_name q = Some (pinName comp (QHalPin.name pin))
  /\ pb.Pin_type q = Some (QHalPin.type pin)
  /\ pb.Pin_dir q = Some (QHalPin.direction pin)
  /\ pb.Pin_handle q = None
  /\ carriesValueOf pin q.

(** A BIND envelope for the component [c]: one component sub-message with
    the component's name and one pin sub-message for each pin of the name
    index, describing it. *)
Definition isBindOf (c : T) (data : pb.Container) : Prop :=
  pb.pin data = []
  /\ exists component,
       pb.comp data = [component]
       /\ pb.Component_name component = Some (m_name c)
       /\ Forall2 (fun pin q => describes (m_name c) (heap c pin) q)
            (registeredPins c) (pb.Component_pin component).

End BindVocabulary.

(** The command heartbeat is running. *)
Definition ticking (c : T) : Prop := isActive (m_halrcmdHeartbeatTimer c) = true.

(** How a slot may change the command heartbeat: the configured period
    stays; the timer runs afterwards only if it ran before or the period is
    positive; and a timer that runs only while [Connected] keeps doing so. *)
Definition heartbeatDiscipline (c c' : T) : Prop :=
  m_heartbeatPeriod c' = m_heartbeatPeriod c
  /\ (ticking c' -> ticking c \/ 0 < m_heartbeatPeriod c)
  /\ ((ticking c -> m_connectionState c = Connected) ->
      ticking c' -> m_connectionState c' = Connected).

Definition isBIND (o : Output) : Prop :=
  exists data, o = HalrcmdSend data /\ pb.type data = pb.MT_HALRCOMP_BIND.

(** What every slot but [setReady] and [componentComplete] leaves alone: the
    two flags of the session, the name index and the pins of the container;
    and it sends no BIND. *)
Definition withinSession (c c' : T) : Prop :=
  m_ready c' = m_ready c
  /\ m_componentCompleted c' = m_componentCompleted c
  /\ m_pinsByName c' = m_pinsByName c
  /\ exists new, trace c' = trace c ++ new /\ Forall (fun o => ~ isBIND o) new.

Definition isHalrcmdHeartbeatTick (ev : Event) : bool :=
  match ev with
  | EvHalrcmdHeartbeatTick _ => true
  | _ => false
  end.

(** The PING envelope both heartbeat slots send. *)
Definition ping : Output := HalrcmdSend (pb.cleared pb.MT_PING).

(** The number of PING envelopes handed to the command socket so far. *)
Definition pingsSent (c : T) : nat :=
  length (List.filter (fun o => match o with
                                | HalrcmdSend data => bool_decide (pb.type data = pb.MT_PING)
                                | _ => false
                                end) (trace c)).

Section SessionVocabulary.

Context `{QVariantConversions}.

(** The envelopes among [new], sent by a slot that leaves the component in
    [c'], open its session: each BIND is the BIND of [c'], and if the
    enabled, named pins of the container have pairwise different names, the
    pins of the name index are exactly those. *)
Definition bindsSession (c' : T) (new : list Output) : Prop :=
  forall data,
    HalrcmdSend data ∈ new -> pb.type data = pb.MT_HALRCOMP_BIND ->
    isBindOf c' data
    /\ (NoDup ((fun pin => QHalPin.name (heap c' pin)) <$> eligiblePins c') ->
        registeredPins c' ≡ₚ eligiblePins c').

End SessionVocabulary.

(** Between sessions the name index is empty: it holds pins only while the
    component is both completed and ready. *)
Definition sessionIdle (c : T) : Prop :=
  m_componentCompleted c && m_ready c = false -> m_pinsByName c = ∅.

(** One step of the loop of [addPins] on the name index alone. *)
Definition register (h : PinRef -> QHalPin.t) (names : gmap string PinRef) (pin : PinRef)
  : gmap string PinRef := <[QHalPin.name (h pin) := pin]> names.

(** The state in which both heartbeat slots report a timeout. *)
Definition timedOut (message : string) (c : T) : T :=
  updateState Error
    (updateError TimeoutError message
       (emit (HalrcompUnsubscribe (m_name (set_m_cState Trying c)))
          (set_m_sState Down (set_m_cState Trying c)))).

(** The pins after [unsyncPins]: those of [registered] lose their synced
    flag, the others are as before. *)
Definition unsynced (registered : list PinRef) (h : PinRef -> QHalPin.t) : PinRef -> QHalPin.t :=
  fun r => if decide (r ∈ registered) then QHalPin.setSynced false (h r) else h r.

(** The pin [p'] is the pin [p] up to its synced flag. *)
Definition uptoSynced (p p' : QHalPin.t) : Prop :=
  QHalPin.setSynced (QHalPin.synced p) p' = p.

(** While the component is [Connected] and the heartbeat period is positive,
    the command heartbeat runs with that period. *)
Definition heartbeatOn (c : T) : Prop :=
  m_connectionState c = Connected -> 0 < m_heartbeatPeriod c ->
  m_halrcmdHeartbeatTimer c = {| isActive := true; interval := m_heartbeatPeriod c |}.

(** The error text of a list of notes: each note followed by a newline. *)
Definition noteLines (l : list string) : string :=
  foldr (fun n text => n +:+ String "010" text) "" l.

(** The object tree below [object] holds the pin at address [pin]: the
    object is that pin, or one of its children holds it. *)
Inductive holds (pin : PinRef) : QObject -> Prop :=
| holds_here children : holds pin (mkQObject (Some pin) children)
| holds_below qhalpin children child :
    child ∈ children -> holds pin child -> holds pin (mkQObject qhalpin children).

(** The connection state of [c'] is that of [c] or one of [states]. *)
Definition among (states : list State) (c c' : T) : Prop :=
  m_connectionState c' = m_connectionState c \/ m_connectionState c' ∈ states.

(** The connection states an event can move the component [c] to. *)
Definition transitions (ev : Event) (c : T) : list State :=
  match ev with
  | EvComponentComplete _ _ => [Connecting; Error]
  | EvSetReady arg _ _ => if arg then [Connecting; Error] else [Disconnected]
  | EvPinWrite _ _ _ => [Error]
  | EvHalrcompMessage _ rx =>
      match pb.type rx with
      | pb.MT_HALRCOMP_INCREMENTAL_UPDATE | pb.MT_HALRCOMP_FULL_UPDATE => [Connected]
      | pb.MT_HALRCOMMAND_ERROR => [Error]
      | _ => []
      end
  | EvHalrcmdMessage rx =>
      match pb.type rx with
      | pb.MT_PING_ACKNOWLEDGE =>
          if decide (m_connectionState c = Error /\ m_error c = TimeoutError) then [Connected]
          else []
      | pb.MT_HALRCOMP_BIND_REJECT | pb.MT_HALRCOMP_SET_REJECT => [Error]
      | _ => []
      end
  | EvHalrcmdHeartbeatTick _ => [Error]
  | EvHalrcompHeartbeatTick _ => [Error]
  | EvPollError _ _ => [Error]
  end.

(** A component that is shut down: not ready, [Disconnected], without
    sockets and context, both heartbeat timers stopped. *)
Definition quiet (c : T) : Prop :=
  m_ready c = false
  /\ m_connectionState c = Disconnected
  /\ m_halrcmdSocket c = None
  /\ m_halrcompSocket c = None
  /\ m_context c = None
  /\ isActive (m_halrcmdHeartbeatTimer c) = false
  /\ isActive (m_halrcompHeartbeatTimer c) = false.

(** The event sets [ready]. *)
Definition readies (ev : Event) : bool :=
  match ev with
  | EvSetReady arg _ _ => arg
  | _ => false
  end.

(** An event that comes from the application, not from a socket, a timer or
    the 0MQ context. *)
Definition isLocal (ev : Event) : bool :=
  match ev with
  | EvComponentComplete _ _ | EvSetReady _ _ _ | EvPinWrite _ _ _ => true
  | _ => false
  end.

(** The subscription heartbeat: its timer and its outstanding flag. *)
Definition sameSubscriptionHeartbeat (c c' : T) : Prop :=
  m_halrcompHeartbeatTimer c' = m_halrcompHeartbeatTimer c
  /\ m_halrcompPingOutstanding c' = m_halrcompPingOutstanding c.

(** The fully qualified name of the data model, [<comp>.<pin>]. *)
Definition qualifiedName (comp pin : string) : string := comp +:+ "." +:+ pin.

(** An incremental update that carries one value, a float for the handle 10. *)
Definition incrementalUpdateWithValue : pb.Container :=
  Sample.incrementalUpdate [Sample.remotePin "comp.x" 10 (Some 2.5%float) None].

(** The sample component under the name [%2]. *)
Definition namedWithPlaceMarker : T :=
  constructed "tcp://h:5001" "tcp://h:5002" "%2" 3000 (Some Sample.container) Sample.pins.

(** The names of the pin sub-messages of an envelope handed to the command
    socket. *)
Definition sentPinNames (o : Output) : list (option string) :=
  match o with
  | HalrcmdSend data => pb.Pin_name <$> (allPins data ++ pb.pin data)
  | _ => []
  end.

(** * Properties *)

(** ** What the state and error updates leave alone *)

Ltac unfold_updates :=
  unfold updateState, updateError, startHalrcmdHeartbeat, stopHalrcmdHeartbeat,
    stopHalrcompHeartbeat, startHalrcompHeartbeat, refreshHalrcompHeartbeat, unsyncPins,
    emit, modifyPin in *.

(** Closed statements about the sample component are settled by running it. *)
Ltac by_evaluation :=
  repeat match goal with |- _ /\ _ => split end; vm_compute; reflexivity.

Ltac split_updates := unfold_updates; repeat case_decide; repeat case_match; simpl in *.

Lemma updateState_connectionState state c : m_connectionState (updateState state c) = state.
Proof. split_updates; congruence. Qed.

Lemma updateState_trace state c : trace (updateState state c) = trace c.
Proof. split_updates; congruence. Qed.

Lemma updateState_error state c :
  m_error (updateState state c) = m_error c
  /\ m_errorString (updateState state c) = m_errorString c.
Proof. split_updates; auto. Qed.

Lemma updateState_substates state c :
  m_sState (updateState state c) = m_sState c /\ m_cState (updateState state c) = m_cState c.
Proof. split_updates; auto. Qed.

Lemma updateState_sockets state c :
  m_halrcmdSocket (updateState state c) = m_halrcmdSocket c
  /\ m_halrcompSocket (updateState state c) = m_halrcompSocket c
  /\ m_context (updateState state c) = m_context c.
Proof. split_updates; auto. Qed.

Lemma updateState_registry state c :
  m_pinsByName (updateState state c) = m_pinsByName c
  /\ m_pinsByHandle (updateState state c) = m_pinsByHandle c
  /\ m_name (updateState state c) = m_name c.
Proof. split_updates; auto. Qed.

(** Only leaving [Connected] touches the pins. *)
Lemma updateState_heap state c :
  m_connectionState c <> Connected -> heap (updateState state c) = heap c.
Proof. intros. split_updates; congruence. Qed.

(** [setSynced] leaves a pin's direction alone, so does [unsyncPins]. *)
Lemma unsync_direction (l : list PinRef) (h : PinRef -> QHalPin.t) (r : PinRef) :
  QHalPin.direction
    (foldl (fun h pin => heap_update pin (QHalPin.setSynced false) h) h l r)
  = QHalPin.direction (h r).
Proof.
  revert h. induction l as [|pin l IH]; intros h; simpl; [reflexivity|].
  rewrite IH. unfold heap_update. case_decide; reflexivity.
Qed.

Lemma updateState_direction state c r :
  QHalPin.direction (heap (updateState state c) r) = QHalPin.direction (heap c r).
Proof. split_updates; auto using unsync_direction. Qed.

Lemma updateState_same state c : m_connectionState c = state -> updateState state c = c.
Proof. intros Hs. unfold updateState. destruct (decide (state <> m_connectionState c)); congruence. Qed.

Lemma updateState_config state c :
  m_heartbeatPeriod (updateState state c) = m_heartbeatPeriod c
  /\ m_containerItem (updateState state c) = m_containerItem c
  /\ m_ready (updateState state c) = m_ready c
  /\ m_componentCompleted (updateState state c) = m_componentCompleted c
  /\ valueChangedConnections (updateState state c) = valueChangedConnections c.
Proof. split_updates; auto 10. Qed.

(** Entering a state other than [Connected] stops both heartbeat timers. *)
Lemma updateState_stops_heartbeats state c :
  state <> Connected -> m_connectionState c <> state ->
  isActive (m_halrcmdHeartbeatTimer (updateState state c)) = false
  /\ isActive (m_halrcompHeartbeatTimer (updateState state c)) = false.
Proof. intros. split_updates; auto; congruence. Qed.

(** Entering [Connected] clears the outstanding command ping. *)
Lemma updateState_Connected_outstanding c :
  m_connectionState c <> Connected ->
  m_halrcmdPingOutstanding (updateState Connected c) = false.
Proof. intros. split_updates; auto; congruence. Qed.

Lemma updateState_heartbeat state c : heartbeatDiscipline c (updateState state c).
Proof. repeat split; unfold ticking; split_updates; auto; try congruence; try lia. Qed.

(** The order apart, the pins of the name index are the values of the map. *)
Lemma registeredPins_values c : registeredPins c ≡ₚ (map_to_list (m_pinsByName c)).*2.
Proof. unfold registeredPins, entries. by rewrite merge_sort_Permutation. Qed.

(** [foreach] visits the entries of the name index in the order of their
    keys. *)
Lemma entries_in_key_order (m : gmap string PinRef) : Sorted keyOrder (entries m).
Proof.
  apply Sorted_merge_sort. intros e1 e2. unfold keyOrder. apply String.leb_total.
Qed.

Lemma registeredPins_empty c : m_pinsByName c = ∅ -> registeredPins c = [].
Proof.
  intros Hn. unfold registeredPins, entries. rewrite Hn, map_to_list_empty. reflexivity.
Qed.

(** With an empty name index there is no pin to unsync. *)
Lemma updateState_heap_unregistered state c :
  m_pinsByName c = ∅ -> heap (updateState state c) = heap c.
Proof.
  intros Hn. pose proof (registeredPins_empty c Hn) as Hr.
  unfold updateState, unsyncPins, startHalrcmdHeartbeat.
  repeat case_decide; simpl; rewrite ?Hr; reflexivity.
Qed.

Lemma updateState_session state c : withinSession c (updateState state c).
Proof.
  destruct (updateState_config state c) as (_ & _ & Hr & Hc & _).
  destruct (updateState_registry state c) as (Hn & _ & _).
  repeat split; try assumption.
  exists []. rewrite updateState_trace, app_nil_r. split; [reflexivity | constructor].
Qed.

Lemma unsync_fold (l : list PinRef) (h : PinRef -> QHalPin.t) (r : PinRef) :
  foldl (fun h pin => heap_update pin (QHalPin.setSynced false) h) h l r = unsynced l h r.
Proof.
  revert h. induction l as [|pin l IH]; intros h; simpl.
  - unfold unsynced. destruct (decide (r ∈ [])) as [Hin|_]; [|reflexivity].
    by apply elem_of_nil in Hin.
  - rewrite IH. unfold unsynced, heap_update.
    destruct (decide (r ∈ l)), (decide (r = pin)), (decide (_ ∈ pin :: l));
      try reflexivity; exfalso; rewrite elem_of_cons in *; tauto.
Qed.

(** Leaving [Connected] runs [unsyncPins] on the pins as they are. *)
Lemma updateState_heap_leaving state c r :
  m_connectionState c = Connected -> state <> Connected ->
  heap (updateState state c) r = unsynced (registeredPins c) (heap c) r.
Proof.
  intros Hs Hne. rewrite <- unsync_fold.
  unfold updateState, unsyncPins, stopHalrcompHeartbeat, stopHalrcmdHeartbeat.
  repeat case_decide; simpl in *; congruence.
Qed.

Lemma unsynced_uptoSynced registered h r : uptoSynced (h r) (unsynced registered h r).
Proof. unfold uptoSynced, unsynced. case_decide; by destruct (h r). Qed.

(** [updateState] changes a pin at most in its synced flag. *)
Lemma updateState_uptoSynced state c r : uptoSynced (heap c r) (heap (updateState state c) r).
Proof.
  destruct (decide (m_connectionState c = Connected)) as [Hs|Hs].
  - destruct (decide (state = Connected)) as [->|Hne].
    + rewrite updateState_same by exact Hs. unfold uptoSynced. by destruct (heap c r).
    + rewrite updateState_heap_leaving by assumption. apply unsynced_uptoSynced.
  - rewrite updateState_heap by exact Hs. unfold uptoSynced. by destruct (heap c r).
Qed.

Lemma updateState_heartbeatOn state c : heartbeatOn c -> heartbeatOn (updateState state c).
Proof.
  unfold heartbeatOn. intros Hc.
  unfold updateState, startHalrcmdHeartbeat, stopHalrcompHeartbeat, stopHalrcmdHeartbeat,
    unsyncPins, QTimer_start, QTimer_setInterval.
  repeat case_decide; simpl in *; intros; try congruence; try lia; auto.
Qed.

(** The subscription heartbeat is not touched by entering [Connected], and
    its outstanding flag by no state change at all. *)
Lemma updateState_subscription_heartbeat state c :
  m_halrcompHeartbeatTimer (updateState Connected c) = m_halrcompHeartbeatTimer c
  /\ m_halrcompPingOutstanding (updateState state c) = m_halrcompPingOutstanding c.
Proof. split; split_updates; auto; congruence. Qed.

Lemma updateState_command_outstanding state c :
  state <> Connected ->
  m_halrcmdPingOutstanding (updateState state c) = m_halrcmdPingOutstanding c.
Proof. intros. split_updates; auto; congruence. Qed.

(** From here on [updateState] is used through the lemmas above. *)
Opaque updateState.

Lemma bind_Some_l {A B : Type} (x : A) (f : A -> option B) : Some x ≫= f = f x.
Proof. reflexivity. Qed.

(** ** Local writes (C2) *)

Section LocalWrites.

Context `{QVariantConversions}.

(** The slot either returns at one of its two guards, changing nothing, or
    passes both and hands one SET envelope to the command socket. *)
Lemma pinChange_cases sender exc c c' :
  pinChange sender exc c = Some c' ->
  (c' = c /\ (m_connectionState c <> Connected
              \/ QHalPin.direction (heap c sender) = QHalPin.In))
  \/ (m_connectionState c = Connected
      /\ QHalPin.direction (heap c sender) <> QHalPin.In
      /\ trace c' = trace c ++ [HalrcmdSend (setMessage c sender)]
      /\ forall r, QHalPin.direction (heap c' r) = QHalPin.direction (heap c r)).
Proof.
  unfold pinChange. intros Hrun.
  destruct (decide (m_connectionState c <> Connected)) as [Hs|Hs].
  { left. split; [congruence | auto]. }
  destruct (decide (QHalPin.direction (heap c sender) = QHalPin.In)) as [Hd|Hd].
  { left. split; [congruence | auto]. }
  right. apply dec_stable in Hs.
  unfold sendHalrcmdMessage in Hrun.
  destruct (m_halrcmdSocket c); simpl in Hrun; [|discriminate].
  destruct exc; inversion Hrun; subst; clear Hrun.
  - rewrite updateState_trace. repeat split; auto.
    intros r. rewrite updateState_direction. reflexivity.
  - repeat split; auto.
Qed.

Lemma pinChange_repeated pin exc (senders : list PinRef) c c' :
  Forall (fun sender => sender = pin) senders ->
  forEach (fun c sender => pinChange sender exc c) senders c = Some c' ->
  exists new, trace c' = trace c ++ new
    /\ forall o, o ∈ new ->
         isSET o /\ m_connectionState c = Connected
         /\ QHalPin.direction (heap c pin) <> QHalPin.In.
Proof.
  intros Hall. revert c. induction Hall as [|sender senders Hs _ IH]; intros c Hrun; simpl in Hrun.
  - inversion Hrun; subst. exists []. split; [by rewrite app_nil_r|].
    intros o Ho. by apply elem_of_nil in Ho.
  - subst sender. destruct (pinChange pin exc c) as [c1|] eqn:Hc1; simpl in Hrun; [|discriminate].
    destruct (IH _ Hrun) as (new & Htr & Hnew).
    destruct (pinChange_cases _ _ _ _ Hc1) as [[-> _] | (Hconn & Hdir & Htr1 & Hsame)].
    + exists new. auto.
    + exists (HalrcmdSend (setMessage c pin) :: new). split.
      * rewrite Htr, Htr1, <- app_assoc. reflexivity.
      * intros o Ho. apply elem_of_cons in Ho as [-> | Ho].
        -- split; [|auto]. eexists. split; reflexivity.
        -- destruct (Hnew o Ho) as (Hset & _ & _). auto.
Qed.

(** C2.  Whatever a local pin write puts on the transport is a SET
    envelope, and it does so only if the component was [Connected] when the
    write happened and the written pin is not an [In] pin. *)
Theorem pinWrite_SET_only_when_Connected_and_not_In pin v exc c c' :
  pinWrite pin v exc c = Some c' ->
  exists new, trace c' = trace c ++ new
    /\ forall o, o ∈ new ->
         isSET o /\ m_connectionState c = Connected
         /\ QHalPin.direction (heap c pin) <> QHalPin.In.
Proof.
  unfold pinWrite. intros Hrun.
  apply pinChange_repeated with (pin := pin) in Hrun.
  - destruct Hrun as (new & Htr & Hnew). exists new. split; [exact Htr|].
    intros o Ho. destruct (Hnew o Ho) as (Hset & Hconn & Hdir).
    split; [exact Hset|]. split; [exact Hconn|].
    simpl in Hdir. unfold heap_update in Hdir.
    destruct (decide (pin = pin)); [exact Hdir | congruence].
  - apply Forall_forall. intros sender Hin.
    apply list_elem_of_filter in Hin. tauto.
Qed.

End LocalWrites.

(** ** Acknowledged pings (C5) *)

Section CommandSocket.

Context `{QVariantConversions}.

(** C5.  A PING_ACK that finds the component in [Error] with
    [TimeoutError] clears the error, makes it [Connected] and subscribes
    again to the component's topic; in every other situation it clears the
    outstanding-ping flag and leaves the connection state alone. *)
Theorem ping_acknowledge_recovers_only_from_timeout rx c s :
  pb.type rx = pb.MT_PING_ACKNOWLEDGE ->
  m_halrcompSocket c = Some s ->
  exists c', halrcmdMessageReceived rx c = Some c'
    /\ m_halrcmdPingOutstanding c' = false
    /\ if decide (m_connectionState c = Error /\ m_error c = TimeoutError) then
         m_error c' = NoError /\ m_errorString c' = ""
         /\ m_connectionState c' = Connected
         /\ m_sState c' = Trying
         /\ trace c' = trace c ++ [HalrcompSubscribe (m_name c)]
       else
         m_connectionState c' = m_connectionState c
         /\ m_error c' = m_error c /\ m_errorString c' = m_errorString c
         /\ trace c' = trace c.
Proof.
  intros Hty Hsock. unfold halrcmdMessageReceived. rewrite Hty.
  cbv beta zeta.
  change (m_connectionState (set_m_halrcmdPingOutstanding false (set_m_cState Up c)))
    with (m_connectionState c).
  change (m_error (set_m_halrcmdPingOutstanding false (set_m_cState Up c))) with (m_error c).
  destruct (decide (m_connectionState c = Error /\ m_error c = TimeoutError)) as [[Hs He]|Hn].
  - generalize (eq_refl (updateError NoError ""
                           (set_m_halrcmdPingOutstanding false (set_m_cState Up c)))).
    generalize (updateError NoError ""
                  (set_m_halrcmdPingOutstanding false (set_m_cState Up c))) at 2 3.
    intros c1 Hc1.
    assert (Hstate : m_connectionState c1 <> Connected) by (subst c1; simpl; congruence).
    pose proof (updateState_Connected_outstanding c1 Hstate) as Hout.
    pose proof (updateState_connectionState Connected c1) as Hconn.
    pose proof (updateState_trace Connected c1) as Htr.
    destruct (updateState_error Connected c1) as [Herr Hstr].
    destruct (updateState_sockets Connected c1) as (_ & Hcomp & _).
    destruct (updateState_registry Connected c1) as (_ & _ & Hname).
    revert Hout Hconn Htr Herr Hstr Hcomp Hname.
    generalize (updateState Connected c1). intros c2 Hout Hconn Htr Herr Hstr Hcomp Hname.
    unfold subscribe.
    change (m_halrcompSocket (set_m_sState Trying c2)) with (m_halrcompSocket c2).
    rewrite Hcomp. subst c1. simpl in Hcomp, Htr, Herr, Hstr, Hname.
    change (m_halrcompSocket (updateError NoError ""
              (set_m_halrcmdPingOutstanding false (set_m_cState Up c))))
      with (m_halrcompSocket c).
    rewrite Hsock, bind_Some_l. eexists. split; [reflexivity|].
    simpl. rewrite Hout, Hconn, Htr, Herr, Hstr, Hname. auto 10.
  - eexists. split; [reflexivity|]. simpl. auto.
Qed.

End CommandSocket.

(** ** Updates of the subscription socket *)

Section Updates.

Context `{QVariantConversions}.

Lemma pinUpdate_remoteValue remotePin localPin c :
  pinUpdate remotePin localPin c =
    match remoteValue remotePin with
    | Some v => pin ← localPin; Some (modifyPin pin (QHalPin.setValue v true) c)
    | None => Some c
    end.
Proof.
  unfold pinUpdate, remoteValue.
  destruct (pb.Pin_halfloat remotePin), (pb.Pin_halbit remotePin),
    (pb.Pin_hals32 remotePin), (pb.Pin_halu32 remotePin); reflexivity.
Qed.

Lemma pinUpdate_heap_only remotePin localPin c c' :
  pinUpdate remotePin localPin c = Some c' -> exists h, c' = set_heap h c.
Proof.
  rewrite pinUpdate_remoteValue. intros Hrun.
  destruct (remoteValue remotePin); [destruct localPin; simpl in Hrun|].
  - inversion Hrun. eexists. reflexivity.
  - discriminate.
  - inversion Hrun; subst. exists (heap c'). by destruct c'.
Qed.

Lemma incrementalUpdate_heap_only (pins : list pb.Pin) c c' :
  forEach incrementalUpdatePin pins c = Some c' -> exists h, c' = set_heap h c.
Proof.
  revert c. induction pins as [|remotePin pins IH]; intros c Hrun; simpl in Hrun.
  - inversion Hrun; subst. exists (heap c'). by destruct c'.
  - destruct (incrementalUpdatePin c remotePin) as [c1|] eqn:Hc1; simpl in Hrun; [|discriminate].
    apply pinUpdate_heap_only in Hc1 as [h1 ->].
    apply IH in Hrun as [h ->]. exists h. reflexivity.
Qed.

Lemma subscriptionUp_enters_Connected c :
  m_sState c <> Up ->
  m_connectionState (subscriptionUp c) = Connected
  /\ m_error (subscriptionUp c) = NoError
  /\ m_errorString (subscriptionUp c) = ""
  /\ m_sState (subscriptionUp c) = Up.
Proof.
  intros Hs. unfold subscriptionUp. destruct (decide (m_sState c <> Up)); [|tauto].
  rewrite updateState_connectionState.
  destruct (updateState_error Connected (updateError NoError "" (set_m_sState Up c))) as [-> ->].
  destruct (updateState_substates Connected
              (updateError NoError "" (set_m_sState Up c))) as [-> _].
  auto.
Qed.

Lemma refreshHalrcompHeartbeat_frame c :
  m_connectionState (refreshHalrcompHeartbeat c) = m_connectionState c
  /\ m_error (refreshHalrcompHeartbeat c) = m_error c
  /\ m_errorString (refreshHalrcompHeartbeat c) = m_errorString c
  /\ m_sState (refreshHalrcompHeartbeat c) = m_sState c
  /\ m_pinsByHandle (refreshHalrcompHeartbeat c) = m_pinsByHandle c
  /\ heap (refreshHalrcompHeartbeat c) = heap c.
Proof. unfold refreshHalrcompHeartbeat. case_match; auto 10. Qed.

(** An incremental update that is processed to its end while the
    subscription sub-state is not [Up] clears the error and makes the
    component [Connected]; and there is a session of the sample component
    that ends [Connected] without any full update in it, with an empty
    handle index: its incremental update carries no pin. *)
Theorem incremental_update_enters_Connected :
  (forall topic rx c c',
      pb.type rx = pb.MT_HALRCOMP_INCREMENTAL_UPDATE ->
      m_sState c <> Up ->
      halrcompMessageReceived topic rx c = Some c' ->
      m_connectionState c' = Connected /\ m_error c' = NoError /\ m_errorString c' = ""
      /\ m_sState c' = Up)
  /\ (exists c',
        run sessionWithoutFullUpdate Sample.comp0 = Some c'
        /\ existsb isFullUpdate sessionWithoutFullUpdate = false
        /\ m_connectionState c' = Connected
        /\ m_pinsByHandle c' = ∅).
Proof.
  split.
  - intros topic rx c c' Hty Hs. unfold halrcompMessageReceived. rewrite Hty.
    destruct (forEach incrementalUpdatePin (pb.pin rx) c) as [c1|] eqn:Hc1; simpl; [|discriminate].
    intros [= <-]. apply incrementalUpdate_heap_only in Hc1 as [h ->].
    destruct (refreshHalrcompHeartbeat_frame (subscriptionUp (set_heap h c)))
      as (-> & -> & -> & -> & _).
    apply subscriptionUp_enters_Connected. exact Hs.
  - eexists. by_evaluation.
Qed.

End Updates.

(** ** Full updates (C3, C7) *)

Section FullUpdate.

Context `{QVariantConversions}.

Lemma fullUpdatePin_seedPin c remotePin c' :
  fullUpdatePin c remotePin = Some c' ->
  exists pin, m_pinsByName c !! localName remotePin = Some pin /\ c' = seedPin remotePin pin c.
Proof.
  unfold fullUpdatePin, seedPin.
  destruct (m_pinsByName c !! localName remotePin) as [pin|]; simpl; [|discriminate].
  rewrite pinUpdate_remoteValue. intros Hrun. exists pin. split; [reflexivity|].
  destruct (remoteValue remotePin); simpl in Hrun; congruence.
Qed.

Lemma seedPin_names remotePin pin c : m_pinsByName (seedPin remotePin pin c) = m_pinsByName c.
Proof. unfold seedPin. destruct (remoteValue remotePin); reflexivity. Qed.

Lemma seedPin_handles remotePin pin c :
  m_pinsByHandle (seedPin remotePin pin c) = <[pb.handle remotePin := pin]> (m_pinsByHandle c).
Proof. unfold seedPin. destruct (remoteValue remotePin); reflexivity. Qed.



(** Entering [Connected] never unsyncs: the state before is another one,
    or nothing happens. *)
Lemma updateState_Connected_heap c : heap (updateState Connected c) = heap c.
Proof.
  destruct (decide (m_connectionState c = Connected)) as [Hs|Hs].
  - by rewrite updateState_same.
  - apply updateState_heap. exact Hs.
Qed.

Lemma subscriptionUp_frame c :
  m_pinsByName (subscriptionUp c) = m_pinsByName c
  /\ m_pinsByHandle (subscriptionUp c) = m_pinsByHandle c
  /\ heap (subscriptionUp c) = heap c.
Proof.
  unfold subscriptionUp. case_decide; [|auto].
  rewrite updateState_Connected_heap.
  destruct (updateState_registry Connected
              (updateError NoError "" (set_m_sState Up c))) as (-> & -> & _).
  auto.
Qed.

Lemma startHalrcompHeartbeat_frame interval c :
  m_pinsByName (startHalrcompHeartbeat interval c) = m_pinsByName c
  /\ m_pinsByHandle (startHalrcompHeartbeat interval c) = m_pinsByHandle c
  /\ heap (startHalrcompHeartbeat interval c) = heap c.
Proof. unfold startHalrcompHeartbeat. case_decide; auto. Qed.

Lemma installed_app es1 es2 handles :
  installed (es1 ++ es2) handles = installed es2 (installed es1 handles).
Proof. unfold installed. apply foldl_app. Qed.

Lemma carried_app names ps1 ps2 :
  carried names (ps1 ++ ps2) = carried names ps1 ++ carried names ps2.
Proof. unfold carried. apply omap_app. Qed.

Lemma installed_lookup_other entries handles h :
  h ∉ entries.*1 -> installed entries handles !! h = handles !! h.
Proof.
  revert handles. induction entries as [|[h' pin] entries IH]; intros handles Hh; simpl.
  - reflexivity.
  - rewrite fmap_cons, not_elem_of_cons in Hh. destruct Hh as [Hne Hh].
    rewrite IH by exact Hh. simpl in *. by rewrite lookup_insert_ne.
Qed.

Lemma carried_handles names pins h :
  h ∉ map pb.handle pins -> h ∉ (carried names pins).*1.
Proof.
  induction pins as [|remotePin pins IH]; simpl; intros Hh.
  - apply not_elem_of_nil.
  - apply not_elem_of_cons in Hh as [Hne Hh]. unfold carried. simpl.
    destruct (names !! localName remotePin) as [pin|]; simpl.
    + apply not_elem_of_cons. split; [exact Hne | by apply IH].
    + by apply IH.
Qed.

Lemma fullUpdate_pins_index (pins : list pb.Pin) c c' :
  forEach fullUpdatePin pins c = Some c' ->
  m_pinsByName c' = m_pinsByName c
  /\ m_pinsByHandle c' = installed (carried (m_pinsByName c) pins) (m_pinsByHandle c).
Proof.
  revert c. induction pins as [|remotePin pins IH]; intros c Hrun; simpl in Hrun.
  - inversion Hrun; subst. auto.
  - destruct (fullUpdatePin c remotePin) as [c1|] eqn:Hc1; simpl in Hrun; [|discriminate].
    apply fullUpdatePin_seedPin in Hc1 as (pin & Hpin & ->).
    apply IH in Hrun as [Hn Hh]. rewrite seedPin_names in Hn, Hh.
    rewrite seedPin_handles in Hh. split; [exact Hn|].
    rewrite Hh. unfold carried at 2. simpl. rewrite Hpin. reflexivity.
Qed.

Lemma fullUpdate_components_index (comps : list pb.Component) c c' :
  forEach fullUpdateComponent comps c = Some c' ->
  m_pinsByName c' = m_pinsByName c
  /\ m_pinsByHandle c' =
       installed (carried (m_pinsByName c) (flat_map pb.Component_pin comps)) (m_pinsByHandle c).
Proof.
  revert c. induction comps as [|comp comps IH]; intros c Hrun; simpl in Hrun.
  - inversion Hrun; subst. auto.
  - destruct (fullUpdateComponent c comp) as [c2|] eqn:Hc2; simpl in Hrun; [|discriminate].
    unfold fullUpdateComponent in Hc2.
    destruct (forEach fullUpdatePin (pb.Component_pin comp) c) as [c1|] eqn:Hc1;
      simpl in Hc2; [|discriminate].
    injection Hc2 as <-.
    apply fullUpdate_pins_index in Hc1 as [Hn1 Hh1].
    apply IH in Hrun as [Hn Hh].
    destruct (subscriptionUp_frame c1) as (Hsn & Hsh & _).
    rewrite Hsn, Hn1 in Hn, Hh. rewrite Hsh, Hh1 in Hh.
    split; [exact Hn|]. simpl. rewrite carried_app, installed_app. exact Hh.
Qed.

(** C7, as the code has it.  A full update merges into the handle index:
    afterwards the index is the one from before with the entries of the
    envelope inserted in order, so an entry whose handle the envelope does
    not carry is still there. *)
Theorem full_update_merges_into_handle_index topic rx c c' :
  pb.type rx = pb.MT_HALRCOMP_FULL_UPDATE ->
  halrcompMessageReceived topic rx c = Some c' ->
  m_pinsByHandle c' = installed (carried (m_pinsByName c) (allPins rx)) (m_pinsByHandle c)
  /\ forall h, h ∉ map pb.handle (allPins rx) -> m_pinsByHandle c' !! h = m_pinsByHandle c !! h.
Proof.
  intros Hty. unfold halrcompMessageReceived. rewrite Hty.
  destruct (forEach fullUpdateComponent (pb.comp rx) c) as [c1|] eqn:Hc1; simpl; [|discriminate].
  intros [= <-]. apply fullUpdate_components_index in Hc1 as [_ Hh].
  assert (Hidx : m_pinsByHandle
                   match pb.pparams rx with
                   | Some pparams => startHalrcompHeartbeat (pb.keepalive_timer pparams) c1
                   | None => c1
                   end = m_pinsByHandle c1).
  { destruct (pb.pparams rx); [apply startHalrcompHeartbeat_frame | reflexivity]. }
  rewrite Hidx, Hh. split; [reflexivity|].
  intros h Hnot. apply installed_lookup_other, carried_handles, Hnot.
Qed.

End FullUpdate.

(** ** Names on the wire *)

Lemma indexOf_lower_bound s a : -1 <= indexOf s a.
Proof.
  induction s as [|b s IH]; simpl; [lia|].
  destruct (Ascii.eqb b a); [lia|]. destruct (indexOf s a =? -1) eqn:E; lia.
Qed.

Lemma indexOf_first s t a :
  indexOf s a = -1 -> indexOf (s +:+ String a t) a = Z.of_nat (String.length s).
Proof.
  induction s as [|b s IH]; simpl; intros Hs.
  - by rewrite Ascii.eqb_refl.
  - destruct (Ascii.eqb b a); [discriminate|].
    pose proof (indexOf_lower_bound s a).
    destruct (indexOf s a =? -1) eqn:E; [|lia].
    apply Z.eqb_eq in E. rewrite (IH E).
    destruct (Z.of_nat (String.length s) =? -1) eqn:E'; lia.
Qed.

Lemma mid_after s t a : mid (s +:+ String a t) (S (String.length s)) = t.
Proof. induction s as [|b s IH]; simpl; [by destruct t | exact IH]. Qed.

(** Stripping the text up to the first dot of [<comp>.<p>] gives [p] when
    the component name has no dot of its own. *)
Lemma localName_qualifiedName remotePin comp p :
  pb.Pin_name remotePin = Some (qualifiedName comp p) ->
  indexOf comp "." = -1 ->
  localName remotePin = p.
Proof.
  intros Hname Hdot. unfold localName, pb.name. rewrite Hname. simpl.
  change (qualifiedName comp p) with (comp +:+ String "." p).
  rewrite (indexOf_first comp p "." Hdot).
  destruct (decide (Z.of_nat (String.length comp) <> -1)); [|lia].
  replace (Z.to_nat (Z.of_nat (String.length comp) + 1)) with (S (String.length comp)) by lia.
  apply mid_after.
Qed.

(** ** Seeding a pin from a full update (C3) *)

Section Seeding.

Context `{QVariantConversions}.








End Seeding.

(** ** Updates on concrete envelopes *)


(** C7, as stated, fails: after a second full update that carries the
    handles 20 and 21 only, the handle index still maps the handles 10 and 11
    of the first one. *)
Lemma full_update_keeps_stale_handles :
  map pb.handle (allPins Sample.renumbered) = [20; 21]
  /\ m_pinsByHandle Sample.connected !! 10 = Some 0%nat
  /\ (fun c' => (m_pinsByHandle c' !! 10, m_pinsByHandle c' !! 11, m_pinsByHandle c' !! 20,
                  m_pinsByHandle c' !! 21))
       <$> halrcompMessageReceived "comp" Sample.renumbered Sample.connected
     = Some (Some 0%nat, Some 1%nat, Some 0%nat, Some 1%nat).
Proof. by_evaluation. Qed.

(** A pin sub-message of an incremental update whose handle is in the handle
    index has its value applied, with synced set. *)
Lemma incremental_update_known_handle remotePin pin v c :
  m_pinsByHandle c !! pb.handle remotePin = Some pin ->
  remoteValue remotePin = Some v ->
  exists c', incrementalUpdatePin c remotePin = Some c'
    /\ QHalPin.value (heap c' pin) = v /\ QHalPin.synced (heap c' pin) = true
    /\ m_connectionState c' = m_connectionState c.
Proof.
  intros Hidx Hv. unfold incrementalUpdatePin.
  rewrite pinUpdate_remoteValue, Hv, Hidx, bind_Some_l.
  eexists. split; [reflexivity|]. simpl. unfold heap_update.
  destruct (decide (pin = pin)); [auto | congruence].
Qed.

(** An incremental update with a pin sub-message that carries a value and
    whose handle is not in the handle index is not processed to the end:
    [pinUpdate] calls [setValue] through the null pointer the lookup
    returned. *)
Lemma incremental_update_unknown_handle (pins : list pb.Pin) remotePin c :
  remotePin ∈ pins ->
  m_pinsByHandle c !! pb.handle remotePin = None ->
  is_Some (remoteValue remotePin) ->
  forEach incrementalUpdatePin pins c = None.
Proof.
  intros Hin Hidx [v Hv]. revert c Hidx.
  induction pins as [|q pins IH]; intros c Hidx; [by apply elem_of_nil in Hin|].
  simpl. destruct (incrementalUpdatePin c q) as [c1|] eqn:Hc1; simpl; [|reflexivity].
  apply elem_of_cons in Hin as [<- | Hin].
  - unfold incrementalUpdatePin in Hc1.
    rewrite pinUpdate_remoteValue, Hv, Hidx in Hc1. discriminate.
  - apply IH; [exact Hin|].
    apply pinUpdate_heap_only in Hc1 as [h ->]. exact Hidx.
Qed.

(** C8 on the connected sample component: the handle 99 is not in the handle
    index, and the handler does not return from the envelope that carries it
    after a pin it knows. *)
Lemma incremental_update_unknown_handle_null_dereference :
  m_connectionState Sample.connected = Connected
  /\ m_pinsByHandle Sample.connected !! 10 = Some 0%nat
  /\ m_pinsByHandle Sample.connected !! 99 = None
  /\ halrcompMessageReceived "comp" Sample.unknownHandle Sample.connected = None.
Proof. by_evaluation. Qed.

(** Before the first full update the handle index is empty, and the handler
    returns from no incremental update that carries a value. *)
Lemma incremental_update_without_handles topic rx c remotePin :
  pb.type rx = pb.MT_HALRCOMP_INCREMENTAL_UPDATE ->
  m_pinsByHandle c = ∅ ->
  remotePin ∈ pb.pin rx ->
  is_Some (remoteValue remotePin) ->
  halrcompMessageReceived topic rx c = None.
Proof.
  intros Hty Hempty Hin Hv. unfold halrcompMessageReceived. rewrite Hty.
  rewrite (incremental_update_unknown_handle (pb.pin rx) remotePin c Hin); [reflexivity | | exact Hv].
  rewrite Hempty. apply lookup_empty.
Qed.

(** C10 on the sample component, bound and subscribed, before any full
    update: the subscription sub-state is [Trying], the component is
    [Connecting] and no handle is assigned.  The handler does not return from
    an incremental update that carries the value 2.5 for the handle 10: the
    block that would clear the error and enter [Connected] is not reached,
    and the event loop has no next state. *)
Lemma first_incremental_update_with_value_null_dereference :
  (fun c => (m_sState c, m_connectionState c, m_pinsByHandle c))
    <$> @run Sample.conversions (take 3 Sample.s1) Sample.comp0
  = Some (Trying, Connecting, ∅)
  /\ halrcompMessageReceived "comp" incrementalUpdateWithValue Sample.subscribed = None
  /\ @run Sample.conversions
       (take 3 Sample.s1 ++ [EvHalrcompMessage "comp" incrementalUpdateWithValue])
       Sample.comp0 = None.
Proof. by_evaluation. Qed.

(** ** The name index after [addPins] *)

Lemma addPin_frame c pin :
  heap (addPin c pin) = heap c /\ trace (addPin c pin) = trace c
  /\ m_name (addPin c pin) = m_name c
  /\ m_halrcmdSocket (addPin c pin) = m_halrcmdSocket c
  /\ m_connectionState (addPin c pin) = m_connectionState c
  /\ m_containerItem (addPin c pin) = m_containerItem c
  /\ m_pinsByName (addPin c pin)
     = if eligible c pin then register (heap c) (m_pinsByName c) pin else m_pinsByName c.
Proof.
  unfold addPin, eligible.
  destruct (String.eqb (QHalPin.name (heap c pin)) "" || negb (QHalPin.enabled (heap c pin)));
    simpl; auto 10.
Qed.

Lemma addPins_fold (pins : list PinRef) c :
  heap (foldl addPin c pins) = heap c /\ trace (foldl addPin c pins) = trace c
  /\ m_name (foldl addPin c pins) = m_name c
  /\ m_halrcmdSocket (foldl addPin c pins) = m_halrcmdSocket c
  /\ m_connectionState (foldl addPin c pins) = m_connectionState c
  /\ m_containerItem (foldl addPin c pins) = m_containerItem c
  /\ m_pinsByName (foldl addPin c pins)
     = foldl (register (heap c)) (m_pinsByName c) (List.filter (eligible c) pins).
Proof.
  revert c. induction pins as [|pin pins IH]; intros c; simpl; [auto 10|].
  destruct (IH (addPin c pin)) as (-> & -> & -> & -> & -> & -> & ->).
  destruct (addPin_frame c pin) as (Hh & -> & -> & -> & -> & -> & ->).
  repeat split.
  - exact Hh.
  - rewrite Hh. replace (eligible (addPin c pin)) with (eligible c).
    + destruct (eligible c pin); reflexivity.
    + unfold eligible. by rewrite Hh.
Qed.

Lemma addPins_frame c :
  heap (addPins c) = heap c /\ trace (addPins c) = trace c /\ m_name (addPins c) = m_name c
  /\ m_halrcmdSocket (addPins c) = m_halrcmdSocket c
  /\ m_connectionState (addPins c) = m_connectionState c
  /\ m_containerItem (addPins c) = m_containerItem c
  /\ m_pinsByName (addPins c) = foldl (register (heap c)) (m_pinsByName c) (eligiblePins c).
Proof.
  unfold addPins, eligiblePins, enumerated.
  destruct (m_containerItem c) as [children|] eqn:E; [|simpl; auto 10].
  destruct (addPins_fold (recurseObjects children) c) as (? & ? & ? & ? & ? & ? & ?).
  repeat split; congruence.
Qed.

(** With pairwise different names, registering pins one after the other
    yields the map of the (name, pin) pairs. *)
Lemma register_list_to_map (h : PinRef -> QHalPin.t) (pins : list PinRef)
    (names : gmap string PinRef) :
  NoDup ((fun pin => QHalPin.name (h pin)) <$> pins) ->
  foldl (register h) names pins
  = list_to_map ((fun pin => (QHalPin.name (h pin), pin)) <$> pins) ∪ names.
Proof.
  revert names. induction pins as [|pin pins IH]; intros names Hnd.
  - simpl. by rewrite (left_id_L ∅ (∪)).
  - rewrite fmap_cons in Hnd. apply NoDup_cons in Hnd as [Hnotin Hnd].
    simpl. rewrite (IH _ Hnd). unfold register.
    rewrite <- insert_union_l. symmetry. apply insert_union_r.
    apply not_elem_of_list_to_map_1. rewrite <- list_fmap_compose. exact Hnotin.
Qed.

Lemma registered_eligible (h : PinRef -> QHalPin.t) (pins : list PinRef) :
  NoDup ((fun pin => QHalPin.name (h pin)) <$> pins) ->
  (map_to_list (foldl (register h) ∅ pins)).*2 ≡ₚ pins.
Proof.
  intros Hnd. rewrite (register_list_to_map h pins ∅ Hnd), (right_id_L ∅ (∪)).
  rewrite map_to_list_to_map.
  - rewrite <- list_fmap_compose. simpl. by rewrite list_fmap_id.
  - rewrite <- list_fmap_compose. exact Hnd.
Qed.

(** ** Relations between the state before and after a slot *)

Section Frames.

Variable R : T -> T -> Prop.
Hypothesis R_refl : forall c, R c c.
Hypothesis R_trans : forall c1 c2 c3, R c1 c2 -> R c2 c3 -> R c1 c3.

Lemma forEach_frame {A : Type} (body : T -> A -> option T) (l : list A) :
  (forall c x c', body c x = Some c' -> R c c') ->
  forall c c', forEach body l c = Some c' -> R c c'.
Proof.
  intros Hbody. induction l as [|x l IH]; intros c c' Hrun; simpl in Hrun.
  - injection Hrun as <-. apply R_refl.
  - destruct (body c x) as [c1|] eqn:Hc1; simpl in Hrun; [|discriminate].
    eapply R_trans; [eapply Hbody, Hc1 | apply IH, Hrun].
Qed.

End Frames.

Create HintDb frame.

(** A setter that writes none of the fields a relation reads does not show
    in it. *)
Ltac is_setter f :=
  lazymatch f with
  | set_m_sState => idtac | set_m_cState => idtac | set_m_connectionState => idtac
  | set_m_error => idtac | set_m_errorString => idtac | set_m_ready => idtac
  | set_m_componentCompleted => idtac | set_m_context => idtac
  | set_m_halrcompSocket => idtac | set_m_halrcmdSocket => idtac
  | set_m_halrcmdHeartbeatTimer => idtac | set_m_halrcompHeartbeatTimer => idtac
  | set_m_halrcmdPingOutstanding => idtac | set_m_halrcompPingOutstanding => idtac
  | set_m_pinsByName => idtac | set_m_pinsByHandle => idtac | set_heap => idtac
  | set_valueChangedConnections => idtac | set_trace => idtac
  end.

Ltac skip_setter :=
  match goal with
  | |- ?R ?c0 (?set ?v ?c) => is_setter set; change (R c0 c)
  end.

#[local] Hint Extern 5 (heartbeatDiscipline _ (_ _ _)) => skip_setter : frame.
#[local] Hint Extern 5 (withinSession _ (_ _ _)) => skip_setter : frame.

Lemma heartbeatDiscipline_refl c : heartbeatDiscipline c c.
Proof. repeat split; auto. Qed.

Lemma heartbeatDiscipline_trans c1 c2 c3 :
  heartbeatDiscipline c1 c2 -> heartbeatDiscipline c2 c3 -> heartbeatDiscipline c1 c3.
Proof.
  intros (Hp1 & Hs1 & Hc1) (Hp2 & Hs2 & Hc2). repeat split.
  - congruence.
  - intros Ht. destruct (Hs2 Ht) as [Ht2|Hpos]; [auto | right; congruence].
  - auto.
Qed.

Lemma withinSession_refl c : withinSession c c.
Proof. repeat split; auto. exists []. split; [by rewrite app_nil_r | constructor]. Qed.

Lemma withinSession_trans c1 c2 c3 :
  withinSession c1 c2 -> withinSession c2 c3 -> withinSession c1 c3.
Proof.
  intros (Hr1 & Hc1 & Hn1 & new1 & Ht1 & Hb1) (Hr2 & Hc2 & Hn2 & new2 & Ht2 & Hb2).
  repeat split; try congruence.
  exists (new1 ++ new2). split.
  - rewrite Ht2, Ht1, app_assoc. reflexivity.
  - apply Forall_app. auto.
Qed.

#[local] Hint Resolve heartbeatDiscipline_refl withinSession_refl : frame.

Lemma hd_updateState state c0 c :
  heartbeatDiscipline c0 c -> heartbeatDiscipline c0 (updateState state c).
Proof.
  intros Hc. eapply heartbeatDiscipline_trans; [exact Hc | apply updateState_heartbeat].
Qed.

Lemma hd_updateError error errorString c0 c :
  heartbeatDiscipline c0 c -> heartbeatDiscipline c0 (updateError error errorString c).
Proof. intros Hc. exact Hc. Qed.

Lemma hd_emit o c0 c : heartbeatDiscipline c0 c -> heartbeatDiscipline c0 (emit o c).
Proof. intros Hc. exact Hc. Qed.

Lemma hd_modifyPin pin f c0 c :
  heartbeatDiscipline c0 c -> heartbeatDiscipline c0 (modifyPin pin f c).
Proof. intros Hc. exact Hc. Qed.

Lemma hd_startHalrcompHeartbeat interval c0 c :
  heartbeatDiscipline c0 c -> heartbeatDiscipline c0 (startHalrcompHeartbeat interval c).
Proof. intros Hc. unfold startHalrcompHeartbeat. case_decide; exact Hc. Qed.

Lemma hd_refreshHalrcompHeartbeat c0 c :
  heartbeatDiscipline c0 c -> heartbeatDiscipline c0 (refreshHalrcompHeartbeat c).
Proof. intros Hc. unfold refreshHalrcompHeartbeat. case_match; exact Hc. Qed.

Lemma hd_stopHalrcompHeartbeat c0 c :
  heartbeatDiscipline c0 c -> heartbeatDiscipline c0 (stopHalrcompHeartbeat c).
Proof. intros Hc. exact Hc. Qed.

Lemma hd_stopHalrcmdHeartbeat c0 c :
  heartbeatDiscipline c0 c -> heartbeatDiscipline c0 (stopHalrcmdHeartbeat c).
Proof.
  intros Hc. eapply heartbeatDiscipline_trans; [exact Hc|].
  repeat split; unfold ticking; simpl; auto; discriminate.
Qed.

Lemma hd_disconnectSockets c0 c :
  heartbeatDiscipline c0 c -> heartbeatDiscipline c0 (disconnectSockets c).
Proof. intros Hc. unfold disconnectSockets. repeat case_match; exact Hc. Qed.

Lemma hd_removePins c0 c : heartbeatDiscipline c0 c -> heartbeatDiscipline c0 (removePins c).
Proof. intros Hc. exact Hc. Qed.

Lemma hd_addPins c0 c : heartbeatDiscipline c0 c -> heartbeatDiscipline c0 (addPins c).
Proof.
  intros Hc. eapply heartbeatDiscipline_trans; [exact Hc|]. clear.
  unfold addPins. destruct (m_containerItem c) as [children|]; [|apply heartbeatDiscipline_refl].
  generalize (recurseObjects children). intros pins. revert c.
  induction pins as [|pin pins IH]; intros c; simpl; [apply heartbeatDiscipline_refl|].
  eapply heartbeatDiscipline_trans; [|apply IH].
  unfold addPin. case_match; exact (heartbeatDiscipline_refl c).
Qed.

Lemma hd_subscriptionUp c0 c :
  heartbeatDiscipline c0 c -> heartbeatDiscipline c0 (subscriptionUp c).
Proof. intros Hc. unfold subscriptionUp. case_decide; [apply hd_updateState|]; exact Hc. Qed.

#[local] Hint Resolve hd_updateState hd_updateError hd_emit hd_modifyPin
  hd_startHalrcompHeartbeat hd_refreshHalrcompHeartbeat hd_stopHalrcompHeartbeat
  hd_stopHalrcmdHeartbeat hd_disconnectSockets hd_removePins hd_addPins
  hd_subscriptionUp : frame.

(** Case analysis on the result of a slot that may fail. *)
Ltac slot_cases :=
  repeat match goal with
    | H : Some _ = Some _ |- _ => injection H as <-
    | H : None = Some _ |- _ => discriminate H
    | H : (_, _) = (_, _) |- _ => injection H as <- <-
    | H : mbind _ ?x = Some _ |- _ => destruct x eqn:?; cbn [mbind option_bind] in H
    | H : (if ?b then _ else _) = Some _ |- _ => destruct b eqn:?
    | H : match ?x with _ => _ end = Some _ |- _ => destruct x eqn:?
    end.

Section HeartbeatDiscipline.

Context `{QVariantConversions}.

Lemma hd_sendHalrcmdMessage data exc c0 c c' :
  sendHalrcmdMessage data exc c = Some c' ->
  heartbeatDiscipline c0 c -> heartbeatDiscipline c0 c'.
Proof. unfold sendHalrcmdMessage. intros Hrun Hc. slot_cases; auto with frame. Qed.

Lemma hd_subscribe c0 c c' :
  subscribe c = Some c' -> heartbeatDiscipline c0 c -> heartbeatDiscipline c0 c'.
Proof. unfold subscribe. intros Hrun Hc. slot_cases. exact Hc. Qed.

Lemma hd_unsubscribe c0 c c' :
  unsubscribe c = Some c' -> heartbeatDiscipline c0 c -> heartbeatDiscipline c0 c'.
Proof. unfold unsubscribe. intros Hrun Hc. slot_cases. exact Hc. Qed.

Lemma hd_pinUpdate remotePin localPin c0 c c' :
  pinUpdate remotePin localPin c = Some c' ->
  heartbeatDiscipline c0 c -> heartbeatDiscipline c0 c'.
Proof. intros Hrun Hc. apply pinUpdate_heap_only in Hrun as [h ->]. exact Hc. Qed.

#[local] Hint Resolve hd_sendHalrcmdMessage hd_subscribe hd_unsubscribe hd_pinUpdate : frame.

Lemma hd_pinChange sender exc c0 c c' :
  pinChange sender exc c = Some c' -> heartbeatDiscipline c0 c -> heartbeatDiscipline c0 c'.
Proof. unfold pinChange. intros Hrun Hc. slot_cases; eauto with frame. Qed.

Lemma hd_connectSockets exc c0 c ok c' :
  connectSockets exc c = (ok, c') -> heartbeatDiscipline c0 c -> heartbeatDiscipline c0 c'.
Proof.
  unfold connectSockets. intros Hrun Hc. destruct exc; slot_cases; auto 10 with frame.
Qed.

Lemma hd_start connectExc sendExc c0 c c' :
  start connectExc sendExc c = Some c' -> heartbeatDiscipline c0 c -> heartbeatDiscipline c0 c'.
Proof.
  unfold start, bind. intros Hrun Hc.
  destruct (connectSockets connectExc (updateState Connecting (set_m_cState Trying c)))
    as [ok c1] eqn:Hc1.
  apply hd_connectSockets with (c0 := c0) in Hc1; [|auto with frame].
  destruct ok; [eauto with frame | by injection Hrun as <-].
Qed.

Lemma hd_stop c0 c : heartbeatDiscipline c0 c -> heartbeatDiscipline c0 (stop c).
Proof. unfold stop. intros Hc. auto 10 with frame. Qed.

#[local] Hint Resolve hd_pinChange hd_start hd_stop : frame.

Lemma hd_componentComplete connectExc sendExc c0 c c' :
  componentComplete connectExc sendExc c = Some c' ->
  heartbeatDiscipline c0 c -> heartbeatDiscipline c0 c'.
Proof. unfold componentComplete. intros Hrun Hc. slot_cases; eauto with frame. Qed.

Lemma hd_setReady arg connectExc sendExc c0 c c' :
  setReady arg connectExc sendExc c = Some c' ->
  heartbeatDiscipline c0 c -> heartbeatDiscipline c0 c'.
Proof. unfold setReady. intros Hrun Hc. slot_cases; eauto with frame. Qed.

Lemma hd_pinWrite pin v exc c0 c c' :
  pinWrite pin v exc c = Some c' -> heartbeatDiscipline c0 c -> heartbeatDiscipline c0 c'.
Proof.
  unfold pinWrite. intros Hrun Hc.
  eapply heartbeatDiscipline_trans; [exact Hc|].
  eapply heartbeatDiscipline_trans;
    [| eapply (forEach_frame heartbeatDiscipline heartbeatDiscipline_refl
                 heartbeatDiscipline_trans); [|exact Hrun]].
  - exact (heartbeatDiscipline_refl c).
  - intros c1 sender c2 Hc2. eapply hd_pinChange; [exact Hc2|].
    apply heartbeatDiscipline_refl.
Qed.

Lemma hd_incrementalUpdate (pins : list pb.Pin) c c' :
  forEach incrementalUpdatePin pins c = Some c' -> heartbeatDiscipline c c'.
Proof.
  apply (forEach_frame heartbeatDiscipline heartbeatDiscipline_refl heartbeatDiscipline_trans).
  clear. intros c remotePin c' Hrun. unfold incrementalUpdatePin in Hrun.
  eapply hd_pinUpdate; [exact Hrun | apply heartbeatDiscipline_refl].
Qed.

Lemma hd_fullUpdatePins (pins : list pb.Pin) c c' :
  forEach fullUpdatePin pins c = Some c' -> heartbeatDiscipline c c'.
Proof.
  apply (forEach_frame heartbeatDiscipline heartbeatDiscipline_refl heartbeatDiscipline_trans).
  clear. intros c remotePin c' Hrun. apply fullUpdatePin_seedPin in Hrun as (pin & _ & ->).
  unfold seedPin. case_match; exact (heartbeatDiscipline_refl c).
Qed.

Lemma hd_fullUpdateComponents (comps : list pb.Component) c c' :
  forEach fullUpdateComponent comps c = Some c' -> heartbeatDiscipline c c'.
Proof.
  apply (forEach_frame heartbeatDiscipline heartbeatDiscipline_refl heartbeatDiscipline_trans).
  clear. intros c comp c' Hrun. unfold fullUpdateComponent in Hrun. slot_cases.
  apply hd_subscriptionUp. eapply hd_fullUpdatePins. eassumption.
Qed.

Lemma hd_halrcompMessageReceived topic rx c0 c c' :
  halrcompMessageReceived topic rx c = Some c' ->
  heartbeatDiscipline c0 c -> heartbeatDiscipline c0 c'.
Proof.
  unfold halrcompMessageReceived. intros Hrun Hc.
  eapply heartbeatDiscipline_trans; [exact Hc|]. clear Hc.
  destruct (pb.type rx); try (injection Hrun as <-); auto with frame.
  - destruct (forEach fullUpdateComponent (pb.comp rx) c) as [c1|] eqn:Hc1;
      cbn [mbind option_bind] in Hrun; [|discriminate].
    injection Hrun as <-. apply hd_fullUpdateComponents in Hc1.
    destruct (pb.pparams rx); auto with frame.
  - destruct (forEach incrementalUpdatePin (pb.pin rx) c) as [c1|] eqn:Hc1;
      cbn [mbind option_bind] in Hrun; [|discriminate].
    injection Hrun as <-. apply hd_incrementalUpdate in Hc1. auto with frame.
Qed.

Lemma hd_halrcmdMessageReceived rx c0 c c' :
  halrcmdMessageReceived rx c = Some c' ->
  heartbeatDiscipline c0 c -> heartbeatDiscipline c0 c'.
Proof.
  unfold halrcmdMessageReceived. intros Hrun Hc.
  destruct (pb.type rx); slot_cases; eauto 10 with frame.
Qed.

Lemma hd_halrcmdHeartbeatTimerTick exc c0 c c' :
  halrcmdHeartbeatTimerTick exc c = Some c' ->
  heartbeatDiscipline c0 c -> heartbeatDiscipline c0 c'.
Proof.
  unfold halrcmdHeartbeatTimerTick. intros Hrun Hc.
  destruct (m_halrcmdPingOutstanding c); simpl in Hrun; slot_cases; eauto 10 with frame.
Qed.

Lemma hd_halrcompHeartbeatTimerTick exc c0 c c' :
  halrcompHeartbeatTimerTick exc c = Some c' ->
  heartbeatDiscipline c0 c -> heartbeatDiscipline c0 c'.
Proof.
  unfold halrcompHeartbeatTimerTick. intros Hrun Hc. slot_cases; eauto 10 with frame.
Qed.

(** Every turn of the event loop observes the discipline. *)
Lemma hd_step ev c c' : step ev c = Some c' -> heartbeatDiscipline c c'.
Proof.
  unfold step. destruct (enabled ev c); [|discriminate].
  pose proof (heartbeatDiscipline_refl c) as Hc.
  destruct ev; simpl; intros Hrun.
  - eapply hd_componentComplete; eassumption.
  - eapply hd_setReady; eassumption.
  - eapply hd_pinWrite; eassumption.
  - eapply hd_halrcompMessageReceived; eassumption.
  - eapply hd_halrcmdMessageReceived; eassumption.
  - eapply hd_halrcmdHeartbeatTimerTick; eassumption.
  - eapply hd_halrcompHeartbeatTimerTick; eassumption.
  - injection Hrun as <-. unfold pollError. auto with frame.
Qed.

Lemma hd_run evs c c' : run evs c = Some c' -> heartbeatDiscipline c c'.
Proof.
  revert c. induction evs as [|ev evs IH]; intros c Hrun; simpl in Hrun.
  - injection Hrun as <-. apply heartbeatDiscipline_refl.
  - destruct (step ev c) as [c1|] eqn:Hc1; simpl in Hrun; [|discriminate].
    eapply heartbeatDiscipline_trans; [eapply hd_step, Hc1 | apply IH, Hrun].
Qed.

End HeartbeatDiscipline.

(** ** Heartbeats (C6, C9) *)

Section Heartbeats.

Context `{QVariantConversions}.

Lemma constructed_not_ticking halrcmdUri halrcompUri name heartbeatPeriod containerItem pins :
  ~ ticking (constructed halrcmdUri halrcompUri name heartbeatPeriod containerItem pins).
Proof. unfold ticking. simpl. discriminate. Qed.

(** While the command heartbeat does not run, its tick is not among the
    events of a run. *)
Lemma run_without_command_ticks evs c c' :
  m_heartbeatPeriod c <= 0 -> ~ ticking c -> run evs c = Some c' ->
  ~ ticking c' /\ existsb isHalrcmdHeartbeatTick evs = false.
Proof.
  revert c. induction evs as [|ev evs IH]; intros c Hp Ht Hrun; simpl in Hrun.
  - injection Hrun as <-. auto.
  - destruct (step ev c) as [c1|] eqn:Hc1; simpl in Hrun; [|discriminate].
    destruct (hd_step _ _ _ Hc1) as (Hp1 & Hs1 & _).
    destruct (IH c1) as [Ht' Hevs]; [lia | | exact Hrun |].
    + intros Ht1. destruct (Hs1 Ht1); [tauto | lia].
    + split; [exact Ht'|]. simpl. rewrite Hevs, orb_false_r.
      unfold step in Hc1. destruct ev; try reflexivity.
      simpl in Hc1. unfold ticking in Ht.
      destruct (isActive (m_halrcmdHeartbeatTimer c)); [tauto | discriminate].
Qed.

(** The transport calls succeed on live sockets. *)
Lemma unsubscribe_live c s :
  m_halrcompSocket c = Some s ->
  unsubscribe c = Some (emit (HalrcompUnsubscribe (m_name c)) (set_m_sState Down c)).
Proof.
  intros Hs. unfold unsubscribe.
  change (m_halrcompSocket (set_m_sState Down c)) with (m_halrcompSocket c).
  rewrite Hs. reflexivity.
Qed.

Lemma sendHalrcmdMessage_live data exc c s :
  m_halrcmdSocket c = Some s ->
  sendHalrcmdMessage data exc c
  = Some match exc with
         | Some e => updateState Error
                       (updateError SocketError (errorText (num e) (what e))
                          (emit (HalrcmdSend data) c))
         | None => emit (HalrcmdSend data) c
         end.
Proof. intros Hs. unfold sendHalrcmdMessage. rewrite Hs. by destruct exc. Qed.

Lemma sendHalrcmdMessage_trace data exc c c' :
  sendHalrcmdMessage data exc c = Some c' -> trace c' = trace c ++ [HalrcmdSend data].
Proof.
  unfold sendHalrcmdMessage. destruct (m_halrcmdSocket c); [|discriminate].
  destruct exc; intros [= <-]; [rewrite updateState_trace|]; reflexivity.
Qed.

Lemma timedOut_frame message c :
  trace (timedOut message c) = trace c ++ [HalrcompUnsubscribe (m_name c)]
  /\ m_halrcmdSocket (timedOut message c) = m_halrcmdSocket c
  /\ m_connectionState (timedOut message c) = Error
  /\ m_error (timedOut message c) = TimeoutError.
Proof.
  unfold timedOut.
  match goal with |- context [updateState Error ?x] => generalize (eq_refl x); generalize x at 2 3 4 5 6 end.
  intros c1 Hc1.
  rewrite updateState_trace, updateState_connectionState.
  destruct (updateState_sockets Error c1) as (-> & _).
  destruct (updateState_error Error c1) as (-> & _).
  subst c1. auto.
Qed.

(** What the tick of the subscription heartbeat puts on the transport. *)
Lemma halrcompHeartbeatTimerTick_pings exc c s s' :
  m_halrcmdSocket c = Some s -> m_halrcompSocket c = Some s' ->
  exists c', halrcompHeartbeatTimerTick exc c = Some c'
    /\ trace c' = trace c ++ [HalrcompUnsubscribe (m_name c); ping].
Proof.
  intros Hcmd Hcomp. unfold halrcompHeartbeatTimerTick.
  rewrite (unsubscribe_live (set_m_cState Trying c) s' Hcomp), bind_Some_l. cbv beta zeta.
  destruct (timedOut_frame "Halrcomp service timed out" c) as (Htr & Hsock & _).
  unfold timedOut in Htr, Hsock. rewrite Hcmd in Hsock.
  rewrite (sendHalrcmdMessage_live _ _ _ s Hsock), bind_Some_l.
  eexists. split; [reflexivity|].
  change (trace (set_m_halrcompPingOutstanding true ?x)) with (trace x).
  destruct exc.
  - rewrite updateState_trace.
    change (trace (updateError ?e ?m (emit ?o ?x))) with (trace x ++ [o]).
    rewrite Htr, <- app_assoc. reflexivity.
  - change (trace (emit ?o ?x)) with (trace x ++ [o]).
    rewrite Htr, <- app_assoc. reflexivity.
Qed.

(** C9.  With a heartbeat period of 0 the command heartbeat timer is
    stopped in every state the component reaches, and no tick of it is among
    the events that led there; and the tick of the subscription heartbeat
    sends a PING on the command socket whatever the period is. *)
Theorem heartbeat_period_zero_disables_command_heartbeat_only :
  (forall halrcmdUri halrcompUri name containerItem pins evs c',
      run evs (constructed halrcmdUri halrcompUri name 0 containerItem pins) = Some c' ->
      isActive (m_halrcmdHeartbeatTimer c') = false
      /\ existsb isHalrcmdHeartbeatTick evs = false)
  /\ (forall exc c s s',
        m_halrcmdSocket c = Some s -> m_halrcompSocket c = Some s' ->
        exists c', halrcompHeartbeatTimerTick exc c = Some c'
          /\ trace c' = trace c ++ [HalrcompUnsubscribe (m_name c); ping]).
Proof.
  split.
  - intros halrcmdUri halrcompUri name containerItem pins evs c' Hrun.
    apply run_without_command_ticks in Hrun as [Ht Hevs].
    + split; [|exact Hevs]. unfold ticking in Ht.
      destruct (isActive (m_halrcmdHeartbeatTimer c')); [tauto | reflexivity].
    + simpl. lia.
    + apply constructed_not_ticking.
  - intros exc c s s'. apply halrcompHeartbeatTimerTick_pings.
Qed.

(** In the states the component reaches the command heartbeat runs only
    while it is [Connected]. *)
Lemma ticking_only_Connected halrcmdUri halrcompUri name heartbeatPeriod containerItem pins evs c :
  run evs (constructed halrcmdUri halrcompUri name heartbeatPeriod containerItem pins) = Some c ->
  ticking c -> m_connectionState c = Connected.
Proof.
  intros Hrun. destruct (hd_run _ _ _ Hrun) as (_ & _ & Hconn). apply Hconn.
  intros Ht. by apply constructed_not_ticking in Ht.
Qed.

Lemma timedOut_timers message c :
  m_connectionState c <> Error ->
  isActive (m_halrcmdHeartbeatTimer (timedOut message c)) = false
  /\ isActive (m_halrcompHeartbeatTimer (timedOut message c)) = false.
Proof.
  intros Hs. unfold timedOut. apply updateState_stops_heartbeats; [discriminate | exact Hs].
Qed.

(** A send in the [Error] state changes neither the state nor the timers. *)
Lemma sendHalrcmdMessage_in_Error data exc c c' :
  sendHalrcmdMessage data exc c = Some c' ->
  m_connectionState c = Error ->
  m_connectionState c' = Error
  /\ m_halrcmdHeartbeatTimer c' = m_halrcmdHeartbeatTimer c
  /\ m_halrcompHeartbeatTimer c' = m_halrcompHeartbeatTimer c
  /\ (exc = None -> m_error c' = m_error c).
Proof.
  unfold sendHalrcmdMessage. destruct (m_halrcmdSocket c); [|discriminate].
  rewrite bind_Some_l. intros Hrun Hs. destruct exc as [e|]; injection Hrun as <-.
  - rewrite updateState_same by exact Hs. repeat split; [exact Hs | discriminate].
  - repeat split; exact Hs.
Qed.

(** C6, as the code has it.  A tick of the command heartbeat that finds a
    ping outstanding while the component is [Connected] unsubscribes, sends
    one PING, and leaves the component in [Error] (with [TimeoutError] if the
    send did not raise) with both heartbeat timers stopped.  In every state
    the component reaches the command heartbeat runs only while the component
    is [Connected]: there is no further tick of it, hence no further PING
    from it, before the component is [Connected] again. *)
Theorem command_timeout_pings_once_and_stops_heartbeats :
  (forall exc c s s',
      m_connectionState c = Connected ->
      m_halrcmdPingOutstanding c = true ->
      m_halrcmdSocket c = Some s -> m_halrcompSocket c = Some s' ->
      exists c', halrcmdHeartbeatTimerTick exc c = Some c'
        /\ m_connectionState c' = Error
        /\ (exc = None -> m_error c' = TimeoutError)
        /\ trace c' = trace c ++ [HalrcompUnsubscribe (m_name c); ping]
        /\ isActive (m_halrcmdHeartbeatTimer c') = false
        /\ isActive (m_halrcompHeartbeatTimer c') = false
        /\ m_halrcmdPingOutstanding c' = true)
  /\ (forall halrcmdUri halrcompUri name heartbeatPeriod containerItem pins evs c exc,
        run evs (constructed halrcmdUri halrcompUri name heartbeatPeriod containerItem pins)
        = Some c ->
        m_connectionState c <> Connected ->
        enabled (EvHalrcmdHeartbeatTick exc) c = false).
Proof.
  split.
  - intros exc c s s' Hconn Hout Hcmd Hcomp.
    unfold halrcmdHeartbeatTimerTick. rewrite Hout.
    rewrite (unsubscribe_live (set_m_cState Trying c) s' Hcomp), !bind_Some_l. cbv beta.
    destruct (timedOut_frame "Halrcmd service timed out" c) as (Htr & Hsock & Hstate & Herr).
    destruct (timedOut_timers "Halrcmd service timed out" c) as [Hcmdt Hcompt]; [congruence|].
    unfold timedOut in Htr, Hsock, Hstate, Herr, Hcmdt, Hcompt. rewrite Hcmd in Hsock.
    match goal with
    | |- context [sendHalrcmdMessage ?d ?e ?x] =>
        destruct (sendHalrcmdMessage d e x) as [c1|] eqn:Hc1
    end.
    + rewrite bind_Some_l. eexists. split; [reflexivity|].
      pose proof (sendHalrcmdMessage_trace _ _ _ _ Hc1) as Htr1.
      destruct (sendHalrcmdMessage_in_Error _ _ _ _ Hc1 Hstate) as (Hs1 & Hcmd1 & Hcomp1 & He1).
      change (m_connectionState (set_m_halrcmdPingOutstanding true c1))
        with (m_connectionState c1).
      change (m_error (set_m_halrcmdPingOutstanding true c1)) with (m_error c1).
      change (trace (set_m_halrcmdPingOutstanding true c1)) with (trace c1).
      change (m_halrcmdHeartbeatTimer (set_m_halrcmdPingOutstanding true c1))
        with (m_halrcmdHeartbeatTimer c1).
      change (m_halrcompHeartbeatTimer (set_m_halrcmdPingOutstanding true c1))
        with (m_halrcompHeartbeatTimer c1).
      rewrite Hs1, Htr1, Htr, Hcmd1, Hcomp1, <- app_assoc.
      repeat split; auto. intros He. rewrite (He1 He). exact Herr.
    + rewrite (sendHalrcmdMessage_live _ _ _ s Hsock) in Hc1. discriminate.
  - intros halrcmdUri halrcompUri name heartbeatPeriod containerItem pins evs c exc Hrun Hs.
    simpl. destruct (isActive (m_halrcmdHeartbeatTimer c)) eqn:Ht; [|reflexivity].
    exfalso. apply Hs. eapply ticking_only_Connected; eassumption.
Qed.

End Heartbeats.

(** ** Slots that stay within the session *)

Lemma not_BIND_subscribe topic : ~ isBIND (HalrcompSubscribe topic).
Proof. intros (data & Ho & _). discriminate. Qed.

Lemma not_BIND_unsubscribe topic : ~ isBIND (HalrcompUnsubscribe topic).
Proof. intros (data & Ho & _). discriminate. Qed.

Lemma not_BIND_send data : pb.type data <> pb.MT_HALRCOMP_BIND -> ~ isBIND (HalrcmdSend data).
Proof. intros Hty (data' & [= <-] & Ht). contradiction. Qed.

Lemma ws_updateState state c0 c : withinSession c0 c -> withinSession c0 (updateState state c).
Proof. intros Hc. eapply withinSession_trans; [exact Hc | apply updateState_session]. Qed.

Lemma ws_updateError error errorString c0 c :
  withinSession c0 c -> withinSession c0 (updateError error errorString c).
Proof. intros Hc. exact Hc. Qed.

Lemma ws_emit o c0 c : ~ isBIND o -> withinSession c0 c -> withinSession c0 (emit o c).
Proof.
  intros Ho (Hr & Hc & Hn & new & Htr & Hnew). repeat split; try assumption.
  exists (new ++ [o]). split.
  - change (trace (emit o c)) with (trace c ++ [o]). rewrite Htr, app_assoc. reflexivity.
  - apply Forall_app. split; [exact Hnew | by constructor].
Qed.

Lemma ws_modifyPin pin f c0 c : withinSession c0 c -> withinSession c0 (modifyPin pin f c).
Proof. intros Hc. exact Hc. Qed.

Lemma ws_startHalrcompHeartbeat interval c0 c :
  withinSession c0 c -> withinSession c0 (startHalrcompHeartbeat interval c).
Proof. intros Hc. unfold startHalrcompHeartbeat. case_decide; exact Hc. Qed.

Lemma ws_refreshHalrcompHeartbeat c0 c :
  withinSession c0 c -> withinSession c0 (refreshHalrcompHeartbeat c).
Proof. intros Hc. unfold refreshHalrcompHeartbeat. case_match; exact Hc. Qed.

Lemma ws_subscriptionUp c0 c : withinSession c0 c -> withinSession c0 (subscriptionUp c).
Proof. intros Hc. unfold subscriptionUp. case_decide; [apply ws_updateState|]; exact Hc. Qed.

#[local] Hint Resolve ws_updateState ws_updateError ws_emit ws_modifyPin
  ws_startHalrcompHeartbeat ws_refreshHalrcompHeartbeat ws_subscriptionUp
  not_BIND_subscribe not_BIND_unsubscribe not_BIND_send : frame.

Section WithinSession.

Context `{QVariantConversions}.

Lemma ws_sendHalrcmdMessage data exc c0 c c' :
  pb.type data <> pb.MT_HALRCOMP_BIND ->
  sendHalrcmdMessage data exc c = Some c' -> withinSession c0 c -> withinSession c0 c'.
Proof.
  unfold sendHalrcmdMessage. intros Hty Hrun Hc.
  destruct (m_halrcmdSocket c); [rewrite bind_Some_l in Hrun | discriminate].
  destruct exc; injection Hrun as <-; auto with frame.
Qed.

Lemma ws_subscribe c0 c c' : subscribe c = Some c' -> withinSession c0 c -> withinSession c0 c'.
Proof.
  unfold subscribe. intros Hrun Hc.
  destruct (m_halrcompSocket (set_m_sState Trying c)); [|discriminate].
  rewrite bind_Some_l in Hrun. injection Hrun as <-.
  apply ws_emit; [apply not_BIND_subscribe | exact Hc].
Qed.

Lemma ws_unsubscribe c0 c c' :
  unsubscribe c = Some c' -> withinSession c0 c -> withinSession c0 c'.
Proof.
  unfold unsubscribe. intros Hrun Hc.
  destruct (m_halrcompSocket (set_m_sState Down c)); [|discriminate].
  rewrite bind_Some_l in Hrun. injection Hrun as <-.
  apply ws_emit; [apply not_BIND_unsubscribe | exact Hc].
Qed.

Lemma ws_pinUpdate remotePin localPin c0 c c' :
  pinUpdate remotePin localPin c = Some c' -> withinSession c0 c -> withinSession c0 c'.
Proof. intros Hrun Hc. apply pinUpdate_heap_only in Hrun as [h ->]. exact Hc. Qed.

Lemma ws_pinChange sender exc c0 c c' :
  pinChange sender exc c = Some c' -> withinSession c0 c -> withinSession c0 c'.
Proof.
  unfold pinChange. intros Hrun Hc. repeat case_decide.
  - by injection Hrun as <-.
  - by injection Hrun as <-.
  - eapply ws_sendHalrcmdMessage; [|exact Hrun|exact Hc]. discriminate.
Qed.

Lemma ws_pinWrite pin v exc c c' : pinWrite pin v exc c = Some c' -> withinSession c c'.
Proof.
  unfold pinWrite. intros Hrun.
  eapply withinSession_trans;
    [| eapply (forEach_frame withinSession withinSession_refl withinSession_trans);
       [|exact Hrun]].
  - exact (withinSession_refl c).
  - intros c1 sender c2 Hc2. eapply ws_pinChange; [exact Hc2 | apply withinSession_refl].
Qed.

Lemma ws_incrementalUpdate (pins : list pb.Pin) c c' :
  forEach incrementalUpdatePin pins c = Some c' -> withinSession c c'.
Proof.
  apply (forEach_frame withinSession withinSession_refl withinSession_trans).
  clear. intros c remotePin c' Hrun. unfold incrementalUpdatePin in Hrun.
  eapply ws_pinUpdate; [exact Hrun | apply withinSession_refl].
Qed.

Lemma ws_fullUpdatePins (pins : list pb.Pin) c c' :
  forEach fullUpdatePin pins c = Some c' -> withinSession c c'.
Proof.
  apply (forEach_frame withinSession withinSession_refl withinSession_trans).
  clear. intros c remotePin c' Hrun. apply fullUpdatePin_seedPin in Hrun as (pin & _ & ->).
  unfold seedPin. case_match; exact (withinSession_refl c).
Qed.

Lemma ws_fullUpdateComponents (comps : list pb.Component) c c' :
  forEach fullUpdateComponent comps c = Some c' -> withinSession c c'.
Proof.
  apply (forEach_frame withinSession withinSession_refl withinSession_trans).
  clear. intros c comp c' Hrun. unfold fullUpdateComponent in Hrun.
  destruct (forEach fullUpdatePin (pb.Component_pin comp) c) as [c1|] eqn:Hc1; [|discriminate].
  rewrite bind_Some_l in Hrun. injection Hrun as <-.
  apply ws_subscriptionUp. eapply ws_fullUpdatePins. exact Hc1.
Qed.

Lemma ws_halrcompMessageReceived topic rx c c' :
  halrcompMessageReceived topic rx c = Some c' -> withinSession c c'.
Proof.
  unfold halrcompMessageReceived. intros Hrun.
  pose proof (withinSession_refl c) as Hc.
  destruct (pb.type rx); try (injection Hrun as <-); auto with frame.
  - destruct (forEach fullUpdateComponent (pb.comp rx) c) as [c1|] eqn:Hc1; [|discriminate].
    rewrite bind_Some_l in Hrun. injection Hrun as <-. apply ws_fullUpdateComponents in Hc1.
    destruct (pb.pparams rx); auto with frame.
  - destruct (forEach incrementalUpdatePin (pb.pin rx) c) as [c1|] eqn:Hc1; [|discriminate].
    rewrite bind_Some_l in Hrun. injection Hrun as <-. apply ws_incrementalUpdate in Hc1.
    auto with frame.
Qed.

Lemma ws_halrcmdMessageReceived rx c c' :
  halrcmdMessageReceived rx c = Some c' -> withinSession c c'.
Proof.
  unfold halrcmdMessageReceived. intros Hrun.
  pose proof (withinSession_refl c) as Hc.
  destruct (pb.type rx); try (injection Hrun as <-); auto with frame.
  - eapply ws_subscribe; [exact Hrun | exact Hc].
  - cbv beta zeta in Hrun. case_decide.
    + eapply ws_subscribe; [exact Hrun|]. auto with frame.
    + injection Hrun as <-. exact Hc.
Qed.

Lemma ws_halrcmdHeartbeatTimerTick exc c c' :
  halrcmdHeartbeatTimerTick exc c = Some c' -> withinSession c c'.
Proof.
  unfold halrcmdHeartbeatTimerTick. intros Hrun.
  pose proof (withinSession_refl c) as Hc.
  destruct (m_halrcmdPingOutstanding c).
  - destruct (unsubscribe (set_m_cState Trying c)) as [c1|] eqn:Hc1; [|discriminate].
    rewrite !bind_Some_l in Hrun. eapply ws_unsubscribe in Hc1; [|exact Hc].
    match type of Hrun with
    | context [sendHalrcmdMessage ?d ?e ?x] =>
        destruct (sendHalrcmdMessage d e x) as [c2|] eqn:Hc2; [|discriminate]
    end.
    rewrite bind_Some_l in Hrun. injection Hrun as <-.
    eapply ws_sendHalrcmdMessage in Hc2; [exact Hc2 | discriminate | auto with frame].
  - rewrite bind_Some_l in Hrun.
    destruct (sendHalrcmdMessage (pb.cleared pb.MT_PING) exc c) as [c2|] eqn:Hc2; [|discriminate].
    rewrite bind_Some_l in Hrun. injection Hrun as <-.
    eapply ws_sendHalrcmdMessage in Hc2; [exact Hc2 | discriminate | exact Hc].
Qed.

Lemma ws_halrcompHeartbeatTimerTick exc c c' :
  halrcompHeartbeatTimerTick exc c = Some c' -> withinSession c c'.
Proof.
  unfold halrcompHeartbeatTimerTick. intros Hrun.
  pose proof (withinSession_refl c) as Hc.
  destruct (unsubscribe (set_m_cState Trying c)) as [c1|] eqn:Hc1; [|discriminate].
  rewrite bind_Some_l in Hrun. cbv beta zeta in Hrun.
  eapply ws_unsubscribe in Hc1; [|exact Hc].
  match type of Hrun with
  | context [sendHalrcmdMessage ?d ?e ?x] =>
      destruct (sendHalrcmdMessage d e x) as [c2|] eqn:Hc2; [|discriminate]
  end.
  rewrite bind_Some_l in Hrun. injection Hrun as <-.
  eapply ws_sendHalrcmdMessage in Hc2; [exact Hc2 | discriminate | auto with frame].
Qed.

End WithinSession.

(** ** The BIND envelope (C4) *)

Section Bind.

Context `{QVariantConversions}.

Lemma bindPin_describes comp pin : describes comp pin (bindPin comp pin).
Proof.
  unfold describes, carriesValueOf, bindPin. simpl.
  destruct (QHalPin.type pin); simpl; auto 10.
Qed.

Lemma bindMessage_isBindOf c : isBindOf c (bindMessage c).
Proof.
  unfold isBindOf, bindMessage. simpl. split; [reflexivity|].
  eexists. split; [reflexivity|]. simpl. split; [reflexivity|].
  induction (registeredPins c) as [|pin pins IH]; simpl; constructor.
  - apply bindPin_describes.
  - exact IH.
Qed.

Lemma isBindOf_ext c c' data :
  m_name c' = m_name c -> heap c' = heap c -> m_pinsByName c' = m_pinsByName c ->
  isBindOf c data -> isBindOf c' data.
Proof.
  intros Hname Hheap Hnames. unfold isBindOf, registeredPins.
  rewrite Hname, Hheap, Hnames. auto.
Qed.

Lemma eligiblePins_ext c c' :
  heap c' = heap c -> m_containerItem c' = m_containerItem c -> eligiblePins c' = eligiblePins c.
Proof.
  intros Hheap Hcont. unfold eligiblePins, enumerated, eligible. rewrite Hheap, Hcont. reflexivity.
Qed.

Lemma addPins_flags c :
  m_ready (addPins c) = m_ready c /\ m_componentCompleted (addPins c) = m_componentCompleted c.
Proof.
  unfold addPins. destruct (m_containerItem c) as [children|]; [|auto].
  generalize (recurseObjects children). intros pins. revert c.
  induction pins as [|pin pins IH]; intros c; simpl; [auto|].
  destruct (IH (addPin c pin)) as [-> ->]. unfold addPin. case_match; auto.
Qed.

(** The state in which [bind] runs, and what it sends. *)
Lemma bind_binds exc c c0 c' :
  bind exc c = Some c' ->
  m_connectionState c <> Connected ->
  heap c = heap c0 -> m_containerItem c = m_containerItem c0 ->
  m_pinsByName c = foldl (register (heap c0)) ∅ (eligiblePins c0) ->
  trace c' = trace c ++ [HalrcmdSend (bindMessage c)]
  /\ bindsSession c' [HalrcmdSend (bindMessage c)]
  /\ m_ready c' = m_ready c /\ m_componentCompleted c' = m_componentCompleted c.
Proof.
  unfold bind. intros Hrun Hstate Hheap Hcont Hnames.
  pose proof (sendHalrcmdMessage_trace _ _ _ _ Hrun) as Htr.
  assert (Hsame : m_name c' = m_name c /\ heap c' = heap c /\ m_pinsByName c' = m_pinsByName c
                  /\ m_containerItem c' = m_containerItem c
                  /\ m_ready c' = m_ready c
                  /\ m_componentCompleted c' = m_componentCompleted c).
  { unfold sendHalrcmdMessage in Hrun. destruct (m_halrcmdSocket c); [|discriminate].
    rewrite bind_Some_l in Hrun. destruct exc as [e|]; injection Hrun as <-; [|auto 10].
    match goal with |- context [updateState Error ?x] => generalize (eq_refl x);
      generalize x at 2 3 4 5 6 7 8 end.
    intros c1 Hc1.
    destruct (updateState_registry Error c1) as (-> & _ & ->).
    destruct (updateState_config Error c1) as (_ & -> & -> & -> & _).
    rewrite updateState_heap by (subst c1; exact Hstate).
    subst c1. auto 10. }
  destruct Hsame as (Hname' & Hheap' & Hnames' & Hcont' & Hready' & Hcompleted').
  split; [exact Htr|]. split; [|auto].
  intros data Hin _. apply list_elem_of_singleton in Hin. injection Hin as ->.
  split.
  - apply (isBindOf_ext c); [assumption..|]. apply bindMessage_isBindOf.
  - assert (Hel : eligiblePins c' = eligiblePins c0).
    { apply eligiblePins_ext; congruence. }
    rewrite Hel, Hheap', Hheap. intros Hnd. rewrite registeredPins_values.
    rewrite Hnames', Hnames. apply registered_eligible. exact Hnd.
Qed.

Lemma start_binds connectExc sendExc c c' :
  m_pinsByName c = ∅ ->
  start connectExc sendExc c = Some c' ->
  m_ready c' = m_ready c /\ m_componentCompleted c' = m_componentCompleted c
  /\ exists new, trace c' = trace c ++ new /\ bindsSession c' new.
Proof.
  unfold start. intros Hn.
  pose proof (updateState_trace Connecting (set_m_cState Trying c)) as Htr1.
  pose proof (updateState_connectionState Connecting (set_m_cState Trying c)) as Hs1.
  pose proof (updateState_heap_unregistered Connecting (set_m_cState Trying c) Hn) as Hh1.
  destruct (updateState_registry Connecting (set_m_cState Trying c)) as (Hn1 & _ & _).
  destruct (updateState_config Connecting (set_m_cState Trying c)) as (_ & Hc1 & Hr1 & Hf1 & _).
  revert Htr1 Hs1 Hh1 Hn1 Hc1 Hr1 Hf1.
  generalize (updateState Connecting (set_m_cState Trying c)).
  intros c1 Htr1 Hs1 Hh1 Hn1 Hc1 Hr1 Hf1.
  change (trace (set_m_cState Trying c)) with (trace c) in Htr1.
  change (heap (set_m_cState Trying c)) with (heap c) in Hh1.
  change (m_pinsByName (set_m_cState Trying c)) with (m_pinsByName c) in Hn1.
  change (m_containerItem (set_m_cState Trying c)) with (m_containerItem c) in Hc1.
  change (m_ready (set_m_cState Trying c)) with (m_ready c) in Hr1.
  change (m_componentCompleted (set_m_cState Trying c)) with (m_componentCompleted c) in Hf1.
  unfold connectSockets. destruct connectExc as [e|]; cbv beta iota zeta.
  - intros [= <-].
    match goal with |- context [updateState Error ?x] => generalize (eq_refl x);
      generalize x at 2 3 4 5 end.
    intros c2 Hc2.
    destruct (updateState_config Error c2) as (_ & _ & -> & -> & _).
    rewrite updateState_trace. subst c2.
    split; [exact Hr1|]. split; [exact Hf1|].
    exists []. split.
    + rewrite app_nil_r. exact Htr1.
    + intros data Hin. by apply elem_of_nil in Hin.
  - match goal with |- bind _ (addPins ?x) = _ -> _ => generalize (eq_refl x);
      generalize x at 2 3 end.
    intros c3 Hc3 Hrun.
    destruct (addPins_frame c3) as (Hh4 & Htr4 & _ & _ & Hs4 & Hc4 & Hn4).
    destruct (addPins_flags c3) as (Hr4 & Hf4).
    assert (Hel : eligiblePins c3 = eligiblePins c).
    { apply eligiblePins_ext; subst c3; [exact Hh1 | exact Hc1]. }
    destruct (bind_binds sendExc (addPins c3) c c' Hrun) as (Htr & Hbinds & Hr & Hf).
    + rewrite Hs4. subst c3. change (m_connectionState c1 <> Connected). congruence.
    + rewrite Hh4. subst c3. exact Hh1.
    + rewrite Hc4. subst c3. exact Hc1.
    + rewrite Hn4, Hel. subst c3.
      change (foldl (register (heap c1)) (m_pinsByName c1) (eligiblePins c)
              = foldl (register (heap c)) ∅ (eligiblePins c)).
      rewrite Hh1, Hn1, Hn. reflexivity.
    + assert (Htr3 : trace c3 = trace c) by (subst c3; exact Htr1).
      assert (Hr3 : m_ready c3 = m_ready c) by (subst c3; exact Hr1).
      assert (Hf3 : m_componentCompleted c3 = m_componentCompleted c) by (subst c3; exact Hf1).
      rewrite Hr, Hf, Hr4, Hf4. split; [exact Hr3|]. split; [exact Hf3|].
      eexists. split; [|exact Hbinds]. rewrite Htr, Htr4, Htr3. reflexivity.
Qed.

End Bind.

(** ** Sessions *)

Section Sessions.

Context `{QVariantConversions}.

Lemma disconnectSockets_frame c :
  trace (disconnectSockets c) = trace c
  /\ m_ready (disconnectSockets c) = m_ready c
  /\ m_componentCompleted (disconnectSockets c) = m_componentCompleted c.
Proof. unfold disconnectSockets. repeat case_match; auto. Qed.

Lemma stop_frame c :
  m_pinsByName (stop c) = ∅ /\ trace (stop c) = trace c
  /\ m_ready (stop c) = m_ready c /\ m_componentCompleted (stop c) = m_componentCompleted c.
Proof.
  unfold stop. cbv zeta.
  destruct (disconnectSockets_frame (stopHalrcompHeartbeat (stopHalrcmdHeartbeat c)))
    as (Htr & Hr & Hf).
  revert Htr Hr Hf. generalize (disconnectSockets (stopHalrcompHeartbeat (stopHalrcmdHeartbeat c))).
  intros c1 Htr Hr Hf.
  destruct (updateState_registry Disconnected (removePins c1)) as (Hn2 & _ & _).
  destruct (updateState_config Disconnected (removePins c1)) as (_ & _ & Hr2 & Hf2 & _).
  pose proof (updateState_trace Disconnected (removePins c1)) as Htr2.
  revert Hn2 Hr2 Hf2 Htr2. generalize (updateState Disconnected (removePins c1)).
  intros c2 Hn2 Hr2 Hf2 Htr2.
  repeat split.
  - exact Hn2.
  - exact (eq_trans Htr2 Htr).
  - exact (eq_trans Hr2 Hr).
  - exact (eq_trans Hf2 Hf).
Qed.

Lemma withinSession_idle c c' : withinSession c c' -> sessionIdle c -> sessionIdle c'.
Proof. intros (Hr & Hf & Hn & _). unfold sessionIdle. rewrite Hr, Hf, Hn. auto. Qed.

Lemma withinSession_binds c c' :
  withinSession c c' -> exists new, trace c' = trace c ++ new /\ bindsSession c' new.
Proof.
  intros (_ & _ & _ & new & Htr & Hnew). exists new. split; [exact Htr|].
  intros data Hin Hty. rewrite Forall_forall in Hnew.
  exfalso. apply (Hnew _ Hin). exists data. auto.
Qed.

(** The slots that do not start or end a session. *)
Lemma step_withinSession ev c c' :
  match ev with
  | EvComponentComplete _ _ | EvSetReady _ _ _ => False
  | _ => True
  end ->
  step ev c = Some c' -> withinSession c c'.
Proof.
  unfold step. destruct (enabled ev c); [|discriminate].
  destruct ev; simpl; intros Hev Hrun; try contradiction.
  - by apply ws_pinWrite in Hrun.
  - by apply ws_halrcompMessageReceived in Hrun.
  - by apply ws_halrcmdMessageReceived in Hrun.
  - by apply ws_halrcmdHeartbeatTimerTick in Hrun.
  - by apply ws_halrcompHeartbeatTimerTick in Hrun.
  - injection Hrun as <-. unfold pollError. auto using withinSession_refl with frame.
Qed.

Lemma nothing_binds c' : bindsSession c' [].
Proof. intros data Hin. by apply elem_of_nil in Hin. Qed.

(** A turn of the loop keeps the name index empty between sessions, and
    every BIND it sends is the BIND of the session it starts. *)
Lemma step_session ev c c' :
  sessionIdle c -> step ev c = Some c' ->
  sessionIdle c' /\ exists new, trace c' = trace c ++ new /\ bindsSession c' new.
Proof.
  intros Hidle Hstep.
  destruct ev as [connectExc sendExc | arg connectExc sendExc | | | | | | ];
    try (apply step_withinSession in Hstep; [|exact I];
         split; [eapply withinSession_idle; eassumption | by apply withinSession_binds]).
  - unfold step in Hstep. simpl in Hstep.
    destruct (m_componentCompleted c) eqn:Hf; [discriminate|]. simpl in Hstep.
    unfold componentComplete in Hstep. cbv zeta in Hstep.
    change (m_ready (set_m_componentCompleted true c)) with (m_ready c) in Hstep.
    destruct (m_ready c) eqn:Hr.
    + apply start_binds in Hstep as (Hr' & Hf' & Hnew); [|by apply Hidle; rewrite Hf].
      split; [|exact Hnew]. intros Hflags. rewrite Hr', Hf' in Hflags. simpl in Hflags.
      rewrite Hr in Hflags. discriminate.
    + injection Hstep as <-. split.
      * intros _. apply Hidle. by rewrite Hf.
      * exists []. split; [by rewrite app_nil_r | apply nothing_binds].
  - unfold step in Hstep. simpl in Hstep. unfold setReady in Hstep.
    destruct (decide (m_ready c <> arg)) as [Hne|Heq].
    + cbv zeta in Hstep.
      change (m_componentCompleted (set_m_ready arg c)) with (m_componentCompleted c) in Hstep.
      change (m_ready (set_m_ready arg c)) with arg in Hstep.
      destruct (m_componentCompleted c) eqn:Hf; simpl in Hstep.
      * destruct arg.
        -- apply start_binds in Hstep as (Hr' & Hf' & Hnew).
           ++ split; [|exact Hnew]. intros Hflags. rewrite Hr', Hf' in Hflags.
              simpl in Hflags. rewrite Hf in Hflags. discriminate.
           ++ apply Hidle. destruct (m_ready c); [congruence|]. by rewrite Hf.
        -- injection Hstep as <-. destruct (stop_frame (set_m_ready false c)) as (Hn & Htr & _).
           split; [intros _; exact Hn|].
           exists []. split; [by rewrite app_nil_r | apply nothing_binds].
      * injection Hstep as <-. split.
        -- intros _. apply Hidle. by rewrite Hf.
        -- exists []. split; [by rewrite app_nil_r | apply nothing_binds].
    + injection Hstep as <-. split; [exact Hidle|].
      exists []. split; [by rewrite app_nil_r | apply nothing_binds].
Qed.

Lemma run_sessionIdle evs c c' : sessionIdle c -> run evs c = Some c' -> sessionIdle c'.
Proof.
  revert c. induction evs as [|ev evs IH]; intros c Hidle Hrun; simpl in Hrun.
  - by injection Hrun as <-.
  - destruct (step ev c) as [c1|] eqn:Hc1; [|discriminate].
    rewrite bind_Some_l in Hrun. apply (IH c1); [|exact Hrun].
    by destruct (step_session _ _ _ Hidle Hc1).
Qed.

(** What every BIND envelope carries.  In every state the component
    reaches, each BIND envelope a turn of the event loop sends has no
    top-level pin, exactly one component sub-message, carrying the
    component's name, and one pin sub-message for each pin of the name index,
    in the order of the index, each with the name [QString("%1.%2")] makes of
    the component's and the pin's name, the type tag, the direction tag, the
    one value field of the pin's type taken from the pin's current value, and
    no handle; and when the enabled, named pins of the container have
    pairwise different names, the pins of the name index are exactly those
    pins. *)
Theorem bind_envelope_describes_registered_pins
    halrcmdUri halrcompUri name heartbeatPeriod containerItem pins evs c ev c' :
  run evs (constructed halrcmdUri halrcompUri name heartbeatPeriod containerItem pins) = Some c ->
  step ev c = Some c' ->
  exists new, trace c' = trace c ++ new
    /\ forall data,
         HalrcmdSend data ∈ new -> pb.type data = pb.MT_HALRCOMP_BIND ->
         isBindOf c' data
         /\ (NoDup ((fun pin => QHalPin.name (heap c' pin)) <$> eligiblePins c') ->
             registeredPins c' ≡ₚ eligiblePins c').
Proof.
  intros Hrun Hstep.
  apply run_sessionIdle in Hrun; [|intros _; reflexivity].
  destruct (step_session _ _ _ Hrun Hstep) as (_ & new & Htr & Hnew).
  exists new. split; [exact Htr | exact Hnew].
Qed.

End Sessions.

(** ** The sample component, run *)

(** A slot that returns on a concrete input returns what running it gives. *)
Lemma evaluated {A : Type} (x : option A) (d : A) :
  bool_decide (is_Some x) = true -> x = Some (default d x).
Proof. intros Hx. apply bool_decide_eq_true_1 in Hx as [y ->]. reflexivity. Qed.

Ltac by_running := apply evaluated; vm_compute; reflexivity.

(** C4 on the sample component under the name [%2].  [bind] runs when the
    completed component is set ready; it sends one envelope, and the names
    of its pin sub-messages are [x.x] and [y.y], not [%2.x] and [%2.y]: the
    second [arg] replaces the place marker of the pattern and the one the
    component name has brought in.  The comment of the line says the pin
    name is always [component.name]. *)
Lemma bind_of_component_named_with_place_marker :
  (fun c => (m_name c, m_connectionState c, sentPinNames <$> trace c))
    <$> @run Sample.conversions [EvComponentComplete None None; EvSetReady true None None]
          namedWithPlaceMarker
  = Some ("%2", Connecting, [[Some "x.x"; Some "y.y"]])
  /\ qualifiedName "%2" "x" = "%2.x" /\ qualifiedName "%2" "y" = "%2.y".
Proof. by_evaluation. Qed.

(** The same envelope of the sample component under its own name carries
    [comp.x] and [comp.y], in the order of the name index. *)
Lemma bind_of_sample_component :
  (fun c => sentPinNames <$> trace c)
    <$> @run Sample.conversions [EvComponentComplete None None; EvSetReady true None None]
          Sample.comp0
  = Some [[Some "comp.x"; Some "comp.y"]].
Proof. by_evaluation. Qed.

(** C1 on two sessions of the sample component: after S1 the application
    takes [ready] back and sets it again.  The component is [Connecting], the
    pin [x] is in the name index again, and it is still synced: [stop] had
    emptied the name index before [updateState] went through it. *)
Lemma second_session_starts_with_synced_pin :
  (fun c => (m_connectionState c, m_pinsByName c !! "x", QHalPin.synced (heap c 0%nat)))
    <$> @run Sample.conversions Sample.secondSession Sample.comp0
  = Some (Connecting, Some 0%nat, true).
Proof. by_evaluation. Qed.

(** The same on one session: an update that arrives while the component is
    in [Error] and the subscription sub-state is still [Up] sets synced on
    the pin it names and leaves the component in [Error]. *)
Lemma update_in_Error_syncs_pin :
  (fun c => (m_connectionState c, m_error c, m_sState c, m_pinsByName c !! "x",
             QHalPin.synced (heap c 0%nat)))
    <$> @run Sample.conversions Sample.updateAfterReject Sample.comp0
  = Some (Error, PinChangeError, Up, Some 0%nat, true).
Proof. by_evaluation. Qed.

(** C6, as stated, fails: after S1, a first tick of the command heartbeat
    sends a PING, the second finds it outstanding and sends another one; the
    component is then in [Error] with [TimeoutError], two PINGs have been
    sent, and neither heartbeat can tick any more. *)
Lemma command_timeout_ends_pinging :
  (fun c => (m_connectionState c, m_error c, pingsSent c,
             enabled (EvHalrcmdHeartbeatTick None) c,
             enabled (EvHalrcompHeartbeatTick None) c))
    <$> @run Sample.conversions Sample.commandTimeout Sample.comp0
  = Some (Error, TimeoutError, 2%nat, false, false).
Proof. by_evaluation. Qed.

Lemma pinWrite_SET_only_when_Connected_and_not_In_witness :
  let c' := default Sample.connected
              (@pinWrite Sample.conversions 0%nat (QVDouble 2) None Sample.connected) in
  @pinWrite Sample.conversions 0%nat (QVDouble 2) None Sample.connected = Some c'
  /\ exists new, trace c' = trace Sample.connected ++ new
       /\ forall o, o ∈ new ->
            isSET o /\ m_connectionState Sample.connected = Connected
            /\ QHalPin.direction (heap Sample.connected 0%nat) <> QHalPin.In.
Proof.
  intros c'. assert (Hrun : @pinWrite Sample.conversions 0%nat (QVDouble 2) None Sample.connected
                            = Some c') by by_running.
  split; [exact Hrun|].
  exact (pinWrite_SET_only_when_Connected_and_not_In 0%nat (QVDouble 2) None
           Sample.connected c' Hrun).
Defined.


Lemma full_update_merges_into_handle_index_witness :
  let c' := default Sample.connected
              (halrcompMessageReceived "comp" Sample.renumbered Sample.connected) in
  halrcompMessageReceived "comp" Sample.renumbered Sample.connected = Some c'
  /\ m_pinsByHandle c'
     = installed (carried (m_pinsByName Sample.connected) (allPins Sample.renumbered))
         (m_pinsByHandle Sample.connected)
  /\ forall h, h ∉ map pb.handle (allPins Sample.renumbered) ->
               m_pinsByHandle c' !! h = m_pinsByHandle Sample.connected !! h.
Proof.
  intros c'.
  assert (Hrun : halrcompMessageReceived "comp" Sample.renumbered Sample.connected = Some c')
    by by_running.
  split; [exact Hrun|].
  exact (full_update_merges_into_handle_index "comp" Sample.renumbered Sample.connected c'
           eq_refl Hrun).
Defined.

Lemma ping_acknowledge_recovers_only_from_timeout_witness :
  m_connectionState Sample.subscriptionExpired = Error
  /\ m_error Sample.subscriptionExpired = TimeoutError
  /\ exists c',
       halrcmdMessageReceived (pb.cleared pb.MT_PING_ACKNOWLEDGE) Sample.subscriptionExpired
       = Some c'
       /\ m_halrcmdPingOutstanding c' = false
       /\ if decide (m_connectionState Sample.subscriptionExpired = Error
                     /\ m_error Sample.subscriptionExpired = TimeoutError) then
            m_error c' = NoError /\ m_errorString c' = ""
            /\ m_connectionState c' = Connected
            /\ m_sState c' = Trying
            /\ trace c' = trace Sample.subscriptionExpired
                          ++ [HalrcompSubscribe (m_name Sample.subscriptionExpired)]
          else
            m_connectionState c' = m_connectionState Sample.subscriptionExpired
            /\ m_error c' = m_error Sample.subscriptionExpired
            /\ m_errorString c' = m_errorString Sample.subscriptionExpired
            /\ trace c' = trace Sample.subscriptionExpired.
Proof.
  split; [by_evaluation|]. split; [by_evaluation|].
  apply (ping_acknowledge_recovers_only_from_timeout (pb.cleared pb.MT_PING_ACKNOWLEDGE)
           Sample.subscriptionExpired {| messageReceivedConnected := true |}).
  - reflexivity.
  - by_evaluation.
Defined.

Lemma bind_envelope_describes_registered_pins_witness :
  let c' := default Sample.completed
              (@step Sample.conversions (EvSetReady true None None) Sample.completed) in
  @run Sample.conversions (take 1 Sample.s1) Sample.comp0 = Some Sample.completed
  /\ @step Sample.conversions (EvSetReady true None None) Sample.completed = Some c'
  /\ exists new, trace c' = trace Sample.completed ++ new
       /\ forall data,
            HalrcmdSend data ∈ new -> pb.type data = pb.MT_HALRCOMP_BIND ->
            @isBindOf Sample.conversions c' data
            /\ (NoDup ((fun pin => QHalPin.name (heap c' pin)) <$> eligiblePins c') ->
                registeredPins c' ≡ₚ eligiblePins c').
Proof.
  intros c'.
  assert (Hrun : @run Sample.conversions (take 1 Sample.s1) Sample.comp0 = Some Sample.completed)
    by by_running.
  assert (Hstep : @step Sample.conversions (EvSetReady true None None) Sample.completed = Some c')
    by by_running.
  split; [exact Hrun|]. split; [exact Hstep|].
  exact (bind_envelope_describes_registered_pins "tcp://h:5001" "tcp://h:5002" "comp" 3000
           (Some Sample.container) Sample.pins (take 1 Sample.s1) Sample.completed
           (EvSetReady true None None) c' Hrun Hstep).
Defined.

Lemma command_timeout_pings_once_and_stops_heartbeats_witness :
  m_connectionState Sample.pinged = Connected
  /\ m_halrcmdPingOutstanding Sample.pinged = true
  /\ exists c', @halrcmdHeartbeatTimerTick None Sample.pinged = Some c'
       /\ m_connectionState c' = Error
       /\ (@None zmq_error = None -> m_error c' = TimeoutError)
       /\ trace c' = trace Sample.pinged ++ [HalrcompUnsubscribe (m_name Sample.pinged); ping]
       /\ isActive (m_halrcmdHeartbeatTimer c') = false
       /\ isActive (m_halrcompHeartbeatTimer c') = false
       /\ m_halrcmdPingOutstanding c' = true.
Proof.
  assert (Hs : m_connectionState Sample.pinged = Connected) by by_evaluation.
  assert (Ho : m_halrcmdPingOutstanding Sample.pinged = true) by by_evaluation.
  split; [exact Hs|]. split; [exact Ho|].
  apply (proj1 (@command_timeout_pings_once_and_stops_heartbeats Sample.conversions) None
           Sample.pinged {| messageReceivedConnected := true |}
           {| messageReceivedConnected := true |} Hs Ho); by_evaluation.
Defined.

Lemma heartbeat_period_zero_witness :
  m_heartbeatPeriod Sample.connected = 3000
  /\ exists c', halrcompHeartbeatTimerTick None Sample.connected = Some c'
       /\ trace c' = trace Sample.connected
                     ++ [HalrcompUnsubscribe (m_name Sample.connected); ping].
Proof.
  split; [by_evaluation|].
  apply (proj2 (@heartbeat_period_zero_disables_command_heartbeat_only Sample.conversions) None
           Sample.connected {| messageReceivedConnected := true |}
           {| messageReceivedConnected := true |}); by_evaluation.
Defined.

(** * Further properties of the slots *)

(** ** Entering [Error] *)

(** What [updateError] followed by [updateState(Error)] leaves behind. *)
Lemma enter_Error kind text c :
  m_connectionState (updateState Error (updateError kind text c)) = Error
  /\ m_error (updateState Error (updateError kind text c)) = kind
  /\ m_errorString (updateState Error (updateError kind text c)) = text
  /\ trace (updateState Error (updateError kind text c)) = trace c
  /\ m_sState (updateState Error (updateError kind text c)) = m_sState c
  /\ m_cState (updateState Error (updateError kind text c)) = m_cState c
  /\ m_pinsByName (updateState Error (updateError kind text c)) = m_pinsByName c
  /\ (m_connectionState c = Connected ->
      forall pin, pin ∈ registeredPins c ->
        QHalPin.synced (heap (updateState Error (updateError kind text c)) pin) = false)
  /\ (m_connectionState c <> Error ->
      isActive (m_halrcmdHeartbeatTimer (updateState Error (updateError kind text c))) = false
      /\ isActive (m_halrcompHeartbeatTimer (updateState Error (updateError kind text c)))
         = false).
Proof.
  assert (Hc1 : m_connectionState (updateError kind text c) = m_connectionState c
                /\ m_error (updateError kind text c) = kind
                /\ m_errorString (updateError kind text c) = text
                /\ trace (updateError kind text c) = trace c
                /\ m_sState (updateError kind text c) = m_sState c
                /\ m_cState (updateError kind text c) = m_cState c
                /\ m_pinsByName (updateError kind text c) = m_pinsByName c
                /\ heap (updateError kind text c) = heap c) by (repeat split).
  revert Hc1. generalize (updateError kind text c).
  intros c1 (Hs & He & Ht & Htr & Hss & Hcs & Hn & Hh).
  rewrite updateState_connectionState, updateState_trace.
  destruct (updateState_error Error c1) as [-> ->].
  destruct (updateState_substates Error c1) as [-> ->].
  destruct (updateState_registry Error c1) as (-> & _ & _).
  repeat split; try assumption.
  - intros Hconn pin Hin.
    rewrite updateState_heap_leaving by (congruence || discriminate).
    unfold unsynced.
    destruct (decide (pin ∈ registeredPins c1)) as [|Hnot]; [reflexivity|].
    exfalso. apply Hnot. unfold registeredPins. rewrite Hn. exact Hin.
  - apply updateState_stops_heartbeats; [discriminate | congruence].
  - apply updateState_stops_heartbeats; [discriminate | congruence].
Qed.

Lemma append_empty (s : string) : s +:+ "" = s.
Proof.
  induction s as [|a s IH]; [reflexivity|].
  change (String a (s +:+ "") = String a s). by rewrite IH.
Qed.

Lemma append_associative (s t u : string) : (s +:+ t) +:+ u = s +:+ (t +:+ u).
Proof.
  induction s as [|a s IH]; [reflexivity|].
  change (String a ((s +:+ t) +:+ u) = String a (s +:+ (t +:+ u))). by rewrite IH.
Qed.

Lemma notes_from (l : list string) (text : string) :
  foldl (fun errorString n => errorString +:+ n +:+ String "010" "") text l
  = text +:+ noteLines l.
Proof.
  revert text. induction l as [|n l IH]; intros text.
  - apply eq_sym, append_empty.
  - change (foldl (fun errorString n => errorString +:+ n +:+ String "010" "")
              (text +:+ n +:+ String "010" "") l
            = text +:+ noteLines (n :: l)).
    rewrite IH, !append_associative. reflexivity.
Qed.

Lemma notes_noteLines rx : notes rx = noteLines (pb.note rx).
Proof. unfold notes. apply notes_from. Qed.

(** X1.  A BIND_REJECT or SET_REJECT on the command socket puts the
    component into [Error] with [BindError], respectively [PinChangeError];
    the error string is the notes of the envelope, each followed by a
    newline; the command sub-state is [Down], the subscription sub-state and
    the transport are left alone, and if the component was [Connected] every
    pin of the name index is unsynced. *)
Theorem reject_enters_Error rx c :
  pb.type rx = pb.MT_HALRCOMP_BIND_REJECT \/ pb.type rx = pb.MT_HALRCOMP_SET_REJECT ->
  exists c', halrcmdMessageReceived rx c = Some c'
    /\ m_connectionState c' = Error
    /\ m_error c' = (if decide (pb.type rx = pb.MT_HALRCOMP_BIND_REJECT)
                     then BindError else PinChangeError)
    /\ m_errorString c' = noteLines (pb.note rx)
    /\ m_cState c' = Down
    /\ m_sState c' = m_sState c
    /\ trace c' = trace c
    /\ (m_connectionState c = Connected ->
        forall pin, pin ∈ registeredPins c -> QHalPin.synced (heap c' pin) = false).
Proof.
  unfold halrcmdMessageReceived. rewrite notes_noteLines.
  intros [Hty|Hty]; rewrite Hty; eexists; (split; [reflexivity|]);
    match goal with
    | |- context [updateState Error (updateError ?kind ?text ?c0)] =>
        destruct (enter_Error kind text c0) as (-> & -> & -> & -> & -> & -> & _ & Hsync & _)
    end;
    (destruct (decide _) as [Hd|Hd]; [|try contradiction]; try discriminate Hd);
    repeat split; exact Hsync.
Qed.

(** X2.  A HALRCOMMAND_ERROR on the update socket puts the component into
    [Error] with [CommandError] and the notes as error string, and the
    subscription sub-state is [Down]; the command sub-state is left alone and
    nothing is sent or unsubscribed. *)
Theorem subscription_error_enters_Error topic rx c :
  pb.type rx = pb.MT_HALRCOMMAND_ERROR ->
  exists c', halrcompMessageReceived topic rx c = Some c'
    /\ m_connectionState c' = Error
    /\ m_error c' = CommandError
    /\ m_errorString c' = noteLines (pb.note rx)
    /\ m_sState c' = Down
    /\ m_cState c' = m_cState c
    /\ trace c' = trace c
    /\ (m_connectionState c = Connected ->
        forall pin, pin ∈ registeredPins c -> QHalPin.synced (heap c' pin) = false).
Proof.
  unfold halrcompMessageReceived. rewrite notes_noteLines. intros Hty. rewrite Hty.
  eexists. split; [reflexivity|].
  destruct (enter_Error CommandError (noteLines (pb.note rx)) (set_m_sState Down c))
    as (-> & -> & -> & -> & -> & -> & _ & Hsync & _).
  repeat split. exact Hsync.
Qed.

(** ** Unsyncing *)

(** X3.  [updateState] touches the pins in one case only: when it leaves
    [Connected], every pin of the name index loses its synced flag, and
    nothing else of any pin changes; pins outside the name index and all other
    transitions leave the pins as they are. *)
Theorem updateState_unsyncs_registered_pins_on_leaving_Connected state c pin :
  heap (updateState state c) pin
  = if decide (m_connectionState c = Connected /\ state <> Connected
               /\ pin ∈ registeredPins c)
    then QHalPin.setSynced false (heap c pin)
    else heap c pin.
Proof.
  destruct (decide (m_connectionState c = Connected)) as [Hs|Hs].
  - destruct (decide (state = Connected)) as [->|Hne].
    + rewrite updateState_same by exact Hs. case_decide; [tauto | reflexivity].
    + rewrite updateState_heap_leaving by assumption. unfold unsynced.
      repeat case_decide; try reflexivity; tauto.
  - rewrite updateState_heap by exact Hs. case_decide; [tauto | reflexivity].
Qed.

(** ** Failures of the transport *)

Section TransportFailures.

Context `{QVariantConversions}.

(** X4.  When the sockets cannot be connected, [start] leaves the component
    in [Error] with [SocketError] and the text [Error <num>: <what>]; no
    envelope is sent, the name index and the pin connections are as before,
    both heartbeat timers are stopped, and neither socket will deliver a
    message: their signals were never connected. *)
Theorem connect_failure_enters_Error e sendExc c :
  exists c', start (Some e) sendExc c = Some c'
    /\ m_connectionState c' = Error
    /\ m_error c' = SocketError
    /\ m_errorString c' = errorText (num e) (what e)
    /\ m_cState c' = Trying
    /\ trace c' = trace c
    /\ m_pinsByName c' = m_pinsByName c
    /\ valueChangedConnections c' = valueChangedConnections c
    /\ isActive (m_halrcmdHeartbeatTimer c') = false
    /\ isActive (m_halrcompHeartbeatTimer c') = false
    /\ (forall rx, enabled (EvHalrcmdMessage rx) c' = false)
    /\ (forall topic rx, enabled (EvHalrcompMessage topic rx) c' = false).
Proof.
  unfold start.
  pose proof (updateState_trace Connecting (set_m_cState Trying c)) as Htr1.
  pose proof (updateState_connectionState Connecting (set_m_cState Trying c)) as Hs1.
  destruct (updateState_registry Connecting (set_m_cState Trying c)) as (Hn1 & _ & _).
  destruct (updateState_config Connecting (set_m_cState Trying c)) as (_ & _ & _ & _ & Hv1).
  destruct (updateState_substates Connecting (set_m_cState Trying c)) as (_ & Hc1).
  revert Htr1 Hs1 Hn1 Hv1 Hc1. generalize (updateState Connecting (set_m_cState Trying c)).
  intros c1 Htr1 Hs1 Hn1 Hv1 Hc1.
  unfold connectSockets. cbv beta iota zeta.
  eexists. split; [reflexivity|].
  match goal with
  | |- context [updateState Error (updateError ?kind ?text ?c0)] =>
      destruct (enter_Error kind text c0) as (-> & -> & -> & -> & _ & -> & -> & _ & Htimers);
      destruct (updateState_config Error (updateError kind text c0)) as (_ & _ & _ & _ & ->);
      destruct Htimers as [-> ->]; [change (m_connectionState c1 <> Error); congruence|];
      unfold enabled;
      destruct (updateState_sockets Error (updateError kind text c0)) as (-> & -> & _)
  end.
  repeat split; try assumption; reflexivity.
Qed.

(** X5.  When the send of a SET raises while the component is [Connected],
    the slot leaves it in [Error] with [SocketError] and the text
    [Error <num>: <what>], every pin of the name index is unsynced and both
    heartbeat timers are stopped. *)
Theorem failed_SET_enters_Error sender e c s :
  m_connectionState c = Connected ->
  QHalPin.direction (heap c sender) <> QHalPin.In ->
  m_halrcmdSocket c = Some s ->
  exists c', pinChange sender (Some e) c = Some c'
    /\ m_connectionState c' = Error
    /\ m_error c' = SocketError
    /\ m_errorString c' = errorText (num e) (what e)
    /\ trace c' = trace c ++ [HalrcmdSend (setMessage c sender)]
    /\ (forall pin, pin ∈ registeredPins c -> QHalPin.synced (heap c' pin) = false)
    /\ isActive (m_halrcmdHeartbeatTimer c') = false
    /\ isActive (m_halrcompHeartbeatTimer c') = false.
Proof.
  intros Hs Hd Hsock. unfold pinChange.
  destruct (decide (m_connectionState c <> Connected)); [contradiction|].
  destruct (decide (QHalPin.direction (heap c sender) = QHalPin.In)); [contradiction|].
  rewrite (sendHalrcmdMessage_live _ _ _ s Hsock).
  eexists. split; [reflexivity|].
  match goal with
  | |- context [updateState Error (updateError ?kind ?text ?c0)] =>
      destruct (enter_Error kind text c0) as (-> & -> & -> & -> & _ & _ & _ & Hsync & Htimers)
  end.
  destruct Htimers as [-> ->]; [change (m_connectionState c <> Error); congruence|].
  repeat split. intros pin Hin. apply Hsync; [exact Hs | exact Hin].
Qed.

(** X6.  When the subscription heartbeat expires while the component is
    [Connected], the slot leaves it in [Error] (with [TimeoutError] and the
    text of the subscription timeout unless the PING could not be sent), the
    sub-states are [Trying] for the command socket and [Down] for the
    subscription, every pin of the name index is unsynced, both heartbeat
    timers are stopped and the subscription ping is marked outstanding. *)
Theorem subscription_timeout_enters_Error exc c s s' :
  m_connectionState c = Connected ->
  m_halrcmdSocket c = Some s -> m_halrcompSocket c = Some s' ->
  exists c', halrcompHeartbeatTimerTick exc c = Some c'
    /\ m_connectionState c' = Error
    /\ (exc = None ->
        m_error c' = TimeoutError /\ m_errorString c' = "Halrcomp service timed out")
    /\ m_cState c' = Trying /\ m_sState c' = Down
    /\ (forall pin, pin ∈ registeredPins c -> QHalPin.synced (heap c' pin) = false)
    /\ isActive (m_halrcmdHeartbeatTimer c') = false
    /\ isActive (m_halrcompHeartbeatTimer c') = false
    /\ m_halrcompPingOutstanding c' = true.
Proof.
  intros Hs Hcmd Hcomp. unfold halrcompHeartbeatTimerTick.
  rewrite (unsubscribe_live (set_m_cState Trying c) s' Hcomp), bind_Some_l. cbv beta zeta.
  match goal with
  | |- context [updateState Error (updateError ?kind ?text ?c0)] =>
      destruct (enter_Error kind text c0)
        as (Hs1 & He1 & Ht1 & _ & Hss1 & Hcs1 & _ & Hsync & Htimers);
      destruct (updateState_sockets Error (updateError kind text c0)) as (Hsock1 & _);
      revert Hs1 He1 Ht1 Hss1 Hcs1 Hsync Htimers Hsock1;
      generalize (updateState Error (updateError kind text c0))
  end.
  intros c1 Hs1 He1 Ht1 Hss1 Hcs1 Hsync Htimers Hsock1.
  destruct Htimers as [Hcmdt Hcompt]; [change (m_connectionState c <> Error); congruence|].
  assert (Hsock : m_halrcmdSocket c1 = Some s) by (rewrite Hsock1; exact Hcmd).
  rewrite (sendHalrcmdMessage_live _ _ _ s Hsock), bind_Some_l.
  eexists. split; [reflexivity|].
  destruct exc as [e|].
  - match goal with
    | |- context [updateState Error ?x] => rewrite (updateState_same Error x Hs1)
    end.
    repeat split; try assumption; try discriminate.
    intros pin Hin. apply (Hsync Hs pin Hin).
  - repeat split; try assumption. intros pin Hin. apply (Hsync Hs pin Hin).
Qed.

End TransportFailures.

(** The failures above on the sample component. *)
Lemma reject_enters_Error_witness :
  let rx := {| pb.type := pb.MT_HALRCOMP_SET_REJECT; pb.comp := []; pb.pin := [];
               pb.note := ["pin x"; "is read-only"]; pb.pparams := None |} in
  (pb.type rx = pb.MT_HALRCOMP_BIND_REJECT \/ pb.type rx = pb.MT_HALRCOMP_SET_REJECT)
  /\ exists c', halrcmdMessageReceived rx Sample.connected = Some c'
       /\ m_connectionState c' = Error
       /\ m_error c' = (if decide (pb.type rx = pb.MT_HALRCOMP_BIND_REJECT)
                        then BindError else PinChangeError)
       /\ m_errorString c' = noteLines (pb.note rx)
       /\ m_cState c' = Down
       /\ m_sState c' = m_sState Sample.connected
       /\ trace c' = trace Sample.connected
       /\ (m_connectionState Sample.connected = Connected ->
           forall pin, pin ∈ registeredPins Sample.connected ->
             QHalPin.synced (heap c' pin) = false).
Proof.
  intros rx. split; [right; reflexivity|].
  apply (reject_enters_Error rx Sample.connected). right. reflexivity.
Defined.

Lemma subscription_error_enters_Error_witness :
  let rx := {| pb.type := pb.MT_HALRCOMMAND_ERROR; pb.comp := []; pb.pin := [];
               pb.note := ["no such component"]; pb.pparams := None |} in
  pb.type rx = pb.MT_HALRCOMMAND_ERROR
  /\ exists c', halrcompMessageReceived "comp" rx Sample.connected = Some c'
       /\ m_connectionState c' = Error
       /\ m_error c' = CommandError
       /\ m_errorString c' = noteLines (pb.note rx)
       /\ m_sState c' = Down
       /\ m_cState c' = m_cState Sample.connected
       /\ trace c' = trace Sample.connected
       /\ (m_connectionState Sample.connected = Connected ->
           forall pin, pin ∈ registeredPins Sample.connected ->
             QHalPin.synced (heap c' pin) = false).
Proof.
  intros rx. split; [reflexivity|].
  apply (subscription_error_enters_Error "comp" rx Sample.connected). reflexivity.
Defined.

Lemma failed_SET_enters_Error_witness :
  let e := {| num := 11; what := "Resource temporarily unavailable" |} in
  m_connectionState Sample.connected = Connected
  /\ QHalPin.direction (heap Sample.connected 0%nat) <> QHalPin.In
  /\ m_halrcmdSocket Sample.connected = Some {| messageReceivedConnected := true |}
  /\ exists c', @pinChange Sample.conversions 0%nat (Some e) Sample.connected = Some c'
       /\ m_connectionState c' = Error
       /\ m_error c' = SocketError
       /\ m_errorString c' = errorText (num e) (what e)
       /\ trace c' = trace Sample.connected
                     ++ [HalrcmdSend (@setMessage Sample.conversions Sample.connected 0%nat)]
       /\ (forall pin, pin ∈ registeredPins Sample.connected ->
             QHalPin.synced (heap c' pin) = false)
       /\ isActive (m_halrcmdHeartbeatTimer c') = false
       /\ isActive (m_halrcompHeartbeatTimer c') = false.
Proof.
  intros e.
  assert (Hs : m_connectionState Sample.connected = Connected) by by_evaluation.
  assert (Hd : QHalPin.direction (heap Sample.connected 0%nat) <> QHalPin.In)
    by (vm_compute; discriminate).
  assert (Hsock : m_halrcmdSocket Sample.connected
                  = Some {| messageReceivedConnected := true |}) by by_evaluation.
  split; [exact Hs|]. split; [exact Hd|]. split; [exact Hsock|].
  exact (@failed_SET_enters_Error Sample.conversions 0%nat e Sample.connected _ Hs Hd Hsock).
Defined.

Lemma subscription_timeout_enters_Error_witness :
  let s := {| messageReceivedConnected := true |} in
  m_connectionState Sample.connected = Connected
  /\ m_halrcmdSocket Sample.connected = Some s
  /\ m_halrcompSocket Sample.connected = Some s
  /\ exists c', halrcompHeartbeatTimerTick None Sample.connected = Some c'
       /\ m_connectionState c' = Error
       /\ (@None zmq_error = None ->
           m_error c' = TimeoutError /\ m_errorString c' = "Halrcomp service timed out")
       /\ m_cState c' = Trying /\ m_sState c' = Down
       /\ (forall pin, pin ∈ registeredPins Sample.connected ->
             QHalPin.synced (heap c' pin) = false)
       /\ isActive (m_halrcmdHeartbeatTimer c') = false
       /\ isActive (m_halrcompHeartbeatTimer c') = false
       /\ m_halrcompPingOutstanding c' = true.
Proof.
  intros s.
  assert (Hs : m_connectionState Sample.connected = Connected) by by_evaluation.
  assert (Hcmd : m_halrcmdSocket Sample.connected = Some s) by by_evaluation.
  assert (Hcomp : m_halrcompSocket Sample.connected = Some s) by by_evaluation.
  split; [exact Hs|]. split; [exact Hcmd|]. split; [exact Hcomp|].
  exact (subscription_timeout_enters_Error None Sample.connected s s Hs Hcmd Hcomp).
Defined.

(** ** The pins of the container *)

(** Induction on an object tree, with the property known for all children. *)
Lemma QObject_tree_ind (P : QObject -> Prop) :
  (forall qhalpin children, Forall P children -> P (mkQObject qhalpin children)) ->
  forall object, P object.
Proof.
  intros Hstep. fix IH 1. intros [qhalpin children]. apply Hstep.
  induction children as [|child children IHchildren]; constructor;
    [apply IH | exact IHchildren].
Qed.

Lemma recurseObject_holds object pin : pin ∈ recurseObject object <-> holds pin object.
Proof.
  revert pin. induction object as [qhalpin children IH] using QObject_tree_ind.
  intros pin. rewrite Forall_forall in IH. split.
  - simpl. rewrite elem_of_app. intros [Hin|Hin].
    + destruct qhalpin as [pin'|]; [|by apply elem_of_nil in Hin].
      apply list_elem_of_singleton in Hin as ->. constructor.
    + case_decide; [|by apply elem_of_nil in Hin].
      apply list_elem_of_In, in_flat_map in Hin as (child & Hchild & Hin).
      apply list_elem_of_In in Hchild, Hin.
      apply holds_below with child; [exact Hchild | by apply IH].
  - intros Hholds. simpl. rewrite elem_of_app.
    inversion Hholds as [children' | qhalpin' children' child Hchild Hbelow]; subst.
    + left. apply list_elem_of_singleton. reflexivity.
    + right. case_decide as Hlen.
      * apply list_elem_of_In, in_flat_map. exists child.
        split; apply list_elem_of_In; [exact Hchild | by apply IH].
      * destruct children; [by apply elem_of_nil in Hchild | simpl in Hlen; lia].
Qed.

(** X7.  [recurseObjects] finds exactly the pins of the object trees it is
    given, at any depth: a pin is in its result if and only if one of the
    objects holds it, be it below an item that is no pin or below another
    pin. *)
Theorem recurseObjects_finds_pins_at_any_depth objects pin :
  pin ∈ recurseObjects objects <-> exists object, object ∈ objects /\ holds pin object.
Proof.
  unfold recurseObjects. rewrite list_elem_of_In, in_flat_map. split.
  - intros (object & Hobject & Hin). exists object.
    split; [by apply list_elem_of_In | by apply recurseObject_holds, list_elem_of_In].
  - intros (object & Hobject & Hholds). exists object.
    split; [by apply list_elem_of_In | by apply list_elem_of_In, recurseObject_holds].
Qed.

(** ** The transitions of the connection state *)

Lemma among_refl states c : among states c c.
Proof. left. reflexivity. Qed.

Lemma among_trans states c1 c2 c3 :
  among states c1 c2 -> among states c2 c3 -> among states c1 c3.
Proof. unfold among. intros [H12|H12] [H23|H23]; rewrite ?H23; auto. Qed.

Lemma among_mono states states' c c' :
  (forall state, state ∈ states -> state ∈ states') -> among states c c' -> among states' c c'.
Proof. unfold among. intros Hsub [Hsame|Hin]; auto. Qed.

Lemma among_updateState state c : among [state] c (updateState state c).
Proof. right. rewrite updateState_connectionState. constructor. Qed.

(** A slot that ends in [updateState(state)] after steps that keep the
    connection state. *)
Lemma among_then_updateState state c c1 :
  m_connectionState c1 = m_connectionState c -> among [state] c (updateState state c1).
Proof.
  intros Hsame. eapply among_trans; [left; exact Hsame | apply among_updateState].
Qed.

Section Transitions.

Context `{QVariantConversions}.

Lemma among_sendHalrcmdMessage data exc c c' :
  sendHalrcmdMessage data exc c = Some c' -> among [Error] c c'.
Proof.
  unfold sendHalrcmdMessage. intros Hrun. slot_cases.
  - apply among_then_updateState. reflexivity.
  - left. reflexivity.
Qed.

Lemma among_subscribe states c c' : subscribe c = Some c' -> among states c c'.
Proof. unfold subscribe. intros Hrun. slot_cases. left. reflexivity. Qed.

Lemma among_unsubscribe states c c' : unsubscribe c = Some c' -> among states c c'.
Proof. unfold unsubscribe. intros Hrun. slot_cases. left. reflexivity. Qed.

Lemma among_pinChange sender exc c c' : pinChange sender exc c = Some c' -> among [Error] c c'.
Proof.
  unfold pinChange. intros Hrun. slot_cases; try apply among_refl.
  eapply among_sendHalrcmdMessage. eassumption.
Qed.

Lemma among_pinWrite pin v exc c c' : pinWrite pin v exc c = Some c' -> among [Error] c c'.
Proof.
  unfold pinWrite. intros Hrun.
  eapply among_trans;
    [| eapply (forEach_frame (among [Error]) (among_refl _) (among_trans _)); [|exact Hrun]].
  - left. reflexivity.
  - intros c1 sender c2 Hc2. eapply among_pinChange, Hc2.
Qed.

Lemma among_start connectExc sendExc c c' :
  start connectExc sendExc c = Some c' -> among [Connecting; Error] c c'.
Proof.
  unfold start, bind, connectSockets.
  assert (Hc1 : among [Connecting; Error] c (updateState Connecting (set_m_cState Trying c))).
  { eapply among_mono; [|apply among_then_updateState; reflexivity].
    intros state Hin. apply list_elem_of_singleton in Hin as ->. constructor. }
  revert Hc1. generalize (updateState Connecting (set_m_cState Trying c)). intros c1 Hc1.
  cbv beta iota zeta. intros Hrun. eapply among_trans; [exact Hc1|].
  eapply among_mono with (states := [Error]).
  { intros state Hin. apply list_elem_of_singleton in Hin as ->. repeat constructor. }
  destruct connectExc as [e|].
  - injection Hrun as <-. apply among_then_updateState. reflexivity.
  - eapply among_trans; [|eapply among_sendHalrcmdMessage, Hrun].
    left. destruct (addPins_frame
      (set_m_halrcmdSocket (Some {| messageReceivedConnected := true |})
         (set_m_halrcompSocket (Some {| messageReceivedConnected := true |})
            (set_m_halrcompSocket (Some {| messageReceivedConnected := false |})
               (set_m_halrcmdSocket (Some {| messageReceivedConnected := false |})
                  (set_m_context (Some {| pollErrorConnected := true |}) c1))))))
      as (_ & _ & _ & _ & -> & _).
    reflexivity.
Qed.

Lemma among_stop c : among [Disconnected] c (stop c).
Proof.
  unfold stop. cbv zeta.
  match goal with
  | |- context [updateState Disconnected ?x] =>
      pose proof (updateState_connectionState Disconnected x) as Hs; revert Hs;
      generalize (updateState Disconnected x)
  end.
  intros c1 Hs. right. change (m_connectionState c1 ∈ [Disconnected]). rewrite Hs. constructor.
Qed.

Lemma among_fullUpdateComponents (comps : list pb.Component) c c' :
  forEach fullUpdateComponent comps c = Some c' -> among [Connected] c c'.
Proof.
  apply (forEach_frame (among [Connected]) (among_refl _) (among_trans _)).
  clear. intros c comp c' Hrun. unfold fullUpdateComponent in Hrun.
  destruct (forEach fullUpdatePin (pb.Component_pin comp) c) as [c1|] eqn:Hc1;
    cbn [mbind option_bind] in Hrun; [|discriminate].
  injection Hrun as <-.
  assert (Hsame : among [Connected] c c1).
  { revert Hc1. apply (forEach_frame (among [Connected]) (among_refl _) (among_trans _)).
    clear. intros c remotePin c' Hrun. apply fullUpdatePin_seedPin in Hrun as (pin & _ & ->).
    left. unfold seedPin. case_match; reflexivity. }
  eapply among_trans; [exact Hsame|]. unfold subscriptionUp.
  case_decide; [apply among_then_updateState; reflexivity | apply among_refl].
Qed.

Lemma among_halrcompMessageReceived topic rx c c' :
  halrcompMessageReceived topic rx c = Some c' ->
  among (transitions (EvHalrcompMessage topic rx) c) c c'.
Proof.
  unfold halrcompMessageReceived, transitions. intros Hrun.
  destruct (pb.type rx); try (injection Hrun as <-); try apply among_refl.
  - destruct (forEach fullUpdateComponent (pb.comp rx) c) as [c1|] eqn:Hc1;
      cbn [mbind option_bind] in Hrun; [|discriminate].
    injection Hrun as <-. apply among_fullUpdateComponents in Hc1.
    eapply among_trans; [exact Hc1|]. left.
    destruct (pb.pparams rx); [|reflexivity].
    unfold startHalrcompHeartbeat. case_decide; reflexivity.
  - destruct (forEach incrementalUpdatePin (pb.pin rx) c) as [c1|] eqn:Hc1;
      cbn [mbind option_bind] in Hrun; [|discriminate].
    injection Hrun as <-. apply incrementalUpdate_heap_only in Hc1 as [h ->].
    destruct (refreshHalrcompHeartbeat_frame (subscriptionUp (set_heap h c))) as (Hs & _).
    unfold among. rewrite Hs. unfold subscriptionUp.
    case_decide; [apply among_then_updateState; reflexivity | left; reflexivity].
  - apply among_then_updateState. reflexivity.
  - left. unfold refreshHalrcompHeartbeat. case_match; reflexivity.
Qed.

Lemma among_halrcmdMessageReceived rx c c' :
  halrcmdMessageReceived rx c = Some c' ->
  among (transitions (EvHalrcmdMessage rx) c) c c'.
Proof.
  unfold halrcmdMessageReceived, transitions. intros Hrun.
  destruct (pb.type rx); try (injection Hrun as <-); try apply among_refl.
  - eapply among_trans; [|eapply among_subscribe, Hrun]. left. reflexivity.
  - apply among_then_updateState. reflexivity.
  - apply among_then_updateState. reflexivity.
  - cbv zeta in Hrun.
    change (m_connectionState
              (set_m_halrcmdPingOutstanding false (set_m_cState Up c)) = Error
            /\ m_error (set_m_halrcmdPingOutstanding false (set_m_cState Up c)) = TimeoutError)
      with (m_connectionState c = Error /\ m_error c = TimeoutError) in Hrun.
    destruct (decide (m_connectionState c = Error /\ m_error c = TimeoutError)).
    + eapply among_trans; [|eapply among_subscribe, Hrun].
      apply among_then_updateState. reflexivity.
    + injection Hrun as <-. left. reflexivity.
Qed.

Lemma among_halrcmdHeartbeatTimerTick exc c c' :
  halrcmdHeartbeatTimerTick exc c = Some c' -> among [Error] c c'.
Proof.
  unfold halrcmdHeartbeatTimerTick. intros Hrun.
  match type of Hrun with
  | mbind _ ?x = _ => destruct x as [c1|] eqn:Hc1; cbn [mbind option_bind] in Hrun;
                      [|discriminate]
  end.
  destruct (sendHalrcmdMessage (pb.cleared pb.MT_PING) exc c1) as [c2|] eqn:Hc2;
    cbn [mbind option_bind] in Hrun; [|discriminate].
  injection Hrun as <-. apply among_sendHalrcmdMessage in Hc2.
  eapply among_trans; [|eapply among_trans; [exact Hc2 | left; reflexivity]].
  destruct (m_halrcmdPingOutstanding c).
  - destruct (unsubscribe (set_m_cState Trying c)) as [c3|] eqn:Hc3;
      cbn [mbind option_bind] in Hc1; [|discriminate].
    injection Hc1 as <-. apply (among_unsubscribe [Error]) in Hc3.
    eapply among_trans; [exact Hc3 | apply among_then_updateState; reflexivity].
  - injection Hc1 as <-. apply among_refl.
Qed.

Lemma among_halrcompHeartbeatTimerTick exc c c' :
  halrcompHeartbeatTimerTick exc c = Some c' -> among [Error] c c'.
Proof.
  unfold halrcompHeartbeatTimerTick. intros Hrun.
  destruct (unsubscribe (set_m_cState Trying c)) as [c1|] eqn:Hc1;
    cbn [mbind option_bind] in Hrun; [|discriminate].
  cbv zeta in Hrun. apply (among_unsubscribe [Error]) in Hc1.
  revert Hrun.
  pose proof (among_then_updateState Error c1
                (updateError TimeoutError "Halrcomp service timed out" c1) eq_refl) as Hc2.
  revert Hc2.
  generalize (updateState Error (updateError TimeoutError "Halrcomp service timed out" c1)).
  intros c2 Hc2 Hrun.
  destruct (sendHalrcmdMessage (pb.cleared pb.MT_PING) exc c2) as [c3|] eqn:Hc3;
    cbn [mbind option_bind] in Hrun; [|discriminate].
  injection Hrun as <-. apply among_sendHalrcmdMessage in Hc3.
  eapply among_trans; [exact Hc1|]. eapply among_trans; [exact Hc2|].
  eapply among_trans; [exact Hc3 | left; reflexivity].
Qed.

(** X8.  The transitions of the connection state.  Whatever a turn of the
    event loop does, it leaves the connection state as it is or moves it to
    one of the states of [transitions]: [Connected] is entered only by a full
    or incremental update, or by a PING_ACKNOWLEDGE while the component is in
    [Error] with [TimeoutError]; [Disconnected] only by taking [ready] back;
    [Connecting] only by [componentComplete] or by setting [ready]; every
    other change of state is a change to [Error]. *)
Theorem step_transitions ev c c' :
  step ev c = Some c' ->
  m_connectionState c' = m_connectionState c
  \/ m_connectionState c' ∈ transitions ev c.
Proof.
  unfold step. destruct (enabled ev c); [|discriminate].
  change (handle ev c = Some c' -> among (transitions ev c) c c').
  destruct ev as [connectExc sendExc | arg connectExc sendExc | pin v sendExc | topic rx | rx
                 | sendExc | sendExc | errorNum errorMsg]; intros Hrun.
  - change (componentComplete connectExc sendExc c = Some c') in Hrun.
    unfold componentComplete in Hrun. cbv zeta in Hrun.
    change (m_ready (set_m_componentCompleted true c)) with (m_ready c) in Hrun.
    destruct (m_ready c).
    + eapply among_trans; [|eapply among_start, Hrun]. left. reflexivity.
    + injection Hrun as <-. left. reflexivity.
  - change (setReady arg connectExc sendExc c = Some c') in Hrun.
    unfold setReady in Hrun. cbv zeta in Hrun.
    destruct (decide (m_ready c <> arg)); [|injection Hrun as <-; apply among_refl].
    change (m_componentCompleted (set_m_ready arg c)) with (m_componentCompleted c) in Hrun.
    change (m_ready (set_m_ready arg c)) with arg in Hrun.
    destruct (m_componentCompleted c); [|injection Hrun as <-; left; reflexivity].
    cbn [negb] in Hrun. destruct arg.
    + eapply among_trans; [|eapply among_start, Hrun]. left. reflexivity.
    + injection Hrun as <-. eapply among_trans; [|apply among_stop]. left. reflexivity.
  - eapply among_pinWrite, Hrun.
  - eapply among_halrcompMessageReceived, Hrun.
  - eapply among_halrcmdMessageReceived, Hrun.
  - eapply among_halrcmdHeartbeatTimerTick, Hrun.
  - eapply among_halrcompHeartbeatTimerTick, Hrun.
  - injection Hrun as <-. unfold pollError. apply among_then_updateState. reflexivity.
Qed.

End Transitions.

(** ** Between sessions *)

Lemma disconnectSockets_closed c :
  m_halrcmdSocket (disconnectSockets c) = None
  /\ m_halrcompSocket (disconnectSockets c) = None
  /\ m_context (disconnectSockets c) = None
  /\ m_halrcmdHeartbeatTimer (disconnectSockets c) = m_halrcmdHeartbeatTimer c
  /\ m_halrcompHeartbeatTimer (disconnectSockets c) = m_halrcompHeartbeatTimer c.
Proof. unfold disconnectSockets. repeat case_match; auto. Qed.

Lemma updateState_keeps_timers_stopped state c :
  state <> Connected ->
  isActive (m_halrcmdHeartbeatTimer c) = false ->
  isActive (m_halrcompHeartbeatTimer c) = false ->
  isActive (m_halrcmdHeartbeatTimer (updateState state c)) = false
  /\ isActive (m_halrcompHeartbeatTimer (updateState state c)) = false.
Proof.
  intros Hstate Hcmd Hcomp. destruct (decide (m_connectionState c = state)) as [Hs|Hs].
  - rewrite updateState_same by exact Hs. auto.
  - apply updateState_stops_heartbeats; assumption.
Qed.

Section BetweenSessions.

Context `{QVariantConversions}.

Lemma stop_quiet c :
  m_ready c = false ->
  quiet (stop c) /\ trace (stop c) = trace c /\ m_error (stop c) = NoError
  /\ m_componentCompleted (stop c) = m_componentCompleted c.
Proof.
  intros Hready. destruct (stop_frame c) as (_ & Htr & Hr & Hf).
  split; [|split; [exact Htr | split; [|exact Hf]]].
  - split; [by rewrite Hr|]. clear Htr Hr Hf. unfold stop. cbv zeta.
    destruct (disconnectSockets_closed (stopHalrcompHeartbeat (stopHalrcmdHeartbeat c)))
      as (Hcmd & Hcomp & Hctx & Htcmd & Htcomp).
    revert Hcmd Hcomp Hctx Htcmd Htcomp.
    generalize (disconnectSockets (stopHalrcompHeartbeat (stopHalrcmdHeartbeat c))).
    intros c1 Hcmd Hcomp Hctx Htcmd Htcomp.
    destruct (updateState_sockets Disconnected (removePins c1)) as (Hcmd2 & Hcomp2 & Hctx2).
    pose proof (updateState_connectionState Disconnected (removePins c1)) as Hs2.
    destruct (updateState_keeps_timers_stopped Disconnected (removePins c1))
      as (Htcmd2 & Htcomp2).
    { discriminate. }
    { change (isActive (m_halrcmdHeartbeatTimer c1) = false). by rewrite Htcmd. }
    { change (isActive (m_halrcompHeartbeatTimer c1) = false). by rewrite Htcomp. }
    revert Hcmd2 Hcomp2 Hctx2 Hs2 Htcmd2 Htcomp2.
    generalize (updateState Disconnected (removePins c1)).
    intros c2 Hcmd2 Hcomp2 Hctx2 Hs2 Htcmd2 Htcomp2.
    repeat split.
    + exact Hs2.
    + exact (eq_trans Hcmd2 Hcmd).
    + exact (eq_trans Hcomp2 Hcomp).
    + exact (eq_trans Hctx2 Hctx).
    + exact Htcmd2.
    + exact Htcomp2.
  - unfold stop. cbv zeta.
    generalize (updateState Disconnected
                  (removePins (disconnectSockets
                                 (stopHalrcompHeartbeat (stopHalrcmdHeartbeat c))))).
    intros c2. reflexivity.
Qed.

Lemma pinChange_not_Connected (senders : list PinRef) exc c c' :
  m_connectionState c <> Connected ->
  forEach (fun c sender => pinChange sender exc c) senders c = Some c' -> c' = c.
Proof.
  intros Hs. induction senders as [|sender senders IH]; intros Hrun.
  - by injection Hrun as <-.
  - change (pinChange sender exc c ≫= forEach (fun c sender => pinChange sender exc c) senders
            = Some c') in Hrun.
    assert (Hsame : pinChange sender exc c = Some c).
    { unfold pinChange. destruct (decide (m_connectionState c <> Connected));
        [reflexivity | contradiction]. }
    rewrite Hsame, bind_Some_l in Hrun. exact (IH Hrun).
Qed.

Lemma quiet_step ev c c' :
  quiet c -> m_componentCompleted c = true -> readies ev = false ->
  step ev c = Some c' ->
  quiet c' /\ m_componentCompleted c' = true /\ trace c' = trace c /\ m_error c' = m_error c
  /\ isLocal ev = true.
Proof.
  intros (Hr & Hs & Hcmd & Hcomp & Hctx & Htcmd & Htcomp) Hf Hev. unfold step.
  destruct ev as [connectExc sendExc | arg connectExc sendExc | pin v sendExc | topic rx | rx
                 | sendExc | sendExc | errorNum errorMsg]; unfold enabled.
  - rewrite Hf. discriminate.
  - simpl in Hev. subst arg. unfold handle, setReady.
    destruct (decide (m_ready c <> false)); [congruence|].
    intros Hrun. injection Hrun as <-. repeat split; assumption.
  - unfold handle, pinWrite. cbv zeta. intros Hrun.
    apply pinChange_not_Connected in Hrun as ->.
    + repeat split; assumption.
    + change (m_connectionState c <> Connected). rewrite Hs. discriminate.
  - rewrite Hcomp. discriminate.
  - rewrite Hcmd. discriminate.
  - rewrite Htcmd. discriminate.
  - rewrite Htcomp. discriminate.
  - rewrite Hctx. discriminate.
Qed.

Lemma quiet_run evs c c' :
  quiet c -> m_componentCompleted c = true ->
  Forall (fun ev => readies ev = false) evs ->
  run evs c = Some c' ->
  quiet c' /\ trace c' = trace c /\ m_error c' = m_error c
  /\ Forall (fun ev => isLocal ev = true) evs.
Proof.
  revert c. induction evs as [|ev evs IH]; intros c Hq Hf Hevs Hrun; simpl in Hrun.
  - injection Hrun as <-. repeat split; try apply Hq. constructor.
  - destruct (step ev c) as [c1|] eqn:Hc1; cbn [mbind option_bind] in Hrun; [|discriminate].
    inversion Hevs as [|ev' evs' Hev Hevs']; subst.
    destruct (quiet_step ev c c1 Hq Hf Hev Hc1) as (Hq1 & Hf1 & Htr1 & He1 & Hl).
    destruct (IH c1 Hq1 Hf1 Hevs' Hrun) as (Hq' & Htr' & He' & Hls).
    split; [exact Hq'|]. split; [congruence|]. split; [congruence|].
    constructor; assumption.
Qed.

(** X9.  A component that has been stopped is silent.  After the
    application has taken [ready] back from a completed, ready component,
    and until it sets [ready] again: no call is made on the transport, the
    component stays shut down ([Disconnected], sockets and context gone,
    both heartbeat timers stopped) with [NoError], and the only events that
    can occur are local ones; no message, tick or poll error is
    delivered. *)
Theorem stopped_component_is_silent connectExc sendExc evs c c' :
  m_componentCompleted c = true -> m_ready c = true ->
  Forall (fun ev => readies ev = false) evs ->
  run (EvSetReady false connectExc sendExc :: evs) c = Some c' ->
  trace c' = trace c /\ quiet c' /\ m_error c' = NoError
  /\ Forall (fun ev => isLocal ev = true) evs.
Proof.
  intros Hf Hr Hevs Hrun. change (run (?ev :: ?evs) ?c) with (step ev c ≫= run evs) in Hrun.
  assert (Hstep : step (EvSetReady false connectExc sendExc) c
                  = Some (stop (set_m_ready false c))).
  { unfold step, enabled, handle, setReady.
    destruct (decide (m_ready c <> false)) as [_|Hn];
      [|exfalso; apply Hn; rewrite Hr; discriminate].
    cbv zeta. change (m_componentCompleted (set_m_ready false c)) with (m_componentCompleted c).
    rewrite Hf. reflexivity. }
  rewrite Hstep, bind_Some_l in Hrun.
  destruct (stop_quiet (set_m_ready false c) eq_refl) as (Hq & Htr & He & Hf1).
  revert Hq Htr He Hf1 Hrun. generalize (stop (set_m_ready false c)).
  intros c1 Hq Htr He Hf1 Hrun.
  destruct (quiet_run evs c1 c' Hq (eq_trans Hf1 Hf) Hevs Hrun) as (Hq' & Htr' & He' & Hls).
  split; [exact (eq_trans Htr' Htr)|]. split; [exact Hq'|]. split; [congruence | exact Hls].
Qed.

End BetweenSessions.

(** ** The command heartbeat of a connected component *)

Ltac skip_setter_in_invariant :=
  match goal with
  | |- ?P (?set ?v ?c) => is_setter set; change (P c)
  end.

#[local] Hint Extern 5 (heartbeatOn (_ _ _)) => skip_setter_in_invariant : frame.

Lemma updateError_connectionState error errorString c state :
  m_connectionState c = state -> m_connectionState (updateError error errorString c) = state.
Proof. intros Hs. exact Hs. Qed.

Lemma stop_Disconnected c : m_connectionState (stop c) = Disconnected.
Proof.
  unfold stop. cbv zeta. apply updateError_connectionState, updateState_connectionState.
Qed.

Lemma ho_updateError error errorString c :
  heartbeatOn c -> heartbeatOn (updateError error errorString c).
Proof. intros Hc. exact Hc. Qed.

Lemma ho_emit o c : heartbeatOn c -> heartbeatOn (emit o c).
Proof. intros Hc. exact Hc. Qed.

Lemma ho_modifyPin pin f c : heartbeatOn c -> heartbeatOn (modifyPin pin f c).
Proof. intros Hc. exact Hc. Qed.

Lemma ho_startHalrcompHeartbeat interval c :
  heartbeatOn c -> heartbeatOn (startHalrcompHeartbeat interval c).
Proof. intros Hc. unfold startHalrcompHeartbeat. case_decide; exact Hc. Qed.

Lemma ho_refreshHalrcompHeartbeat c : heartbeatOn c -> heartbeatOn (refreshHalrcompHeartbeat c).
Proof. intros Hc. unfold refreshHalrcompHeartbeat. case_match; exact Hc. Qed.

Lemma ho_addPins c : heartbeatOn c -> heartbeatOn (addPins c).
Proof.
  unfold addPins. destruct (m_containerItem c) as [children|]; [|auto].
  generalize (recurseObjects children). intros pins. revert c.
  induction pins as [|pin pins IH]; intros c Hc; simpl; [exact Hc|].
  apply IH. unfold addPin. case_match; exact Hc.
Qed.

Lemma ho_subscriptionUp c : heartbeatOn c -> heartbeatOn (subscriptionUp c).
Proof.
  intros Hc. unfold subscriptionUp. case_decide; [apply updateState_heartbeatOn|]; exact Hc.
Qed.

#[local] Hint Resolve updateState_heartbeatOn ho_updateError ho_emit ho_modifyPin
  ho_startHalrcompHeartbeat ho_refreshHalrcompHeartbeat ho_addPins ho_subscriptionUp : frame.

Section ConnectedHeartbeat.

Context `{QVariantConversions}.

Lemma ho_sendHalrcmdMessage data exc c c' :
  sendHalrcmdMessage data exc c = Some c' -> heartbeatOn c -> heartbeatOn c'.
Proof. unfold sendHalrcmdMessage. intros Hrun Hc. slot_cases; auto with frame. Qed.

Lemma ho_subscribe c c' : subscribe c = Some c' -> heartbeatOn c -> heartbeatOn c'.
Proof. unfold subscribe. intros Hrun Hc. slot_cases. exact Hc. Qed.

Lemma ho_unsubscribe c c' : unsubscribe c = Some c' -> heartbeatOn c -> heartbeatOn c'.
Proof. unfold unsubscribe. intros Hrun Hc. slot_cases. exact Hc. Qed.

Lemma ho_pinUpdate remotePin localPin c c' :
  pinUpdate remotePin localPin c = Some c' -> heartbeatOn c -> heartbeatOn c'.
Proof. intros Hrun Hc. apply pinUpdate_heap_only in Hrun as [h ->]. exact Hc. Qed.

#[local] Hint Resolve ho_sendHalrcmdMessage ho_subscribe ho_unsubscribe ho_pinUpdate : frame.

Lemma ho_pinChange sender exc c c' :
  pinChange sender exc c = Some c' -> heartbeatOn c -> heartbeatOn c'.
Proof. unfold pinChange. intros Hrun Hc. slot_cases; eauto with frame. Qed.

Lemma ho_connectSockets exc c ok c' :
  connectSockets exc c = (ok, c') -> heartbeatOn c -> heartbeatOn c'.
Proof.
  unfold connectSockets. intros Hrun Hc. destruct exc; slot_cases; auto 10 with frame.
Qed.

Lemma ho_start connectExc sendExc c c' :
  start connectExc sendExc c = Some c' -> heartbeatOn c -> heartbeatOn c'.
Proof.
  unfold start, bind. intros Hrun Hc.
  destruct (connectSockets connectExc (updateState Connecting (set_m_cState Trying c)))
    as [ok c1] eqn:Hc1.
  apply ho_connectSockets in Hc1; [|auto with frame].
  destruct ok; [eauto with frame | by injection Hrun as <-].
Qed.

Lemma ho_stop c : heartbeatOn (stop c).
Proof. intros Hs. rewrite stop_Disconnected in Hs. discriminate. Qed.

#[local] Hint Resolve ho_pinChange ho_start ho_stop : frame.

Lemma ho_componentComplete connectExc sendExc c c' :
  componentComplete connectExc sendExc c = Some c' -> heartbeatOn c -> heartbeatOn c'.
Proof. unfold componentComplete. intros Hrun Hc. slot_cases; eauto with frame. Qed.

Lemma ho_setReady arg connectExc sendExc c c' :
  setReady arg connectExc sendExc c = Some c' -> heartbeatOn c -> heartbeatOn c'.
Proof. unfold setReady. intros Hrun Hc. slot_cases; eauto with frame. Qed.

Lemma ho_forEach {A : Type} (body : T -> A -> option T) (l : list A) :
  (forall c x c', body c x = Some c' -> heartbeatOn c -> heartbeatOn c') ->
  forall c c', forEach body l c = Some c' -> heartbeatOn c -> heartbeatOn c'.
Proof.
  apply (forEach_frame (fun c c' => heartbeatOn c -> heartbeatOn c')); auto.
Qed.

Lemma ho_pinWrite pin v exc c c' :
  pinWrite pin v exc c = Some c' -> heartbeatOn c -> heartbeatOn c'.
Proof.
  unfold pinWrite. intros Hrun Hc.
  eapply ho_forEach; [| exact Hrun | exact Hc].
  intros c1 sender c2. apply ho_pinChange.
Qed.

Lemma ho_fullUpdateComponents (comps : list pb.Component) c c' :
  forEach fullUpdateComponent comps c = Some c' -> heartbeatOn c -> heartbeatOn c'.
Proof.
  apply ho_forEach. clear. intros c comp c' Hrun Hc. unfold fullUpdateComponent in Hrun.
  destruct (forEach fullUpdatePin (pb.Component_pin comp) c) as [c1|] eqn:Hc1;
    cbn [mbind option_bind] in Hrun; [|discriminate].
  injection Hrun as <-. apply ho_subscriptionUp.
  revert Hc1 Hc. apply ho_forEach. clear.
  intros c remotePin c' Hrun Hc. apply fullUpdatePin_seedPin in Hrun as (pin & _ & ->).
  unfold seedPin. case_match; exact Hc.
Qed.

Lemma ho_halrcompMessageReceived topic rx c c' :
  halrcompMessageReceived topic rx c = Some c' -> heartbeatOn c -> heartbeatOn c'.
Proof.
  unfold halrcompMessageReceived. intros Hrun Hc.
  destruct (pb.type rx); try (injection Hrun as <-); auto with frame.
  - destruct (forEach fullUpdateComponent (pb.comp rx) c) as [c1|] eqn:Hc1;
      cbn [mbind option_bind] in Hrun; [|discriminate].
    injection Hrun as <-. apply ho_fullUpdateComponents in Hc1; [|exact Hc].
    destruct (pb.pparams rx); auto with frame.
  - destruct (forEach incrementalUpdatePin (pb.pin rx) c) as [c1|] eqn:Hc1;
      cbn [mbind option_bind] in Hrun; [|discriminate].
    injection Hrun as <-. apply incrementalUpdate_heap_only in Hc1 as [h ->].
    auto with frame.
Qed.

Lemma ho_halrcmdMessageReceived rx c c' :
  halrcmdMessageReceived rx c = Some c' -> heartbeatOn c -> heartbeatOn c'.
Proof.
  unfold halrcmdMessageReceived. intros Hrun Hc.
  destruct (pb.type rx); slot_cases; eauto 10 with frame.
Qed.

Lemma ho_halrcmdHeartbeatTimerTick exc c c' :
  halrcmdHeartbeatTimerTick exc c = Some c' -> heartbeatOn c -> heartbeatOn c'.
Proof.
  unfold halrcmdHeartbeatTimerTick. intros Hrun Hc.
  destruct (m_halrcmdPingOutstanding c); simpl in Hrun; slot_cases; eauto 10 with frame.
Qed.

Lemma ho_halrcompHeartbeatTimerTick exc c c' :
  halrcompHeartbeatTimerTick exc c = Some c' -> heartbeatOn c -> heartbeatOn c'.
Proof.
  unfold halrcompHeartbeatTimerTick. intros Hrun Hc. slot_cases; eauto 10 with frame.
Qed.

Lemma ho_step ev c c' : step ev c = Some c' -> heartbeatOn c -> heartbeatOn c'.
Proof.
  unfold step. destruct (enabled ev c); [|discriminate].
  destruct ev; simpl; intros Hrun Hc.
  - eapply ho_componentComplete; eassumption.
  - eapply ho_setReady; eassumption.
  - eapply ho_pinWrite; eassumption.
  - eapply ho_halrcompMessageReceived; eassumption.
  - eapply ho_halrcmdMessageReceived; eassumption.
  - eapply ho_halrcmdHeartbeatTimerTick; eassumption.
  - eapply ho_halrcompHeartbeatTimerTick; eassumption.
  - injection Hrun as <-. unfold pollError. auto with frame.
Qed.

Lemma ho_run evs c c' : run evs c = Some c' -> heartbeatOn c -> heartbeatOn c'.
Proof.
  revert c. induction evs as [|ev evs IH]; intros c Hrun Hc; simpl in Hrun.
  - by injection Hrun as <-.
  - destruct (step ev c) as [c1|] eqn:Hc1; simpl in Hrun; [|discriminate].
    eapply IH; [exact Hrun | eapply ho_step; eassumption].
Qed.

(** X10.  In every state a constructed component reaches, the command
    heartbeat timer runs exactly when the component is [Connected] and the
    heartbeat period is positive, and then its interval is the period. *)
Theorem command_heartbeat_runs_exactly_while_Connected
    halrcmdUri halrcompUri name heartbeatPeriod containerItem pins evs c :
  run evs (constructed halrcmdUri halrcompUri name heartbeatPeriod containerItem pins) = Some c ->
  (isActive (m_halrcmdHeartbeatTimer c) = true
   <-> m_connectionState c = Connected /\ 0 < heartbeatPeriod)
  /\ (isActive (m_halrcmdHeartbeatTimer c) = true ->
      interval (m_halrcmdHeartbeatTimer c) = heartbeatPeriod).
Proof.
  intros Hrun.
  destruct (hd_run _ _ _ Hrun) as (Hperiod & _ & _).
  change (m_heartbeatPeriod c = heartbeatPeriod) in Hperiod.
  assert (Hon : heartbeatOn c).
  { eapply ho_run; [exact Hrun|]. intros Hs. discriminate Hs. }
  assert (Honly : isActive (m_halrcmdHeartbeatTimer c) = true ->
                  m_connectionState c = Connected /\ 0 < heartbeatPeriod).
  { intros Ht. split; [eapply ticking_only_Connected; [exact Hrun | exact Ht]|].
    destruct (Z_lt_le_dec 0 heartbeatPeriod) as [Hpos|Hle]; [exact Hpos|].
    exfalso. eapply (run_without_command_ticks evs _ c); [| | exact Hrun | exact Ht].
    - exact Hle.
    - apply constructed_not_ticking. }
  split; [split; [exact Honly|]|].
  - intros [Hs Hpos]. rewrite Hon; [reflexivity | exact Hs | by rewrite Hperiod].
  - intros Ht. destruct (Honly Ht) as [Hs Hpos].
    rewrite Hon; [exact Hperiod | exact Hs | by rewrite Hperiod].
Qed.

End ConnectedHeartbeat.

(** ** The subscription heartbeat *)

Lemma sameSubscriptionHeartbeat_refl c : sameSubscriptionHeartbeat c c.
Proof. split; reflexivity. Qed.

Lemma sameSubscriptionHeartbeat_trans c1 c2 c3 :
  sameSubscriptionHeartbeat c1 c2 -> sameSubscriptionHeartbeat c2 c3 ->
  sameSubscriptionHeartbeat c1 c3.
Proof. intros [Ht1 Ho1] [Ht2 Ho2]. split; congruence. Qed.

Lemma subscriptionUp_sameSubscriptionHeartbeat c : sameSubscriptionHeartbeat c (subscriptionUp c).
Proof.
  unfold subscriptionUp. case_decide; [|apply sameSubscriptionHeartbeat_refl].
  destruct (updateState_subscription_heartbeat Connected
              (updateError NoError "" (set_m_sState Up c))) as [Ht Ho].
  split; [exact Ht | exact Ho].
Qed.

Lemma refreshHalrcompHeartbeat_sameSubscriptionHeartbeat c :
  sameSubscriptionHeartbeat c (refreshHalrcompHeartbeat c).
Proof.
  unfold refreshHalrcompHeartbeat.
  destruct (isActive (m_halrcompHeartbeatTimer c)) eqn:Hactive;
    [|apply sameSubscriptionHeartbeat_refl].
  split; [|reflexivity].
  change (QTimer_start (QTimer_stop (m_halrcompHeartbeatTimer c)) = m_halrcompHeartbeatTimer c).
  destruct (m_halrcompHeartbeatTimer c) as [active interval]. simpl in Hactive. subst active.
  reflexivity.
Qed.

Lemma fullUpdate_sameSubscriptionHeartbeat (comps : list pb.Component) c c' :
  forEach fullUpdateComponent comps c = Some c' -> sameSubscriptionHeartbeat c c'.
Proof.
  apply (forEach_frame sameSubscriptionHeartbeat sameSubscriptionHeartbeat_refl
           sameSubscriptionHeartbeat_trans).
  clear. intros c comp c' Hrun. unfold fullUpdateComponent in Hrun.
  destruct (forEach fullUpdatePin (pb.Component_pin comp) c) as [c1|] eqn:Hc1;
    cbn [mbind option_bind] in Hrun; [|discriminate].
  injection Hrun as <-.
  eapply sameSubscriptionHeartbeat_trans; [|apply subscriptionUp_sameSubscriptionHeartbeat].
  revert Hc1. apply (forEach_frame sameSubscriptionHeartbeat sameSubscriptionHeartbeat_refl
                       sameSubscriptionHeartbeat_trans).
  clear. intros c remotePin c' Hrun. apply fullUpdatePin_seedPin in Hrun as (pin & _ & ->).
  unfold seedPin. case_match; exact (sameSubscriptionHeartbeat_refl c).
Qed.

(** X11.  Only a full update that carries protocol parameters sets the
    subscription heartbeat: it clears the outstanding flag, and it starts
    the timer with the keepalive interval if that is positive and stops it
    otherwise.  A full update without protocol parameters, an incremental
    update, a PING and every other message but HALRCOMMAND_ERROR leave the
    timer (running or not, and its interval) and the flag as they were. *)
Theorem subscription_heartbeat_set_by_full_update_with_pparams topic rx c c' :
  halrcompMessageReceived topic rx c = Some c' ->
  pb.type rx <> pb.MT_HALRCOMMAND_ERROR ->
  match pb.pparams rx with
  | Some pparams =>
      if decide (pb.type rx = pb.MT_HALRCOMP_FULL_UPDATE) then
        m_halrcompPingOutstanding c' = false
        /\ m_halrcompHeartbeatTimer c'
           = (if decide (0 < pb.keepalive_timer pparams)
              then {| isActive := true; interval := pb.keepalive_timer pparams |}
              else {| isActive := false; interval := interval (m_halrcompHeartbeatTimer c) |})
      else sameSubscriptionHeartbeat c c'
  | None => sameSubscriptionHeartbeat c c'
  end.
Proof.
  unfold halrcompMessageReceived. intros Hrun Hty.
  assert (Hother : pb.type rx <> pb.MT_HALRCOMP_FULL_UPDATE ->
                   sameSubscriptionHeartbeat c c').
  { intros Hfull. destruct (pb.type rx); try (injection Hrun as <-);
      try apply sameSubscriptionHeartbeat_refl; try contradiction.
    - destruct (forEach incrementalUpdatePin (pb.pin rx) c) as [c1|] eqn:Hc1;
        cbn [mbind option_bind] in Hrun; [|discriminate].
      injection Hrun as <-. apply incrementalUpdate_heap_only in Hc1 as [h ->].
      eapply sameSubscriptionHeartbeat_trans;
        [|apply refreshHalrcompHeartbeat_sameSubscriptionHeartbeat].
      eapply sameSubscriptionHeartbeat_trans;
        [|apply subscriptionUp_sameSubscriptionHeartbeat].
      split; reflexivity.
    - apply refreshHalrcompHeartbeat_sameSubscriptionHeartbeat. }
  destruct (decide (pb.type rx = pb.MT_HALRCOMP_FULL_UPDATE)) as [Hfull|Hfull].
  - clear Hother. rewrite Hfull in Hrun.
    destruct (forEach fullUpdateComponent (pb.comp rx) c) as [c1|] eqn:Hc1;
      cbn [mbind option_bind] in Hrun; [|discriminate].
    injection Hrun as <-. apply fullUpdate_sameSubscriptionHeartbeat in Hc1 as [Ht Ho].
    destruct (pb.pparams rx) as [pparams|]; [|split; assumption].
    unfold startHalrcompHeartbeat. cbv zeta.
    destruct (decide (0 < pb.keepalive_timer pparams)).
    + split; reflexivity.
    + split; [reflexivity|].
      change (QTimer_stop (m_halrcompHeartbeatTimer c1)
              = {| isActive := false; interval := interval (m_halrcompHeartbeatTimer c) |}).
      rewrite Ht. reflexivity.
  - destruct (pb.pparams rx); auto.
Qed.

(** ** Names on the wire, both ways *)

Lemma append_length (s t : string) :
  String.length (s +:+ t) = (String.length s + String.length t)%nat.
Proof.
  induction s as [|a s IH]; [reflexivity|].
  change (S (String.length (s +:+ t)) = S (String.length s + String.length t)). by rewrite IH.
Qed.

(** *** [QString::arg] on a component name without [%] *)

Lemma no_percent_cons a s :
  indexOf (String a s) "%" = -1 -> Ascii.eqb a "%" = false /\ indexOf s "%" = -1.
Proof.
  simpl. destruct (Ascii.eqb a "%"); [discriminate|]. intros Hs. split; [reflexivity|].
  pose proof (indexOf_lower_bound s "%").
  destruct (indexOf s "%" =? -1) eqn:E; [by apply Z.eqb_eq in E | lia].
Qed.

Lemma argPieces_plain a s : Ascii.eqb a "%" = false -> argPieces (String a s) = Plain a :: argPieces s.
Proof. intros Ha. simpl. rewrite Ha. reflexivity. Qed.

Lemma argPieces_no_percent s t :
  indexOf s "%" = -1 ->
  argPieces (s +:+ t) = (Plain <$> list_ascii_of_string s) ++ argPieces t.
Proof.
  induction s as [|a s IH]; intros Hs; [reflexivity|].
  apply no_percent_cons in Hs as [Ha Hs].
  change (String a s +:+ t) with (String a (s +:+ t)).
  rewrite (argPieces_plain a _ Ha), (IH Hs). reflexivity.
Qed.

Lemma lowestMarker_plain (l : list ascii) pieces :
  lowestMarker ((Plain <$> l) ++ pieces) = lowestMarker pieces.
Proof. induction l as [|a l IH]; [reflexivity | exact IH]. Qed.

Lemma replaced_plain (f : ArgPiece -> string -> string) s pieces :
  (forall a rest, f (Plain a) rest = String a rest) ->
  foldr f "" ((Plain <$> list_ascii_of_string s) ++ pieces) = s +:+ foldr f "" pieces.
Proof.
  intros Hf. induction s as [|a s IH]; [reflexivity|].
  change (f (Plain a) (foldr f "" ((Plain <$> list_ascii_of_string s) ++ pieces))
          = String a (s +:+ foldr f "" pieces)).
  rewrite Hf, IH. reflexivity.
Qed.

(** A component name without [%] has no place marker: the name on the wire
    is [<comp>.<pin>]. *)
Lemma pinName_plain comp pin : indexOf comp "%" = -1 -> pinName comp pin = qualifiedName comp pin.
Proof.
  intros Hcomp. unfold pinName.
  change (QString_arg "%1.%2" comp) with (comp +:+ ".%2").
  unfold QString_arg. rewrite (argPieces_no_percent comp ".%2" Hcomp), lowestMarker_plain.
  change (argPieces ".%2") with [Plain "."; PlaceMarker 2 "%2"].
  change (lowestMarker [Plain "."; PlaceMarker 2 "%2"]) with (Some 2%nat). cbv beta iota.
  rewrite replaced_plain by reflexivity.
  change (comp +:+ String "." (pin +:+ "") = qualifiedName comp pin).
  rewrite append_empty. reflexivity.
Qed.

Section Names.

Context `{QVariantConversions}.

(** X12.  For a component name without [%], and so without place marker
    for [QString::arg]: the pin names of a BIND come back through the name
    resolution of a full update, which strips the text up to the first dot,
    if and only if the component name has no dot of its own: then the name
    [bind] sends for a pin resolves to the pin's name; for a component name
    [s.t] it resolves to [t.<pin>]. *)
Theorem bind_names_resolve_unless_component_name_has_dot comp s t pin :
  indexOf comp "%" = -1 ->
  (indexOf comp "." = -1 -> localName (bindPin comp pin) = QHalPin.name pin)
  /\ (indexOf s "." = -1 -> comp = qualifiedName s t ->
      localName (bindPin comp pin) = qualifiedName t (QHalPin.name pin)
      /\ localName (bindPin comp pin) <> QHalPin.name pin).
Proof.
  intros Hmarker.
  assert (Hsent : pb.Pin_name (bindPin comp pin)
                  = Some (qualifiedName comp (QHalPin.name pin))).
  { unfold bindPin, pb.Pin_name. by rewrite (pinName_plain comp _ Hmarker). }
  split.
  - intros Hdot. eapply localName_qualifiedName; [exact Hsent | exact Hdot].
  - intros Hdot Hcomp.
    assert (Hname : localName (bindPin comp pin) = qualifiedName t (QHalPin.name pin)).
    { eapply localName_qualifiedName; [|exact Hdot]. rewrite Hsent, Hcomp.
      apply (f_equal Some). unfold qualifiedName. rewrite append_associative. reflexivity. }
    split; [exact Hname|]. rewrite Hname. unfold qualifiedName.
    intros Heq. apply (f_equal String.length) in Heq.
    rewrite !append_length in Heq. simpl in Heq. lia.
Qed.

(** X13.  The SET envelope.  When the component is [Connected], the pin
    that changed is not an [In] pin and the send succeeds, [pinChange] hands
    exactly one envelope to the command socket and changes nothing else: a
    SET without component sub-message and with one pin sub-message, which
    carries the pin's handle, the name [QString("%1.%2")] makes of the
    component's and the pin's name, which is [<component>.<pin>] when the
    component name has no [%], the pin's type and exactly the value field
    of that type, converted from the pin's current value, and no
    direction. *)
Theorem SET_envelope_describes_sender sender c s :
  m_connectionState c = Connected ->
  QHalPin.direction (heap c sender) <> QHalPin.In ->
  m_halrcmdSocket c = Some s ->
  exists data q,
    pinChange sender None c = Some (emit (HalrcmdSend data) c)
    /\ pb.type data = pb.MT_HALRCOMP_SET /\ pb.comp data = [] /\ pb.pin data = [q]
    /\ pb.Pin_handle q = Some (QHalPin.handle (heap c sender))
    /\ pb.Pin_name q = Some (pinName (m_name c) (QHalPin.name (heap c sender)))
    /\ (indexOf (m_name c) "%" = -1 ->
        pb.Pin_name q = Some (qualifiedName (m_name c) (QHalPin.name (heap c sender))))
    /\ pb.Pin_type q = Some (QHalPin.type (heap c sender))
    /\ pb.Pin_dir q = None
    /\ carriesValueOf (heap c sender) q.
Proof.
  intros Hs Hd Hsock. exists (setMessage c sender), (setPin (m_name c) (heap c sender)).
  split.
  - unfold pinChange.
    destruct (decide (m_connectionState c <> Connected)); [contradiction|].
    destruct (decide (QHalPin.direction (heap c sender) = QHalPin.In)); [contradiction|].
    exact (sendHalrcmdMessage_live (setMessage c sender) None c s Hsock).
  - repeat split.
    + intros Hmarker. unfold setPin, pb.Pin_name. by rewrite (pinName_plain _ _ Hmarker).
    + unfold carriesValueOf, setPin. destruct (QHalPin.type (heap c sender)); repeat split.
Qed.

End Names.

(** ** Updates that cannot be processed *)

Lemma fullUpdatePin_total c remotePin :
  is_Some (fullUpdatePin c remotePin) <-> is_Some (m_pinsByName c !! localName remotePin).
Proof.
  split.
  - intros [c' Hrun]. apply fullUpdatePin_seedPin in Hrun as (pin & Hpin & _).
    rewrite Hpin. by eexists.
  - intros [pin Hpin]. unfold fullUpdatePin. cbv zeta. rewrite Hpin, bind_Some_l.
    rewrite pinUpdate_remoteValue. destruct (remoteValue remotePin); by eexists.
Qed.

Lemma fullUpdatePins_total (pins : list pb.Pin) c :
  is_Some (forEach fullUpdatePin pins c)
  <-> Forall (fun remotePin => is_Some (m_pinsByName c !! localName remotePin)) pins.
Proof.
  revert c. induction pins as [|remotePin pins IH]; intros c.
  - split; [constructor | by eexists].
  - change (forEach fullUpdatePin (remotePin :: pins) c)
      with (fullUpdatePin c remotePin ≫= forEach fullUpdatePin pins).
    rewrite Forall_cons, <- fullUpdatePin_total.
    destruct (fullUpdatePin c remotePin) as [c1|] eqn:Hc1.
    + rewrite bind_Some_l, IH.
      apply fullUpdatePin_seedPin in Hc1 as (pin & _ & ->). rewrite seedPin_names.
      split; [intros Hpins; split; [by eexists | exact Hpins] | intros [_ Hpins]; exact Hpins].
    + split; [intros [c' Hrun]; discriminate Hrun | intros [[c' Hrun] _]; discriminate Hrun].
Qed.

Lemma fullUpdateComponents_total (comps : list pb.Component) c :
  is_Some (forEach fullUpdateComponent comps c)
  <-> Forall (fun remotePin => is_Some (m_pinsByName c !! localName remotePin))
        (flat_map pb.Component_pin comps).
Proof.
  revert c. induction comps as [|comp comps IH]; intros c.
  - split; [constructor | by eexists].
  - change (forEach fullUpdateComponent (comp :: comps) c)
      with (fullUpdateComponent c comp ≫= forEach fullUpdateComponent comps).
    change (flat_map pb.Component_pin (comp :: comps))
      with (pb.Component_pin comp ++ flat_map pb.Component_pin comps).
    rewrite Forall_app, <- fullUpdatePins_total. unfold fullUpdateComponent.
    destruct (forEach fullUpdatePin (pb.Component_pin comp) c) as [c1|] eqn:Hc1.
    + rewrite !bind_Some_l, IH.
      apply fullUpdate_pins_index in Hc1 as [Hnames _].
      destruct (subscriptionUp_frame c1) as (-> & _ & _). rewrite Hnames.
      split; [intros Hpins; split; [by eexists | exact Hpins] | intros [_ Hpins]; exact Hpins].
    + split; [intros [c' Hrun]; discriminate Hrun | intros [[c' Hrun] _]; discriminate Hrun].
Qed.

Lemma incrementalUpdate_total (pins : list pb.Pin) c :
  is_Some (forEach incrementalUpdatePin pins c)
  <-> Forall (fun remotePin => is_Some (remoteValue remotePin) ->
                               is_Some (m_pinsByHandle c !! pb.handle remotePin)) pins.
Proof.
  revert c. induction pins as [|remotePin pins IH]; intros c.
  - split; [constructor | by eexists].
  - change (forEach incrementalUpdatePin (remotePin :: pins) c)
      with (incrementalUpdatePin c remotePin ≫= forEach incrementalUpdatePin pins).
    rewrite Forall_cons.
    destruct (incrementalUpdatePin c remotePin) as [c1|] eqn:Hc1.
    + rewrite bind_Some_l, IH. pose proof Hc1 as Hheap.
      unfold incrementalUpdatePin in Hheap. apply pinUpdate_heap_only in Hheap as [h ->].
      change (m_pinsByHandle (set_heap h c)) with (m_pinsByHandle c).
      split; [intros Hpins; split; [|exact Hpins] | intros [_ Hpins]; exact Hpins].
      intros Hv. unfold incrementalUpdatePin in Hc1. cbv zeta in Hc1.
      rewrite pinUpdate_remoteValue in Hc1.
      destruct (m_pinsByHandle c !! pb.handle remotePin); [by eexists|].
      destruct (remoteValue remotePin); [discriminate Hc1|].
      exfalso. exact (is_Some_None Hv).
    + split; [intros [c' Hrun]; discriminate Hrun|]. intros [Hpin _]. exfalso.
      unfold incrementalUpdatePin in Hc1. cbv zeta in Hc1. rewrite pinUpdate_remoteValue in Hc1.
      destruct (remoteValue remotePin) as [v|]; [|discriminate Hc1].
      destruct Hpin as [pin Hpin]; [by eexists|]. rewrite Hpin in Hc1. discriminate Hc1.
Qed.

(** X14.  A message on the update socket is processed to the end unless it
    is an update with a pin that does not resolve: a full update fails, on a
    null pointer, exactly when one of its pin sub-messages has a name whose
    text after the first dot is not in the name index; an incremental update
    exactly when one of its pin sub-messages carries a value and a handle
    that is not in the handle index.  Every other message is processed. *)
Theorem update_processed_iff_pins_resolve topic rx c :
  is_Some (halrcompMessageReceived topic rx c)
  <-> match pb.type rx with
      | pb.MT_HALRCOMP_FULL_UPDATE =>
          Forall (fun remotePin => is_Some (m_pinsByName c !! localName remotePin)) (allPins rx)
      | pb.MT_HALRCOMP_INCREMENTAL_UPDATE =>
          Forall (fun remotePin => is_Some (remoteValue remotePin) ->
                                   is_Some (m_pinsByHandle c !! pb.handle remotePin)) (pb.pin rx)
      | _ => True
      end.
Proof.
  unfold halrcompMessageReceived, allPins.
  destruct (pb.type rx); try (split; [constructor | by eexists]).
  - rewrite <- fullUpdateComponents_total.
    destruct (forEach fullUpdateComponent (pb.comp rx) c) as [c1|].
    + rewrite bind_Some_l. split; by eexists.
    + split; intros [c' Hrun]; discriminate Hrun.
  - rewrite <- incrementalUpdate_total.
    destruct (forEach incrementalUpdatePin (pb.pin rx) c) as [c1|].
    + rewrite bind_Some_l. split; by eexists.
    + split; intros [c' Hrun]; discriminate Hrun.
Qed.

(** ** Registering and unregistering pins *)

Lemma filter_all {A : Type} (P : A -> Prop) `{!forall x, Decision (P x)} (l : list A) :
  Forall P l -> filter P l = l.
Proof.
  induction 1 as [|x l Hx Hl IH]; [reflexivity|].
  rewrite filter_cons_True by exact Hx. by rewrite IH.
Qed.

Lemma filter_none {A : Type} (P : A -> Prop) `{!forall x, Decision (P x)} (l : list A) :
  Forall (fun x => ~ P x) l -> filter P l = [].
Proof.
  induction 1 as [|x l Hx Hl IH]; [reflexivity|].
  rewrite filter_cons_False by exact Hx. exact IH.
Qed.

Lemma addPin_connections (pins : list PinRef) c :
  valueChangedConnections (foldl addPin c pins)
  = valueChangedConnections c ++ List.filter (eligible c) pins.
Proof.
  revert c. induction pins as [|pin pins IH]; intros c; simpl; [by rewrite app_nil_r|].
  rewrite IH.
  assert (Hext : List.filter (eligible (addPin c pin)) pins = List.filter (eligible c) pins).
  { unfold eligible. destruct (addPin_frame c pin) as (-> & _). reflexivity. }
  rewrite Hext. unfold addPin, eligible.
  destruct (String.eqb (QHalPin.name (heap c pin)) "" || negb (QHalPin.enabled (heap c pin)));
    [reflexivity|].
  simpl. by rewrite <- app_assoc.
Qed.

Lemma addPins_connections c :
  valueChangedConnections (addPins c) = valueChangedConnections c ++ eligiblePins c.
Proof.
  unfold addPins, eligiblePins, enumerated.
  destruct (m_containerItem c) as [children|]; [apply addPin_connections | by rewrite app_nil_r].
Qed.

(** X15.  [removePins] undoes [addPins].  If the name index is empty, the
    enabled, named pins of the container have pairwise different names and
    none of them is connected yet, then after [addPins] every one of them is
    connected once, after the others, and [removePins] leaves the
    connections as they were before and both indexes empty: sessions do not
    pile up connections. *)
Theorem removePins_undoes_addPins c :
  m_pinsByName c = ∅ ->
  NoDup ((fun pin => QHalPin.name (heap c pin)) <$> eligiblePins c) ->
  (forall pin, pin ∈ eligiblePins c -> pin ∉ valueChangedConnections c) ->
  valueChangedConnections (addPins c) = valueChangedConnections c ++ eligiblePins c
  /\ valueChangedConnections (removePins (addPins c)) = valueChangedConnections c
  /\ m_pinsByName (removePins (addPins c)) = ∅
  /\ m_pinsByHandle (removePins (addPins c)) = ∅.
Proof.
  intros Hempty Hnames Hnew. split; [apply addPins_connections|].
  split; [|split; reflexivity].
  assert (Hreg : forall pin, pin ∈ registeredPins (addPins c) <-> pin ∈ eligiblePins c).
  { intros pin. rewrite registeredPins_values.
    destruct (addPins_frame c) as (_ & _ & _ & _ & _ & _ & ->). rewrite Hempty.
    by rewrite (registered_eligible (heap c) (eligiblePins c) Hnames). }
  change (filter (fun pin => pin ∉ registeredPins (addPins c))
            (valueChangedConnections (addPins c)) = valueChangedConnections c).
  rewrite addPins_connections, filter_app.
  rewrite filter_all, filter_none; [apply app_nil_r | |].
  - apply Forall_forall. intros pin Hin Hnot. apply Hnot, Hreg, Hin.
  - apply Forall_forall. intros pin Hin Hreg'. apply Hreg in Hreg'. exact (Hnew pin Hreg' Hin).
Qed.

(** ** The command heartbeat, acknowledged *)

(** X16.  A command heartbeat that is acknowledged in time leaves the
    session as it is.  With no ping outstanding, the tick sends one PING and
    marks it outstanding; the PING_ACKNOWLEDGE that follows clears the mark
    and sets the command sub-state to [Up]; the connection state, the error,
    the subscription sub-state, the pins and both timers are as before. *)
Theorem acknowledged_ping_keeps_session rx c s :
  pb.type rx = pb.MT_PING_ACKNOWLEDGE ->
  m_connectionState c <> Error ->
  m_halrcmdPingOutstanding c = false ->
  m_halrcmdSocket c = Some s ->
  exists c1 c2,
    halrcmdHeartbeatTimerTick None c = Some c1
    /\ m_halrcmdPingOutstanding c1 = true
    /\ halrcmdMessageReceived rx c1 = Some c2
    /\ trace c2 = trace c ++ [ping]
    /\ m_halrcmdPingOutstanding c2 = false
    /\ m_cState c2 = Up
    /\ m_connectionState c2 = m_connectionState c
    /\ m_error c2 = m_error c
    /\ m_sState c2 = m_sState c
    /\ heap c2 = heap c
    /\ m_halrcmdHeartbeatTimer c2 = m_halrcmdHeartbeatTimer c
    /\ m_halrcompHeartbeatTimer c2 = m_halrcompHeartbeatTimer c.
Proof.
  intros Hty Hs Hout Hsock.
  exists (set_m_halrcmdPingOutstanding true (emit ping c)).
  exists (set_m_halrcmdPingOutstanding false
            (set_m_cState Up (set_m_halrcmdPingOutstanding true (emit ping c)))).
  split.
  { unfold halrcmdHeartbeatTimerTick. rewrite Hout, bind_Some_l.
    rewrite (sendHalrcmdMessage_live _ None c s Hsock), bind_Some_l. reflexivity. }
  split; [reflexivity|]. split; [|repeat split].
  unfold halrcmdMessageReceived. rewrite Hty. cbv zeta.
  match goal with
  | |- context [decide ?P] => destruct (decide P) as [[Herr _]|_]; [|reflexivity]
  end.
  exfalso. apply Hs. exact Herr.
Qed.

(** ** The further properties on the sample component *)

Lemma step_transitions_witness :
  let ev := EvHalrcompMessage "comp" Sample.firstFullUpdate in
  let c' := default Sample.subscribed (@step Sample.conversions ev Sample.subscribed) in
  @step Sample.conversions ev Sample.subscribed = Some c'
  /\ (m_connectionState c' = m_connectionState Sample.subscribed
      \/ m_connectionState c' ∈ transitions ev Sample.subscribed).
Proof.
  intros ev c'.
  assert (Hrun : @step Sample.conversions ev Sample.subscribed = Some c') by by_running.
  split; [exact Hrun|].
  exact (@step_transitions Sample.conversions ev Sample.subscribed c' Hrun).
Defined.

Lemma stopped_component_is_silent_witness :
  let evs := [EvPinWrite 0%nat (QVDouble 2) None; EvSetReady false None None] in
  let c' := default Sample.connected
              (@run Sample.conversions (EvSetReady false None None :: evs) Sample.connected) in
  m_componentCompleted Sample.connected = true
  /\ m_ready Sample.connected = true
  /\ Forall (fun ev => readies ev = false) evs
  /\ @run Sample.conversions (EvSetReady false None None :: evs) Sample.connected = Some c'
  /\ trace c' = trace Sample.connected /\ quiet c' /\ m_error c' = NoError
  /\ Forall (fun ev => isLocal ev = true) evs.
Proof.
  intros evs c'.
  assert (Hf : m_componentCompleted Sample.connected = true) by by_evaluation.
  assert (Hr : m_ready Sample.connected = true) by by_evaluation.
  assert (Hevs : Forall (fun ev => readies ev = false) evs) by (repeat constructor).
  assert (Hrun : @run Sample.conversions (EvSetReady false None None :: evs) Sample.connected
                 = Some c') by by_running.
  split; [exact Hf|]. split; [exact Hr|]. split; [exact Hevs|]. split; [exact Hrun|].
  exact (@stopped_component_is_silent Sample.conversions None None evs Sample.connected c'
           Hf Hr Hevs Hrun).
Defined.

Lemma command_heartbeat_runs_exactly_while_Connected_witness :
  @run Sample.conversions Sample.s1 Sample.comp0 = Some Sample.connected
  /\ (isActive (m_halrcmdHeartbeatTimer Sample.connected) = true
      <-> m_connectionState Sample.connected = Connected /\ 0 < 3000)
  /\ (isActive (m_halrcmdHeartbeatTimer Sample.connected) = true ->
      interval (m_halrcmdHeartbeatTimer Sample.connected) = 3000).
Proof.
  assert (Hrun : @run Sample.conversions Sample.s1 Sample.comp0 = Some Sample.connected)
    by (unfold Sample.connected; by_running).
  split; [exact Hrun|].
  exact (@command_heartbeat_runs_exactly_while_Connected Sample.conversions
           "tcp://h:5001" "tcp://h:5002" "comp" 3000 (Some Sample.container) Sample.pins
           Sample.s1 Sample.connected Hrun).
Defined.

Lemma subscription_heartbeat_set_by_full_update_with_pparams_witness :
  let c' := default Sample.subscribed
              (halrcompMessageReceived "comp" Sample.firstFullUpdate Sample.subscribed) in
  halrcompMessageReceived "comp" Sample.firstFullUpdate Sample.subscribed = Some c'
  /\ pb.type Sample.firstFullUpdate <> pb.MT_HALRCOMMAND_ERROR
  /\ match pb.pparams Sample.firstFullUpdate with
     | Some pparams =>
         if decide (pb.type Sample.firstFullUpdate = pb.MT_HALRCOMP_FULL_UPDATE) then
           m_halrcompPingOutstanding c' = false
           /\ m_halrcompHeartbeatTimer c'
              = (if decide (0 < pb.keepalive_timer pparams)
                 then {| isActive := true; interval := pb.keepalive_timer pparams |}
                 else {| isActive := false;
                         interval := interval (m_halrcompHeartbeatTimer Sample.subscribed) |})
         else sameSubscriptionHeartbeat Sample.subscribed c'
     | None => sameSubscriptionHeartbeat Sample.subscribed c'
     end.
Proof.
  intros c'.
  assert (Hrun : halrcompMessageReceived "comp" Sample.firstFullUpdate Sample.subscribed
                 = Some c') by by_running.
  assert (Hty : pb.type Sample.firstFullUpdate <> pb.MT_HALRCOMMAND_ERROR) by discriminate.
  split; [exact Hrun|]. split; [exact Hty|].
  exact (subscription_heartbeat_set_by_full_update_with_pparams "comp" Sample.firstFullUpdate
           Sample.subscribed c' Hrun Hty).
Defined.

Lemma SET_envelope_describes_sender_witness :
  let c := Sample.connected in
  m_connectionState c = Connected
  /\ QHalPin.direction (heap c 0%nat) <> QHalPin.In
  /\ m_halrcmdSocket c = Some {| messageReceivedConnected := true |}
  /\ exists data q,
       @pinChange Sample.conversions 0%nat None c = Some (emit (HalrcmdSend data) c)
       /\ pb.type data = pb.MT_HALRCOMP_SET /\ pb.comp data = [] /\ pb.pin data = [q]
       /\ pb.Pin_handle q = Some (QHalPin.handle (heap c 0%nat))
       /\ pb.Pin_name q = Some (pinName (m_name c) (QHalPin.name (heap c 0%nat)))
       /\ (indexOf (m_name c) "%" = -1 ->
           pb.Pin_name q = Some (qualifiedName (m_name c) (QHalPin.name (heap c 0%nat))))
       /\ pb.Pin_type q = Some (QHalPin.type (heap c 0%nat))
       /\ pb.Pin_dir q = None
       /\ @carriesValueOf Sample.conversions (heap c 0%nat) q.
Proof.
  intros c.
  assert (Hs : m_connectionState c = Connected) by by_evaluation.
  assert (Hd : QHalPin.direction (heap c 0%nat) <> QHalPin.In) by (vm_compute; discriminate).
  assert (Hsock : m_halrcmdSocket c = Some {| messageReceivedConnected := true |})
    by by_evaluation.
  split; [exact Hs|]. split; [exact Hd|]. split; [exact Hsock|].
  exact (@SET_envelope_describes_sender Sample.conversions 0%nat c _ Hs Hd Hsock).
Defined.

Lemma removePins_undoes_addPins_witness :
  let c := Sample.comp0 in
  m_pinsByName c = ∅
  /\ NoDup ((fun pin => QHalPin.name (heap c pin)) <$> eligiblePins c)
  /\ (forall pin, pin ∈ eligiblePins c -> pin ∉ valueChangedConnections c)
  /\ valueChangedConnections (addPins c) = valueChangedConnections c ++ eligiblePins c
  /\ valueChangedConnections (removePins (addPins c)) = valueChangedConnections c
  /\ m_pinsByName (removePins (addPins c)) = ∅
  /\ m_pinsByHandle (removePins (addPins c)) = ∅.
Proof.
  intros c.
  assert (Hempty : m_pinsByName c = ∅) by reflexivity.
  assert (Hnames : NoDup ((fun pin => QHalPin.name (heap c pin)) <$> eligiblePins c)).
  { vm_compute. apply NoDup_cons. split.
    - rewrite list_elem_of_singleton. discriminate.
    - apply NoDup_singleton. }
  assert (Hnew : forall pin, pin ∈ eligiblePins c -> pin ∉ valueChangedConnections c).
  { intros pin _. apply not_elem_of_nil. }
  split; [exact Hempty|]. split; [exact Hnames|]. split; [exact Hnew|].
  exact (removePins_undoes_addPins c Hempty Hnames Hnew).
Defined.

Lemma acknowledged_ping_keeps_session_witness :
  let rx := pb.cleared pb.MT_PING_ACKNOWLEDGE in
  let c := Sample.connected in
  pb.type rx = pb.MT_PING_ACKNOWLEDGE
  /\ m_connectionState c <> Error
  /\ m_halrcmdPingOutstanding c = false
  /\ m_halrcmdSocket c = Some {| messageReceivedConnected := true |}
  /\ exists c1 c2,
       halrcmdHeartbeatTimerTick None c = Some c1
       /\ m_halrcmdPingOutstanding c1 = true
       /\ halrcmdMessageReceived rx c1 = Some c2
       /\ trace c2 = trace c ++ [ping]
       /\ m_halrcmdPingOutstanding c2 = false
       /\ m_cState c2 = Up
       /\ m_connectionState c2 = m_connectionState c
       /\ m_error c2 = m_error c
       /\ m_sState c2 = m_sState c
       /\ heap c2 = heap c
       /\ m_halrcmdHeartbeatTimer c2 = m_halrcmdHeartbeatTimer c
       /\ m_halrcompHeartbeatTimer c2 = m_halrcompHeartbeatTimer c.
Proof.
  intros rx c.
  assert (Hs : m_connectionState c <> Error) by (vm_compute; discriminate).
  assert (Hout : m_halrcmdPingOutstanding c = false) by by_evaluation.
  assert (Hsock : m_halrcmdSocket c = Some {| messageReceivedConnected := true |})
    by by_evaluation.
  split; [reflexivity|]. split; [exact Hs|]. split; [exact Hout|]. split; [exact Hsock|].
  exact (acknowledged_ping_keeps_session rx c _ eq_refl Hs Hout Hsock).
Defined.

(** ** Ready and complete, in either order *)

Lemma bind_Some_r {A : Type} (x : option A) : x ≫= Some = x.
Proof. by destruct x. Qed.

Section ReadyAndComplete.

Context `{QVariantConversions}.

(** X17.  The session starts when the component is both completed and
    ready, whichever comes last, and in the same way: on a component that is
    neither, setting [ready] and then completing it gives the same result as
    completing it and then setting [ready], namely that of [start] on the
    component with both flags set.  The first of the two events makes no
    call on the transport, so the errors it would raise play no part. *)
Theorem ready_and_complete_commute connectExc sendExc e1 e2 e3 e4 c :
  m_ready c = false -> m_componentCompleted c = false ->
  run [EvSetReady true e1 e2; EvComponentComplete connectExc sendExc] c
  = start connectExc sendExc (set_m_componentCompleted true (set_m_ready true c))
  /\ run [EvComponentComplete e3 e4; EvSetReady true connectExc sendExc] c
     = start connectExc sendExc (set_m_componentCompleted true (set_m_ready true c)).
Proof.
  intros Hr Hf. split.
  - change (run [EvSetReady true e1 e2; EvComponentComplete connectExc sendExc] c)
      with (step (EvSetReady true e1 e2) c
            ≫= (fun c1 => step (EvComponentComplete connectExc sendExc) c1 ≫= Some)).
    assert (Hfirst : step (EvSetReady true e1 e2) c = Some (set_m_ready true c)).
    { unfold step, enabled, handle, setReady.
      destruct (decide (m_ready c <> true)) as [_|Hn];
        [|exfalso; apply Hn; rewrite Hr; discriminate].
      cbv zeta. change (m_componentCompleted (set_m_ready true c)) with (m_componentCompleted c).
      rewrite Hf. reflexivity. }
    rewrite Hfirst, bind_Some_l, bind_Some_r.
    unfold step, enabled, handle, componentComplete.
    change (m_componentCompleted (set_m_ready true c)) with (m_componentCompleted c).
    rewrite Hf. reflexivity.
  - change (run [EvComponentComplete e3 e4; EvSetReady true connectExc sendExc] c)
      with (step (EvComponentComplete e3 e4) c
            ≫= (fun c1 => step (EvSetReady true connectExc sendExc) c1 ≫= Some)).
    assert (Hfirst : step (EvComponentComplete e3 e4) c
                     = Some (set_m_componentCompleted true c)).
    { unfold step, enabled, handle, componentComplete. rewrite Hf. cbv zeta.
      change (m_ready (set_m_componentCompleted true c)) with (m_ready c).
      rewrite Hr. reflexivity. }
    rewrite Hfirst, bind_Some_l, bind_Some_r.
    unfold step, enabled, handle, setReady.
    change (m_ready (set_m_componentCompleted true c)) with (m_ready c).
    destruct (decide (m_ready c <> true)) as [_|Hn];
      [|exfalso; apply Hn; rewrite Hr; discriminate].
    reflexivity.
Qed.

End ReadyAndComplete.

Lemma ready_and_complete_commute_witness :
  m_ready Sample.comp0 = false /\ m_componentCompleted Sample.comp0 = false
  /\ @run Sample.conversions [EvSetReady true None None; EvComponentComplete None None]
       Sample.comp0
     = @start Sample.conversions None None
         (set_m_componentCompleted true (set_m_ready true Sample.comp0))
  /\ @run Sample.conversions [EvComponentComplete None None; EvSetReady true None None]
       Sample.comp0
     = @start Sample.conversions None None
         (set_m_componentCompleted true (set_m_ready true Sample.comp0)).
Proof.
  split; [reflexivity|]. split; [reflexivity|].
  exact (@ready_and_complete_commute Sample.conversions None None None None None None
           Sample.comp0 eq_refl eq_refl).
Defined.

Lemma bind_names_resolve_unless_component_name_has_dot_witness :
  indexOf "a.b" "%" = -1
  /\ (indexOf "a.b" "." = -1 ->
      localName (@bindPin Sample.conversions "a.b" Sample.x) = QHalPin.name Sample.x)
  /\ (indexOf "a" "." = -1 -> "a.b" = qualifiedName "a" "b" ->
      localName (@bindPin Sample.conversions "a.b" Sample.x)
      = qualifiedName "b" (QHalPin.name Sample.x)
      /\ localName (@bindPin Sample.conversions "a.b" Sample.x) <> QHalPin.name Sample.x).
Proof.
  split; [reflexivity|].
  exact (@bind_names_resolve_unless_component_name_has_dot Sample.conversions
           "a.b" "a" "b" Sample.x eq_refl).
Defined.
